(** * multisocket: logical channels multiplexed over one WebSocket

    A shallow embedding of the connection core ([conn.ts]: [WSConn]) and of
    its two transports ([server.ts]: [WSServerConn], [client.ts]:
    [WSClientConn]), followed by the properties of the dispatcher, of the
    identifier allocator and of the close paths.

    Asynchronous functions are embedded as computations in a state and
    exception monad over the connection object: an [async] method that is
    awaited runs to completion on the state it is given, a rejected promise
    is [Throw], and the effects a method has on the outside world (frames
    handed to the socket, events delivered to listeners, console output)
    are appended in program order to the connection's [trace]. Where the
    source starts a method without awaiting it (the handlers of
    [WSServerConn._listen] and of [WSServer.listen]), what the method does
    after the caller has gone on is placed by a schedule that the model
    takes as a parameter. *)

From stdpp Require Import base strings gmap list fin_maps.
From Stdlib Require Import ZArith Lia.

Local Open Scope string_scope.
Local Open Scope list_scope.
Local Open Scope Z_scope.

(** ** Wire frames ([types.ts], spec section 3 and 6) *)

Abbreviation UUID := string.
Abbreviation Path := string.
(** Payloads are [unknown] in the source: an opaque JSON text here. *)
Abbreviation Data := string.

(** [WSMessage]: the tagged union keyed by [type]; an omitted [type] is an
    ordinary data frame. *)
Inductive WSMessage : Type :=
| WSOpenMessage (uuid : UUID) (path : Path) (data : Data)
| WSDataMessage (uuid : UUID) (data : Data)
| WSCloseMessage (uuid : UUID) (data : Data)
| WSErrorMessage (uuid : UUID) (reason : string).

Definition msg_uuid (msg : WSMessage) : UUID :=
  match msg with
  | WSOpenMessage u _ _ | WSDataMessage u _
  | WSCloseMessage u _ | WSErrorMessage u _ => u
  end.

Definition is_open_msg (msg : WSMessage) : bool :=
  match msg with WSOpenMessage _ _ _ => true | _ => false end.

Definition is_terminal_msg (msg : WSMessage) : bool :=
  match msg with
  | WSCloseMessage _ _ | WSErrorMessage _ _ => true
  | _ => false
  end.

(** ** Thrown values ([errors.ts]) *)

Inductive CloseKind : Type := ConnectionClose | ChannelClose.

(** What a [throw] can carry: [new Error(message)], a [CloseError] of one
    of the two subclasses used by the source ([ConnectionCloseError],
    [ChannelCloseError]) with its optional [reason], or any value that is
    not an [Error]. *)
Inductive Err : Type :=
| JsError (message : string)
| CloseError (kind : CloseKind) (reason : option string)
| Thrown (value : string).

(** The argument of a channel's [close] event: the [data] of a [close]
    frame, or an error object. *)
Inductive CloseArg : Type :=
| CloseData (data : Data)
| CloseErr (e : Err).

(** ** Objects *)

(** A [WSChannel] object: its [uuid] and the identity of the object
    itself (two channels made for the same identifier are different
    objects with their own listeners). *)
Record WSChannel : Type := mkChannel { uuid : UUID; oid : nat }.

Inductive ReadyState : Type := CONNECTING | OPEN | CLOSING | CLOSED.

(** What a method does, in program order: calls on the socket, mutations
    of the channel table, events delivered to listeners, console output. *)
Inductive Effect : Type :=
| SocketSend (msg : WSMessage)
| SocketClose (code : Z) (reason : option string)
| ChannelsSet (uuid : UUID) (channel : WSChannel)
| ChannelsDelete (uuid : UUID)
| OnceClose (channel : WSChannel)
| PathEmit (path : Path) (channel : WSChannel) (data : Data)
| ChanEmitMessage (channel : WSChannel) (data : Data)
| ChanEmitClose (channel : WSChannel) (arg : CloseArg)
| ConnEmitPing
| ConnEmitPong
| ConnEmitClose (e : Err)
| ConsoleError (e : Err).

(** The connection object.
    - [channels] is [readonly channels = new Map<UUID, WSChannel>()];
    - [hooks] holds the channel objects on which the listener installed by
      [channel.once(["close"], () => this.channels.delete(uuid))] is still
      attached ([once]: it detaches when it fires);
    - [next_oid] numbers the objects made by [new WSChannel];
    - [draws] counts the calls made to [UUIDs.generate()];
    - [ready] is the state of the socket. *)
Record Conn : Type := mkConn {
  channels : gmap UUID WSChannel;
  hooks : gset nat;
  next_oid : nat;
  draws : nat;
  ready : ReadyState;
  trace : list Effect
}.

#[global] Instance WSMessage_eq_dec : EqDecision WSMessage.
Proof. solve_decision. Defined.
#[global] Instance CloseKind_eq_dec : EqDecision CloseKind.
Proof. solve_decision. Defined.
#[global] Instance Err_eq_dec : EqDecision Err.
Proof. solve_decision. Defined.
#[global] Instance CloseArg_eq_dec : EqDecision CloseArg.
Proof. solve_decision. Defined.
#[global] Instance WSChannel_eq_dec : EqDecision WSChannel.
Proof. solve_decision. Defined.
#[global] Instance ReadyState_eq_dec : EqDecision ReadyState.
Proof. solve_decision. Defined.
#[global] Instance Effect_eq_dec : EqDecision Effect.
Proof. solve_decision. Defined.

Definition set_channels (f : gmap UUID WSChannel → gmap UUID WSChannel)
    (s : Conn) : Conn :=
  mkConn (f (channels s)) (hooks s) (next_oid s) (draws s) (ready s) (trace s).

Definition set_hooks (f : gset nat → gset nat) (s : Conn) : Conn :=
  mkConn (channels s) (f (hooks s)) (next_oid s) (draws s) (ready s) (trace s).

Definition set_next_oid (n : nat) (s : Conn) : Conn :=
  mkConn (channels s) (hooks s) n (draws s) (ready s) (trace s).

Definition set_draws (n : nat) (s : Conn) : Conn :=
  mkConn (channels s) (hooks s) (next_oid s) n (ready s) (trace s).

Definition set_ready (r : ReadyState) (s : Conn) : Conn :=
  mkConn (channels s) (hooks s) (next_oid s) (draws s) r (trace s).

Definition add_trace (e : Effect) (s : Conn) : Conn :=
  mkConn (channels s) (hooks s) (next_oid s) (draws s) (ready s)
         (trace s ++ [e]).

(** A connection on a socket in state [r], with an empty table. *)
Definition new_conn (r : ReadyState) : Conn := mkConn ∅ ∅ 0 0 r [].

(** ** The monad of asynchronous methods *)

(** [Ok]: the promise resolves; [Throw]: it rejects; [Diverge]: the model
    stopped following a loop (only [genUUID] has one). *)
Inductive Result (A : Type) : Type :=
| Ok (a : A)
| Throw (e : Err)
| Diverge.
Arguments Ok {A} a.
Arguments Throw {A} e.
Arguments Diverge {A}.

Definition M (A : Type) : Type := Conn → Conn * Result A.

Definition ret {A} (a : A) : M A := λ s, (s, Ok a).

Definition bind {A B} (m : M A) (k : A → M B) : M B :=
  λ s, match m s with
       | (s', Ok a) => k a s'
       | (s', Throw e) => (s', Throw e)
       | (s', Diverge) => (s', Diverge)
       end.

Definition throw {A} (e : Err) : M A := λ s, (s, Throw e).

(** [try { m } catch (e) { h e }] *)
Definition try_catch {A} (m : M A) (h : Err → M A) : M A :=
  λ s, match m s with
       | (s', Throw e) => h e s'
       | r => r
       end.

Definition gets {A} (f : Conn → A) : M A := λ s, (s, Ok (f s)).
Definition modify (f : Conn → Conn) : M unit := λ s, (f s, Ok tt).
Definition log (e : Effect) : M unit := modify (add_trace e).

(** The outcome of running application listeners: they return or throw. *)
Definition listeners (o : option Err) : M unit :=
  match o with None => ret tt | Some e => throw e end.

Declare Scope conn_scope.
Delimit Scope conn_scope with conn.
Notation "x <- m ;; k" := (bind m (λ x, k))
  (at level 100, m at next level, k at level 200, right associativity)
  : conn_scope.
Notation "m ;; k" := (bind m (λ _, k))
  (at level 100, k at level 200, right associativity) : conn_scope.
Local Open Scope conn_scope.

(** ** The environment of a connection *)

(** The application's listeners. A listener returns ([None]) or throws
    ([Some e]); [on_path] stands for the listeners of [conn.paths],
    [on_message] and [on_close] for those of a channel's [message] and
    [close] events, [on_conn_close] for those of the connection's [close]
    event. *)
Record Listeners : Type := mkListeners {
  on_path : Path → WSChannel → Data → option Err;
  on_message : WSChannel → Data → option Err;
  on_close : WSChannel → CloseArg → option Err;
  on_conn_close : Err → option Err
}.

(** Listeners that never throw. *)
Definition silent : Listeners :=
  mkListeners (λ _ _ _, None) (λ _ _, None) (λ _ _, None) (λ _, None).

(** The abstract members of [WSConn]:
    [abstract get closed(): boolean],
    [abstract async send(msg: WSMessage): Promise<void>],
    [abstract async close(reason?: string): Promise<void>]. *)
Class WSConnImpl : Type := mkImpl {
  closed : Conn → bool;
  send : WSMessage → M unit;
  close : option string → M unit
}.

Section Multisocket.

(** The application's listeners. *)
Variable L : Listeners.

(** [generate i] is what the [i]-th call of [UUIDs.generate()] returns. *)
Variable generate : nat → UUID.

(** How many iterations of the loop of [genUUID] the model follows. *)
Variable fuel : nat.

(** What [socket.close] of the server's socket ([deps/ws.ts]) does when the
    socket is closed already: it returns ([None]) or throws ([Some e]). *)
Variable socket_reclose : option Err.

(** *** Event emitters ([deps/mutevents.ts]) *)

(** The emitter itself is not part of the sources at hand. An [emit] is
    taken to run the listeners of the event when it is called, one after
    the other, in the order in which they were attached, and to reject as
    soon as one of them throws (this is what the [try]/[catch] around
    every [emit] of [conn.ts] is for). The listeners that [conn.ts]
    attaches itself are modelled on the state; those of the application
    are the parameter [L]. *)

(** [this.paths.emit(path, { channel, data })] *)
Definition paths_emit (path : Path) (channel : WSChannel) (data : Data)
    : M unit :=
  log (PathEmit path channel data) ;;
  listeners (on_path L path channel data).

(** [channel.emit("message", data)] *)
Definition channel_emit_message (channel : WSChannel) (data : Data) : M unit :=
  log (ChanEmitMessage channel data) ;;
  listeners (on_message L channel data).

(** [this.channels.has(uuid)], [.get(uuid)], [.set(uuid, channel)],
    [.delete(uuid)] *)
Definition channels_has (u : UUID) : M bool :=
  gets (λ s, bool_decide (is_Some (channels s !! u))).

Definition channels_get (u : UUID) : M (option WSChannel) :=
  gets (λ s, channels s !! u).

Definition channels_set (u : UUID) (channel : WSChannel) : M unit :=
  log (ChannelsSet u channel) ;;
  modify (set_channels (insert u channel)).

Definition channels_delete (u : UUID) : M unit :=
  log (ChannelsDelete u) ;;
  modify (set_channels (delete u)).

(** [new WSChannel(this, uuid)]: a fresh object (what else the constructor
    does is in [close_each]). *)
Definition new_WSChannel (u : UUID) : M WSChannel :=
  λ s, (set_next_oid (S (next_oid s)) s, Ok (mkChannel u (next_oid s))).

(** [channel.once(["close"], () => this.channels.delete(uuid))] *)
Definition once_close_delete (channel : WSChannel) : M unit :=
  log (OnceClose channel) ;;
  modify (set_hooks (λ h, {[oid channel]} ∪ h)).

(** [channel.emit("close", arg)]: the listener installed by
    [once_close_delete] was attached when the channel was made, before
    the application saw the object, so it runs first, and detaches; then
    the application's listeners run. *)
Definition channel_emit_close (channel : WSChannel) (arg : CloseArg)
    : M unit :=
  log (ChanEmitClose channel arg) ;;
  hooked <- gets (λ s, bool_decide (oid channel ∈ hooks s)) ;;
  (if hooked : bool
   then modify (set_hooks (λ h, h ∖ {[oid channel]})) ;;
        channels_delete (uuid channel)
   else ret tt) ;;
  listeners (on_close L channel arg).

(** Modelled from the spec: [channel.ts] is absent, and with it the
    constructor of [WSChannel], which is where a channel would tie itself
    to the closing of its connection. Section 3: a connection is destroyed
    "with all channels force-closed"; section 4.2: a channel goes from open
    to closed by "forced closure because the owning connection closed";
    section 7: "All non-fatal failures are logged at the point of
    capture". Every channel of the table gets its [close] event, with the
    connection's close error. *)
Fixpoint close_each (cs : list WSChannel) (e : Err) : M unit :=
  match cs with
  | [] => ret tt
  | c :: cs =>
      try_catch (channel_emit_close c (CloseErr e))
                (λ e', log (ConsoleError e')) ;;
      close_each cs e
  end.

(** The channels of the table. *)
Definition registered (s : Conn) : list WSChannel :=
  (map_to_list (channels s)).*2.

Definition force_close_channels (e : Err) : M unit :=
  cs <- gets registered ;;
  close_each cs e.

(** [this.emit("close", e)] on the connection: the channels are closed
    as part of the delivery of the event (see [close_each]), then the
    application's listeners run. *)
Definition emit_close (e : Err) : M unit :=
  force_close_channels e ;;
  log (ConnEmitClose e) ;;
  listeners (on_conn_close L e).

(** *** The socket ([deps/ws.ts], the [WebSocket] of the platform) *)

(** Modelled from the spec: the socket is not part of the sources at
    hand. Section 4.1: [send] "fails with a transport-level error if the
    underlying transport cannot accept it"; a socket takes a frame when it
    is open. *)
Definition socket_send (msg : WSMessage) : M unit :=
  r <- gets ready ;;
  if decide (r = OPEN) then log (SocketSend msg)
  else throw (JsError "socket is not open").

(** ** [conn.ts]: [abstract class WSConn] *)

Section WSConn.

Context {impl : WSConnImpl}.

(** [async catch(e: unknown)] *)
Definition catch (e : Err) : M unit :=
  log (ConsoleError e) ;;
  c <- gets closed ;;
  match e with
  | CloseError _ reason => if negb c then close reason else ret tt
  | JsError message => if negb c then close (Some message) else ret tt
  | Thrown _ => ret tt
  end.

(** What a failure is called when it becomes the reason of a close. *)
Definition describe (e : Err) : string :=
  match e with
  | JsError message => message
  | CloseError _ reason => default "" reason
  | Thrown value => value
  end.

(** Modelled from the spec: [channel.ts] is absent. Section 3: a channel is
    "open (registered in the connection's table, able to send/receive) or
    closed (deregistered, no further emission)". *)
Definition channel_is_open (channel : WSChannel) (s : Conn) : bool :=
  bool_decide (channels s !! uuid channel = Some channel).

(** Modelled from the spec: [WSChannel.send] of the absent [channel.ts].
    Section 4.2: "wraps data as a data-typed frame tagged with this
    channel's identifier and forwards it via the owning Connection". *)
Definition channel_send (channel : WSChannel) (data : Data) : M unit :=
  send (WSDataMessage (uuid channel) data).

(** Modelled from the spec: [WSChannel.close] of the absent [channel.ts].
    Section 4.2: "emits a close frame tagged with this identifier, then
    fires a local close event and deregisters from the connection's
    table", and "double-closing must not re-emit a second close event". *)
Definition channel_close (channel : WSChannel) (data : Data) : M unit :=
  o <- gets (channel_is_open channel) ;;
  if o : bool
  then send (WSCloseMessage (uuid channel) data) ;;
       channel_emit_close channel (CloseData data)
  else ret tt.

(** Modelled from the spec: [WSChannel.catch] of the absent [channel.ts].
    Section 7: failures "are caught at the dispatch boundary and translated
    into a close of the affected channel with the failure's description as
    the reason", the abnormal close being the one of an [error] frame with
    a reason; "all non-fatal failures are logged at the point of
    capture". *)
Definition channel_catch (channel : WSChannel) (e : Err) : M unit :=
  log (ConsoleError e) ;;
  o <- gets (channel_is_open channel) ;;
  if o : bool
  then send (WSErrorMessage (uuid channel) (describe e)) ;;
       channel_emit_close channel
         (CloseErr (CloseError ChannelClose (Some (describe e))))
  else ret tt.

(** [private async onwsopen(msg: WSOpenMessage)] *)
Definition onwsopen (uuid : UUID) (path : Path) (data : Data) : M unit :=
  has <- channels_has uuid ;;
  if has : bool then throw (JsError "UUID already exists")
  else
    channel <- new_WSChannel uuid ;;
    channels_set uuid channel ;;
    once_close_delete channel ;;
    try_catch (paths_emit path channel data)
              (λ e, channel_catch channel e).

(** [private async onwsmessage(msg: WSMessage)] *)
Definition onwsmessage (msg : WSMessage) : M unit :=
  match msg with
  | WSOpenMessage uuid path data => onwsopen uuid path data
  | _ =>
      channel <- channels_get (msg_uuid msg) ;;
      match channel with
      | None => throw (JsError "Invalid UUID")
      | Some channel =>
          match msg with
          | WSOpenMessage _ _ _ => ret tt
          | WSDataMessage _ data =>
              try_catch (channel_emit_message channel data)
                        (λ e, channel_catch channel e)
          | WSCloseMessage _ data =>
              try_catch (channel_emit_close channel (CloseData data))
                        (λ e, catch e)
          | WSErrorMessage _ reason =>
              try_catch
                (channel_emit_close channel
                   (CloseErr (CloseError ChannelClose (Some reason))))
                (λ e, catch e)
          end
      end
  end.

(** The [message] event of the connection runs [onwsmessage] (the
    constructor of [WSConn] installs it); both transports emit the event
    with [.catch(console.error)]. *)
Definition deliver (msg : WSMessage) : M unit :=
  try_catch (onwsmessage msg) (λ e, log (ConsoleError e)).

(** [UUIDs.generate()] *)
Definition UUIDs_generate : M UUID :=
  λ s, (set_draws (S (draws s)) s, Ok (generate (draws s))).

(** [private genUUID()]: [while (true)], followed for [n] iterations. *)
Fixpoint genUUID_loop (n : nat) : M UUID :=
  match n with
  | O => λ s, (s, Diverge)
  | S n =>
      uuid <- UUIDs_generate ;;
      has <- channels_has uuid ;;
      if has : bool then genUUID_loop n else ret uuid
  end.

Definition genUUID : M UUID := genUUID_loop fuel.

(** [async open(path: string, data?: unknown)] *)
Definition open (path : Path) (data : Data) : M WSChannel :=
  uuid <- genUUID ;;
  channel <- new_WSChannel uuid ;;
  send (WSOpenMessage uuid path data) ;;
  channels_set uuid channel ;;
  once_close_delete channel ;;
  ret channel.

(** *** Races ([deps/abortable.ts], [deps/timeout.ts]) *)

(** [this.paths.wait([path])] and [this.error(["close"])]: what
    [waitpath] waits for. *)
Inductive Awaited : Type :=
| PathsWait (path : Path)
| ErrorOnClose.

(** A race: the promises raced and the delay of its timer, if it has one.
    [Timeout.race(promises, delay)] has a timer, [Abort.race(promises)]
    has none. *)
Record Race : Type := mkRace { awaited : list Awaited; timer : option Z }.

Definition Timeout_race (promises : list Awaited) (delay : Z) : Race :=
  mkRace promises (Some delay).

Definition Abort_race (promises : list Awaited) : Race :=
  mkRace promises None.

(** [async waitpath(path: string, delay = 0)] up to the race it awaits. *)
Definition waitpath (path : Path) (delay : option Z) : Race :=
  let delay := default 0 delay in
  let message := PathsWait path in
  let close := ErrorOnClose in
  if decide (delay > 0)
  then Timeout_race [message; close] 1000
  else Abort_race [message; close].

(** How a race ends: a promise settles first, at some time; the timer
    does; or nothing ever does. *)
Inductive Outcome : Type :=
| Won (a : Awaited) (t : Z)
| TimedOut (t : Z)
| Pending.

(** Modelled from the spec: the race primitive of [deps/] is absent.
    Section 9: it returns "the first to resolve". [when a] is the time at
    which [a] settles, if it does; of two promises that settle together
    the one listed first wins. *)
Fixpoint earliest (promises : list Awaited) (when : Awaited → option Z)
    : option (Awaited * Z) :=
  match promises with
  | [] => None
  | a :: promises =>
      match when a, earliest promises when with
      | Some t, Some (b, t') => if decide (t' < t) then Some (b, t') else Some (a, t)
      | Some t, None => Some (a, t)
      | None, r => r
      end
  end.

(** Modelled from the spec: the race primitive of [deps/] is absent.
    Section 5: a race "must resolve to exactly one outcome"; section 7: the
    timeout outcome is the race "resolved because the deadline elapsed
    before any semantic alternative". *)
Definition settle (r : Race) (when : Awaited → option Z) : Outcome :=
  match earliest (awaited r) when, timer r with
  | Some (a, t), Some d => if decide (t < d) then Won a t else TimedOut d
  | Some (a, t), None => Won a t
  | None, Some d => TimedOut d
  | None, None => Pending
  end.

(** *** Awaiting the end of a channel *)

(** What [final] comes to: the argument of the channel's [close] event, a
    timeout, or nothing yet. *)
Inductive Final : Type :=
| Settled (arg : CloseArg)
| TimeoutError
| Waiting.

(** The argument of the first [close] event of [channel] in a trace. *)
Fixpoint first_close (channel : WSChannel) (t : list Effect)
    : option CloseArg :=
  match t with
  | [] => None
  | ChanEmitClose c arg :: t =>
      if decide (c = channel) then Some arg else first_close channel t
  | _ :: t => first_close channel t
  end.

(** Modelled from the spec: [WSChannel.final] of the absent [channel.ts].
    Section 4.2: it "awaits the first terminal event for this channel",
    "racing against the deadline", and "on timeout, fails with a timeout
    condition and leaves the channel open"; section 5: "a deadline value of
    zero/unspecified means no timeout"; the glossary: a terminal outcome is
    "a close or error event". [inbound] lists the frames that the socket
    delivers while [final] waits, each with its time of arrival counted
    from the call; [since] is the length of the trace at the call. *)
Fixpoint final_loop (since : nat) (channel : WSChannel) (delay : Z)
    (inbound : list (Z * WSMessage)) : M Final :=
  t <- gets trace ;;
  match first_close channel (drop since t) with
  | Some arg => ret (Settled arg)
  | None =>
      match inbound with
      | [] => ret (if decide (delay > 0) then TimeoutError else Waiting)
      | (at_, msg) :: inbound =>
          if decide (delay > 0 ∧ delay ≤ at_) then ret TimeoutError
          else deliver msg ;; final_loop since channel delay inbound
      end
  end.

(** Modelled from the spec: [WSChannel.final] of the absent [channel.ts]
    (see [final_loop]); only the events that come after the call count. *)
Definition final (channel : WSChannel) (delay : Z)
    (inbound : list (Z * WSMessage)) : M Final :=
  since <- gets (λ s, length (trace s)) ;;
  final_loop since channel delay inbound.

(** [async request<T>(path: string, data?: unknown, delay = 1000)] *)
Definition request (path : Path) (data : Data) (delay : option Z)
    (inbound : list (Z * WSMessage)) : M Final :=
  let delay := default 1000 delay in
  channel <- open path data ;;
  final channel delay inbound.

End WSConn.

(** ** [server.ts]: [class WSServerConn extends WSConn] *)

(** Modelled from the spec: the server's socket ([deps/ws.ts]) is not part
    of the sources at hand. Section 6: the transport has "a closed flag"
    and its "close carries an optional human-readable reason and numeric
    code". [socket.close(code, reason)] closes the socket; what it does on
    a socket that is closed already is the parameter [socket_reclose]. *)
Definition server_socket_close (code : Z) (reason : string) : M unit :=
  log (SocketClose code (Some reason)) ;;
  r <- gets ready ;;
  if decide (r = CLOSED) then listeners socket_reclose
  else modify (set_ready CLOSED).

(** [get closed() { return this.socket.isClosed }] *)
Definition WSServerConn_closed (s : Conn) : bool :=
  bool_decide (ready s = CLOSED).

(** [async send(msg: WSMessage)] *)
Definition WSServerConn_send (msg : WSMessage) : M unit :=
  socket_send msg.

(** [async close(reason?: string)] *)
Definition WSServerConn_close (reason : option string) : M unit :=
  server_socket_close 1000 (default "" reason) ;;
  emit_close (CloseError ConnectionClose reason).

Definition WSServerConn : WSConnImpl :=
  mkImpl WSServerConn_closed WSServerConn_send WSServerConn_close.

(** [WebSocketEvent] of [deps/ws.ts]; a text event carries a frame. *)
Inductive WebSocketEvent : Type :=
| WsPing
| WsPong
| WsClose (code : Z) (reason : string)
| WsText (msg : WSMessage).

(** [private async _handle(e: WebSocketEvent)] *)
Definition _handle (e : WebSocketEvent) : M unit :=
  match e with
  | WsPing => log ConnEmitPing
  | WsPong => log ConnEmitPong
  | WsClose _ reason => emit_close (CloseError ConnectionClose (Some reason))
  | WsText msg => onwsmessage (impl := WSServerConn) msg
  end.

(** Modelled from the spec: section 6, the socket yields "a lazy sequence
    of inbound events distinguishing data/ping/pong/close"; it is closed
    when it yields its close event. *)
Definition socket_yield (e : WebSocketEvent) : M unit :=
  match e with
  | WsClose _ _ => modify (set_ready CLOSED)
  | _ => ret tt
  end.

(** *** Handlers that are started and not awaited *)

(** [_listen] starts the handler of each event and does not await it:
    [this._handle(e).catch(console.error)]. The call runs the handler up
    to the first [await] that suspends it, and the loop goes on with the
    next event; what is left of the handler runs later, one stretch of
    code between two [await]s at a time, in between the handlers of later
    events. What a suspended handler does when it goes on:
    - [CatchByChannel c e]: an emission made inside a [try] rejected with
      [e], and the [catch] block that calls [channel.catch(e)] is to run;
    - [CatchByConn e]: the same, for the [catch] block that calls
      [this.catch(e)];
    - [EmitAfterClose reason]: [close(reason)] awaits [socket.close], and
      the emission of the connection's [close] event is to follow;
    - [Report e]: the promise of the handler rejected with [e], which
      [.catch(console.error)] is to report. *)
Inductive Paused : Type :=
| CatchByChannel (channel : WSChannel) (e : Err)
| CatchByConn (e : Err)
| EmitAfterClose (reason : option string)
| Report (e : Err).

(** The outcome of a method that is called and whose promise is awaited
    by a stretch of code that runs later: [None] when it resolves, the
    failure when it rejects. The call itself runs, as every method here,
    with the emissions it makes. *)
Definition settled (m : M unit) : M (option Err) :=
  λ s, match m s with
       | (s', Ok _) => (s', Ok None)
       | (s', Throw e) => (s', Ok (Some e))
       | (s', Diverge) => (s', Diverge)
       end.

(** A rejection that nothing catches on its way up to the promise of the
    handler. *)
Definition rejected (r : option Err) : list Paused :=
  match r with
  | None => []
  | Some e => [Report e]
  end.

(** [private async onwsopen(msg: WSOpenMessage)] and [private async
    onwsmessage(msg: WSMessage)], as called by a handler that is not
    awaited, up to the [await] of the emission they make. *)
Definition onwsopen_called (uuid : UUID) (path : Path) (data : Data)
    : M (list Paused) :=
  has <- channels_has uuid ;;
  if has : bool then ret [Report (JsError "UUID already exists")]
  else
    channel <- new_WSChannel uuid ;;
    channels_set uuid channel ;;
    once_close_delete channel ;;
    r <- settled (paths_emit path channel data) ;;
    ret (match r with
         | None => []
         | Some e => [CatchByChannel channel e]
         end).

Definition onwsmessage_called (msg : WSMessage) : M (list Paused) :=
  match msg with
  | WSOpenMessage uuid path data => onwsopen_called uuid path data
  | _ =>
      channel <- channels_get (msg_uuid msg) ;;
      match channel with
      | None => ret [Report (JsError "Invalid UUID")]
      | Some channel =>
          match msg with
          | WSOpenMessage _ _ _ => ret []
          | WSDataMessage _ data =>
              r <- settled (channel_emit_message channel data) ;;
              ret (match r with
                   | None => []
                   | Some e => [CatchByChannel channel e]
                   end)
          | WSCloseMessage _ data =>
              r <- settled (channel_emit_close channel (CloseData data)) ;;
              ret (match r with
                   | None => []
                   | Some e => [CatchByConn e]
                   end)
          | WSErrorMessage _ reason =>
              r <- settled (channel_emit_close channel
                              (CloseErr (CloseError ChannelClose (Some reason)))) ;;
              ret (match r with
                   | None => []
                   | Some e => [CatchByConn e]
                   end)
          end
      end
  end.

(** [private async _handle(e: WebSocketEvent)], as called by [_listen]. *)
Definition _handle_called (e : WebSocketEvent) : M (list Paused) :=
  match e with
  | WsPing => log ConnEmitPing ;; ret []
  | WsPong => log ConnEmitPong ;; ret []
  | WsClose _ reason =>
      r <- settled (emit_close (CloseError ConnectionClose (Some reason))) ;;
      ret (rejected r)
  | WsText msg => onwsmessage_called msg
  end.

(** [async close(reason?: string)] of the server, up to
    [await this.socket.close(1000, reason ?? "")], and from there on. *)
Definition WSServerConn_close_called (reason : option string)
    : M (list Paused) :=
  r <- settled (server_socket_close 1000 (default "" reason)) ;;
  ret (match r with
       | None => [EmitAfterClose reason]
       | Some e => [Report e]
       end).

Definition WSServerConn_close_resumed (reason : option string) : M unit :=
  emit_close (CloseError ConnectionClose reason).

(** [async catch(e: unknown)] of a server connection, up to
    [await this.close(...)]. *)
Definition catch_called (e : Err) : M (list Paused) :=
  log (ConsoleError e) ;;
  c <- gets WSServerConn_closed ;;
  match e with
  | CloseError _ reason =>
      if negb c then WSServerConn_close_called reason else ret []
  | JsError message =>
      if negb c then WSServerConn_close_called (Some message) else ret []
  | Thrown _ => ret []
  end.

(** A suspended handler goes on, up to the next [await] that suspends
    it. *)
Definition resume (p : Paused) : M (list Paused) :=
  match p with
  | CatchByChannel channel e =>
      r <- settled (channel_catch (impl := WSServerConn) channel e) ;;
      ret (rejected r)
  | CatchByConn e => catch_called e
  | EmitAfterClose reason =>
      r <- settled (WSServerConn_close_resumed reason) ;;
      ret (rejected r)
  | Report e => log (ConsoleError e) ;; ret []
  end.

(** The event loop is free: the suspended handlers that [picks] names go
    on, one after the other. [paused] lists the suspended handlers, the
    oldest first; [picks] names them by their positions in that list. *)
Fixpoint progress (picks : list nat) (paused : list Paused)
    : M (list Paused) :=
  match picks with
  | [] => ret paused
  | i :: picks =>
      match paused !! i with
      | Some p =>
          new <- resume p ;;
          progress picks (delete i paused ++ new)
      | None => progress picks paused
      end
  end.

(** Every suspended handler goes on, the oldest first; and so on until
    none is left: a handler is suspended three times at most. *)
Fixpoint resume_each (paused : list Paused) : M (list Paused) :=
  match paused with
  | [] => ret []
  | p :: paused =>
      new <- resume p ;;
      more <- resume_each paused ;;
      ret (new ++ more)
  end.

Fixpoint run_out (rounds : nat) (paused : list Paused) : M (list Paused) :=
  match rounds with
  | O => ret paused
  | S rounds =>
      paused <- resume_each paused ;;
      run_out rounds paused
  end.

(** [for await (const e of this.socket) this._handle(e).catch(console.error)]:
    the handler of each event is started when the socket yields the
    event; [late] gives, for each event in turn, the [picks] of the
    suspended handlers that go on after its handler was started and
    before the socket yields again (none where [late] has no entry). *)
Fixpoint listen_loop (events : list WebSocketEvent) (late : list (list nat))
    (paused : list Paused) : M (list Paused) :=
  match events with
  | [] => ret paused
  | e :: events =>
      socket_yield e ;;
      new <- _handle_called e ;;
      paused <- progress (hd [] late) (paused ++ new) ;;
      listen_loop events (tl late) paused
  end.

(** [private async _listen()], on the events that the socket yields
    until it ends, together with the handlers that it started: the
    [close] event of the end of the loop is emitted while handlers may
    still be suspended; the entry of [late] that follows those of the
    events tells which go on right after it, and the others run out last.
    The outcome is the one of the emission, which [_listen] awaits. *)
Definition _listen (events : list WebSocketEvent) (late : list (list nat))
    : M unit :=
  paused <- listen_loop events late [] ;;
  r <- settled (emit_close (CloseError ConnectionClose None)) ;;
  paused <- progress (hd [] (drop (length events) late)) paused ;;
  run_out 3 paused ;;
  listeners r.

(** ** [client.ts]: [class WSClientConn extends WSConn] *)

(** Modelled from the spec: the [WebSocket] of the platform is not part of
    the sources at hand. [socket.close(code, reason)] starts the closing
    handshake; the socket is closed, and [onclose] fires, when the
    handshake ends. *)
Definition client_socket_close (code : Z) (reason : option string) : M unit :=
  log (SocketClose code reason) ;;
  r <- gets ready ;;
  if decide (r = CLOSED) then ret tt else modify (set_ready CLOSING).

(** [get closed() { return this.socket.readyState === WebSocket.CLOSED }] *)
Definition WSClientConn_closed (s : Conn) : bool :=
  bool_decide (ready s = CLOSED).

(** [async send(msg: WSMessage)] *)
Definition WSClientConn_send (msg : WSMessage) : M unit :=
  socket_send msg.

(** [async close(reason?: string)] *)
Definition WSClientConn_close (reason : option string) : M unit :=
  c <- gets WSClientConn_closed ;;
  if c : bool then ret tt
  else client_socket_close 1000 reason.

Definition WSClientConn : WSConnImpl :=
  mkImpl WSClientConn_closed WSClientConn_send WSClientConn_close.

(** [private async onclose(e: CloseEvent)] *)
Definition onclose (reason : string) : M unit :=
  try_catch (emit_close (CloseError ConnectionClose (Some reason)))
            (λ err, log (ConsoleError err)).

(** [private async onmessage(e: MessageEvent)] *)
Definition onmessage (msg : WSMessage) : M unit :=
  deliver (impl := WSClientConn) msg.

(** The end of the closing handshake, or a closure that the peer or the
    network started: the platform marks the socket closed, then fires
    [onclose]. *)
Definition socket_onclose (reason : string) : M unit :=
  modify (set_ready CLOSED) ;;
  onclose reason.

(** The two kinds of connection. *)
Inductive Flavor : Type := Server | Client.

Definition impl_of (f : Flavor) : WSConnImpl :=
  match f with Server => WSServerConn | Client => WSClientConn end.

End Multisocket.

(** ** Notions used by the properties *)

(** [a] occurs before [b] in the trace [t]. *)
Definition precedes (a b : Effect) (t : list Effect) : Prop :=
  ∃ i j, t !! i = Some a ∧ t !! j = Some b ∧ (i < j)%nat.

(** What a method adds to the trace of the state it starts from. *)
Definition added (s s' : Conn) : list Effect :=
  drop (length (trace s)) (trace s').

(** How many effects of a trace satisfy [p]. *)
Fixpoint count (p : Effect → bool) (t : list Effect) : nat :=
  match t with
  | [] => 0
  | e :: t => if p e then S (count p t) else count p t
  end.

(** The [close] event of [channel]; the removal of [u] from the table;
    a call of [socket.close] or the [close] event of the connection. *)
Definition is_close_of (channel : WSChannel) (e : Effect) : bool :=
  match e with
  | ChanEmitClose c _ => bool_decide (c = channel)
  | _ => false
  end.

Definition is_delete_of (u : UUID) (e : Effect) : bool :=
  match e with
  | ChannelsDelete u' => bool_decide (u' = u)
  | _ => false
  end.


(** The table and the listeners agree: a channel is registered under its
    own identifier, its removal listener is attached, and no two entries
    are the same object. *)
Record wf (s : Conn) : Prop := mkWf {
  wf_keyed : ∀ u c, channels s !! u = Some c → uuid c = u;
  wf_hooked : ∀ u c, channels s !! u = Some c → oid c ∈ hooks s;
  wf_fresh : ∀ u c, channels s !! u = Some c → (oid c < next_oid s)%nat;
  wf_inj : ∀ u1 u2 c1 c2,
    channels s !! u1 = Some c1 → channels s !! u2 = Some c2 →
    oid c1 = oid c2 → u1 = u2
}.

Section Runs.

Variable generate : nat → UUID.
Variable fuel : nat.
Context {impl : WSConnImpl}.

(** [open] up to the point where [await this.send(message)] resumes, and
    from there on: [open] is the one followed by the other. *)
Definition open_until_sent (path : Path) (data : Data) : M WSChannel :=
  uuid <- genUUID generate fuel ;;
  channel <- new_WSChannel uuid ;;
  send (WSOpenMessage uuid path data) ;;
  ret channel.

Definition open_resumed (channel : WSChannel) : M WSChannel :=
  channels_set (uuid channel) channel ;;
  once_close_delete channel ;;
  ret channel.

(** Channels opened one after the other, none being closed meanwhile. *)
Fixpoint open_many (reqs : list (Path * Data)) : M (list WSChannel) :=
  match reqs with
  | [] => ret []
  | (path, data) :: reqs =>
      channel <- open generate fuel path data ;;
      channels <- open_many reqs ;;
      ret (channel :: channels)
  end.

End Runs.

(** What the closing of a connection may add to the trace, [cs] being
    the channels it closes. *)
Definition closing_effect (cs : list WSChannel) (x : Effect) : Prop :=
  match x with
  | ChanEmitClose c _ => c ∈ cs
  | ChannelsDelete u => u ∈ uuid <$> cs
  | ConsoleError _ | ConnEmitClose _ | SocketClose _ _ => True
  | _ => False
  end.

(** The argument that a [close] or [error] frame gives to the [close]
    event of its channel. *)
Definition terminal_arg (msg : WSMessage) : option CloseArg :=
  match msg with
  | WSCloseMessage _ data => Some (CloseData data)
  | WSErrorMessage _ reason =>
      Some (CloseErr (CloseError ChannelClose (Some reason)))
  | _ => None
  end.

(** An attempt to close a channel: a frame arrives, or the application
    calls [close] on the channel object. *)
Inductive Closing : Type :=
| FrameArrives (msg : WSMessage)
| CloseCalled (channel : WSChannel) (data : Data).

(** The attempt is aimed at the channel [c] registered under [u]. *)
Definition aims_at (u : UUID) (c : WSChannel) (a : Closing) : Prop :=
  match a with
  | FrameArrives msg => is_terminal_msg msg = true ∧ msg_uuid msg = u
  | CloseCalled channel _ => channel = c
  end.

Section Closings.

Variable L : Listeners.
Context {impl : WSConnImpl}.

Definition closing (a : Closing) : M unit :=
  match a with
  | FrameArrives msg => deliver L msg
  | CloseCalled channel data => channel_close L channel data
  end.

(** Attempts made one after the other, each on the state that the one
    before left, whatever its outcome. *)
Fixpoint closings (l : list Closing) (s : Conn) : Conn :=
  match l with
  | [] => s
  | a :: l => closings l (fst (closing a s))
  end.

End Closings.

(** The ways in which a connection closes: the application calls [close],
    or the socket reports that it closed. On the client [close] only
    starts the closing handshake, and the platform fires [onclose] when it
    ends. On the server the socket yields its close event to [_listen] and
    ends; [late] is the schedule of [_listen]. *)
Inductive Closure : Type :=
| ServerCloseCalled (reason : option string)
| ServerSocketClosed (code : Z) (reason : string) (late : list (list nat))
| ClientCloseCalled (reason : option string) (echoed : string)
| ClientSocketClosed (reason : string).

Definition closure_flavor (k : Closure) : Flavor :=
  match k with
  | ServerCloseCalled _ | ServerSocketClosed _ _ _ => Server
  | ClientCloseCalled _ _ | ClientSocketClosed _ => Client
  end.

Section Closures.

Variable L : Listeners.
Variable socket_reclose : option Err.

Definition closure (k : Closure) : M unit :=
  match k with
  | ServerCloseCalled reason => WSServerConn_close L socket_reclose reason
  | ServerSocketClosed code reason late =>
      _listen L socket_reclose [WsClose code reason] late
  | ClientCloseCalled reason echoed =>
      WSClientConn_close reason ;; socket_onclose L echoed
  | ClientSocketClosed reason => socket_onclose L reason
  end.

End Closures.





(** The listeners leave the wait for the end of the channel [c] alone:
    the message listeners of [c] do not throw (a failure of theirs closes
    [c] from this side), nor do the close listeners of the other channels
    (a failure of theirs closes the connection, and [c] with it). *)
Definition undisturbed (L : Listeners) (c : WSChannel) : Prop :=
  (∀ d, on_message L c d = None) ∧
  (∀ c' a, c' ≠ c → on_close L c' a = None).

(** A suspended handler of which only the report of its rejection is
    left. *)
Definition is_report (p : Paused) : Prop :=
  match p with Report _ => True | _ => False end.

(** A suspended handler that has left the dispatcher: the emission that
    ends [close], or the report of its rejection, is all that is left. *)
Definition is_leaving (p : Paused) : Prop :=
  match p with EmitAfterClose _ | Report _ => True | _ => False end.

(** ** Sample environments *)

(** A generator that never repeats itself. *)
Fixpoint sample_uuid (n : nat) : UUID :=
  match n with
  | O => "u"
  | S n => String.append "x" (sample_uuid n)
  end.


(** Listeners of which the channels' close listener throws. *)
Definition failing_close : Listeners :=
  mkListeners (λ _ _ _, None) (λ _ _, None)
              (λ _ _, Some (JsError "boom")) (λ _, None).

(** A client connection after [open("echo", "1")]. *)
Definition echo_opened : Conn :=
  fst (open sample_uuid 4 (impl := WSClientConn) "echo" "1" (new_conn OPEN)).

(** A server connection after two calls of [open]. *)
Definition two_channels (L : Listeners) : Conn :=
  fst (open_many sample_uuid 4 (impl := WSServerConn L None)
         [("echo", "1"); ("echo", "2")] (new_conn OPEN)).


Definition failing_path : Listeners :=
  mkListeners (λ _ _ _, Some (Thrown "oops")) (λ _ _, None)
              (λ _ _, None) (λ _, None).

(** ** [server.ts]: [class WSServer] *)

(** [interface ListenOptions] *)
Record ListenOptions : Type := mkOptions {
  port : Z;
  hostname : option string;
  certFile : option string;
  keyFile : option string
}.

(** [Boolean(x)] of an optional string: [undefined] and the empty string
    are falsy, every other string is truthy. *)
Definition Boolean (x : option string) : bool :=
  match x with
  | None => false
  | Some s => negb (bool_decide (s = ""))
  end.

(** [function isHTTPS(options: ListenOptions)] *)
Definition isHTTPS (options : ListenOptions) : bool :=
  Boolean (certFile options) && Boolean (keyFile options).

(** A [ServerRequest] ([deps/server.ts]), with what the two calls made
    on it do: [acceptWebSocket] returns a socket ([None]) or throws, and
    [req.respond] returns or throws. *)
Record ServerRequest : Type := mkRequest {
  req_id : nat;
  upgrade : option Err;
  respond : option Err
}.

(** One iteration of [serve(options)] or [serveTLS(options)]: the requests
    that it yields, and how it ends, by itself ([None]) or by throwing. *)
Record Serving : Type := mkServing {
  requests : list ServerRequest;
  ends : option Err
}.

(** What the listener does, in program order. *)
Inductive ServerEffect : Type :=
| Serve (tls : bool) (options : ListenOptions)
| AcceptWebSocket (req : nat)
| Respond (req : nat) (status : Z)
| NewWSServerConn (req : nat)
| EmitAccept (req : nat)
| ServerConsoleError (e : Err).

(** What a handler that was started and not awaited is waiting for: the
    outcome of [acceptWebSocket], or, once it has rejected, its turn to be
    reported by [.catch(console.error)]. *)
Inductive Suspended : Type :=
| Upgrading (req : ServerRequest)
| Rejected (e : Err).

(** The listener while it runs: what it has done so far, the handlers
    that are waiting, the oldest first, and the schedule: for each point
    at which the listener awaits the next request in turn, the handlers
    that go on there, by their positions in [suspended] and in the order in
    which they go on (none where [late] has no entry). *)
Record Listening : Type := mkListening {
  out : list ServerEffect;
  suspended : list Suspended;
  late : list (list nat)
}.

Definition say (t : list ServerEffect) (l : Listening) : Listening :=
  mkListening (out l ++ t) (suspended l) (late l).

Definition wait (w : Suspended) (l : Listening) : Listening :=
  mkListening (out l) (suspended l ++ [w]) (late l).

Section WSServer.

(** The application's listeners of the [accept] event, on the connection
    made for a request. *)
Variable on_accept : nat → option Err.

(** [private async handle(req: ServerRequest)], up to the point where
    [await acceptWebSocket(...)] suspends it, and from there on; [handle]
    is the one followed by the other. *)
Definition handle_called (req : ServerRequest) : list ServerEffect * Suspended :=
  ([AcceptWebSocket (req_id req)], Upgrading req).

Definition handle_resumed (req : ServerRequest)
    : list ServerEffect * Result unit :=
  match upgrade req with
  | Some _ =>
      ([Respond (req_id req) 400],
       match respond req with None => Ok tt | Some e => Throw e end)
  | None =>
      ([NewWSServerConn (req_id req); EmitAccept (req_id req)],
       match on_accept (req_id req) with None => Ok tt | Some e => Throw e end)
  end.

Definition handle (req : ServerRequest) : list ServerEffect * Result unit :=
  let (t, _) := handle_called req in
  let (t', r) := handle_resumed req in
  (t ++ t', r).

(** A waiting handler goes on: [handle] runs to its end, and its
    rejection, if it rejects, waits for [.catch(console.error)]; a
    rejection that was waiting is reported. *)
Definition go_on (w : Suspended) : list ServerEffect * list Suspended :=
  match w with
  | Upgrading req =>
      let (t, r) := handle_resumed req in
      (t, match r with Throw e => [Rejected e] | _ => [] end)
  | Rejected e => ([ServerConsoleError e], [])
  end.

Fixpoint go_on_picked (picks : list nat) (ws : list Suspended)
    : list ServerEffect * list Suspended :=
  match picks with
  | [] => ([], ws)
  | i :: picks =>
      match ws !! i with
      | Some w =>
          let (t, new) := go_on w in
          let (t', ws') := go_on_picked picks (delete i ws ++ new) in
          (t ++ t', ws')
      | None => go_on_picked picks ws
      end
  end.

(** The listener awaits: the handlers that the schedule names go on. *)
Definition idle (l : Listening) : Listening :=
  let (t, ws) := go_on_picked (hd [] (late l)) (suspended l) in
  mkListening (out l ++ t) ws (tl (late l)).

(** Every waiting handler goes on, the oldest first. *)
Fixpoint go_on_all (ws : list Suspended) : list ServerEffect * list Suspended :=
  match ws with
  | [] => ([], [])
  | w :: ws =>
      let (t, new) := go_on w in
      let (t', new') := go_on_all ws in
      (t ++ t', new ++ new')
  end.

(** What is left to happen once the listener has returned: the handlers
    go on, then their rejections are reported. *)
Definition finish (l : Listening) : list ServerEffect :=
  let (t1, ws1) := go_on_all (suspended l) in
  let (t2, _) := go_on_all ws1 in
  out l ++ t1 ++ t2.

(** [for await (const req of ...) this.handle(req).catch(console.error)]:
    the handler of each request is started when the request is yielded,
    and is not awaited. *)
Fixpoint for_await (reqs : list ServerRequest) (l : Listening) : Listening :=
  match reqs with
  | [] => l
  | req :: reqs =>
      let (t, w) := handle_called req in
      for_await reqs (idle (wait w (say t l)))
  end.

(** [private async listen(options)] and [private async listenTLS(options)],
    which differ by the call of [serve] or [serveTLS] only: the loop
    [while (true)], followed for as many iterations as [servings] lists
    results of that call. *)
Fixpoint accept_loop (tls : bool) (options : ListenOptions)
    (servings : list Serving) (l : Listening) : Listening * Result unit :=
  match servings with
  | [] => (l, Diverge)
  | serving :: servings =>
      let l := for_await (requests serving) (idle (say [Serve tls options] l)) in
      match ends serving with
      | None => (l, Ok tt)
      | Some e =>
          accept_loop tls options servings (say [ServerConsoleError e] l)
      end
  end.

Definition listen := accept_loop false.
Definition listenTLS := accept_loop true.

(** [constructor(options: ListenOptions)], with what the handlers still
    do once the listener has returned. *)
Definition WSServer (options : ListenOptions) (servings : list Serving)
    (late : list (list nat)) : list ServerEffect * Result unit :=
  let (l, r) :=
    (if isHTTPS options then listenTLS options servings
     else listen options servings) (mkListening [] [] late) in
  match r with
  | Ok _ => (finish (idle l), r)
  | _ => (out l, r)
  end.

(** The rejection of the handler of a request, if it rejects. *)
Definition rejection (req : ServerRequest) : option Err :=
  match snd (handle_resumed req) with
  | Throw e => Some e
  | _ => None
  end.

End WSServer.

(** The requests on which [acceptWebSocket] was called; those for which
    the [accept] event was emitted; those that were answered, with the
    status; in the order of the trace. *)
Definition upgrades (t : list ServerEffect) : list nat :=
  omap (λ x, match x with AcceptWebSocket r => Some r | _ => None end) t.

Definition accepted (t : list ServerEffect) : list nat :=
  omap (λ x, match x with EmitAccept r => Some r | _ => None end) t.

Definition responded (t : list ServerEffect) : list (nat * Z) :=
  omap (λ x, match x with Respond r status => Some (r, status) | _ => None end) t.

(** The calls of [serve] ([false]) or [serveTLS] ([true]), with the
    options given. *)
Definition served (t : list ServerEffect) : list (bool * ListenOptions) :=
  omap (λ x, match x with Serve tls options => Some (tls, options) | _ => None end) t.

(** The failures that reached the console. *)
Definition server_errors (t : list ServerEffect) : list Err :=
  omap (λ x, match x with ServerConsoleError e => Some e | _ => None end) t.

(** The requests that [acceptWebSocket] takes, and those it refuses. *)
Definition upgradable (reqs : list ServerRequest) : list nat :=
  omap (λ r, match upgrade r with None => Some (req_id r) | Some _ => None end) reqs.

Definition refused (reqs : list ServerRequest) : list (nat * Z) :=
  omap (λ r, match upgrade r with
             | None => None
             | Some _ => Some (req_id r, 400)
             end) reqs.

(** The handlers that wait for [acceptWebSocket], and the rejections that
    wait to be reported. *)
Definition upgrading (ws : list Suspended) : list ServerRequest :=
  omap (λ w, match w with Upgrading req => Some req | _ => None end) ws.

Definition unreported (ws : list Suspended) : list Err :=
  omap (λ w, match w with Rejected e => Some e | _ => None end) ws.

(** From [l] to [l'] the listener was yielded the requests [reqs], called
    [serve] as [serves] lists and was thrown [errs] by it: the handlers of
    the requests were started in order; each request yielded so far has
    been accepted or answered, or its handler is suspended; each failure
    has reached the console or waits to; what [serve] threw has reached
    it. *)
Definition grows (on_accept : nat → option Err) (l l' : Listening)
    (reqs : list ServerRequest) (serves : list (bool * ListenOptions))
    (errs : list Err) : Prop :=
  upgrades (out l') = upgrades (out l) ++ (req_id <$> reqs) ∧
  served (out l') = served (out l) ++ serves ∧
  accepted (out l') ++ upgradable (upgrading (suspended l')) ≡ₚ
    (accepted (out l) ++ upgradable (upgrading (suspended l))) ++
    upgradable reqs ∧
  responded (out l') ++ refused (upgrading (suspended l')) ≡ₚ
    (responded (out l) ++ refused (upgrading (suspended l))) ++ refused reqs ∧
  server_errors (out l') ++ unreported (suspended l') ++
      omap (rejection on_accept) (upgrading (suspended l')) ≡ₚ
    (server_errors (out l) ++ unreported (suspended l) ++
       omap (rejection on_accept) (upgrading (suspended l))) ++
    errs ++ omap (rejection on_accept) reqs ∧
  (∀ e, e ∈ server_errors (out l) ++ errs → e ∈ server_errors (out l')).

(** ** Runs of a connection *)

Section Deliveries.

Variable L : Listeners.
Variable generate : nat → UUID.
Variable fuel : nat.
Context {impl : WSConnImpl}.

(** Inbound frames handled one after the other, in the order of their
    arrival. *)
Fixpoint deliveries (msgs : list WSMessage) (s : Conn) : Conn :=
  match msgs with
  | [] => s
  | msg :: msgs => deliveries msgs (fst (deliver L msg s))
  end.

(** What happens on a connection: the application opens a channel, or a
    frame arrives. *)
Inductive Action : Type :=
| Opens (path : Path) (data : Data)
| Receives (msg : WSMessage).

Definition act (a : Action) (s : Conn) : Conn :=
  match a with
  | Opens path data => fst (open generate fuel path data s)
  | Receives msg => fst (deliver L msg s)
  end.

Fixpoint run (acts : list Action) (s : Conn) : Conn :=
  match acts with
  | [] => s
  | a :: acts => run acts (act a s)
  end.

(** The frame as [JSON.parse] returns it: an object whose [type] can be
    any string, or be missing. *)
Record RawMessage : Type := mkRaw {
  raw_uuid : UUID;
  raw_type : option string;
  raw_path : Path;
  raw_data : Data;
  raw_reason : string
}.

(** [private async onwsmessage(msg: WSMessage)], statement by statement, on
    the object that [JSON.parse(e) as WSMessage] hands over. *)
Definition onwsmessage_raw (msg : RawMessage) : M unit :=
  if decide (raw_type msg = Some "open")
  then onwsopen L (raw_uuid msg) (raw_path msg) (raw_data msg)
  else
    channel <- channels_get (raw_uuid msg) ;;
    match channel with
    | None => throw (JsError "Invalid UUID")
    | Some channel =>
        (if decide (raw_type msg = None)
         then try_catch (channel_emit_message L channel (raw_data msg))
                        (λ e, channel_catch L channel e)
         else ret tt) ;;
        (if decide (raw_type msg = Some "close")
         then try_catch (channel_emit_close L channel (CloseData (raw_data msg)))
                        (λ e, catch e)
         else ret tt) ;;
        (if decide (raw_type msg = Some "error")
         then try_catch
                (channel_emit_close L channel
                   (CloseErr (CloseError ChannelClose (Some (raw_reason msg)))))
                (λ e, catch e)
         else ret tt)
    end.

End Deliveries.

(** The object of a frame. *)
Definition to_raw (msg : WSMessage) : RawMessage :=
  match msg with
  | WSOpenMessage u path data => mkRaw u (Some "open") path data ""
  | WSDataMessage u data => mkRaw u None "" data ""
  | WSCloseMessage u data => mkRaw u (Some "close") "" data ""
  | WSErrorMessage u reason => mkRaw u (Some "error") "" "" reason
  end.

(** The frames handed to the socket, in order. *)
Fixpoint sent (t : list Effect) : list WSMessage :=
  match t with
  | [] => []
  | SocketSend msg :: t => msg :: sent t
  | _ :: t => sent t
  end.

(** The calls of [socket.close]; the emissions of the connection's
    [close] event; the [ping] and [pong] events. *)
Definition is_socket_close (e : Effect) : bool :=
  match e with SocketClose _ _ => true | _ => false end.

Definition is_conn_emit_close (e : Effect) : bool :=
  match e with ConnEmitClose _ => true | _ => false end.

Definition is_ping (e : Effect) : bool :=
  match e with ConnEmitPing => true | _ => false end.

Definition is_pong (e : Effect) : bool :=
  match e with ConnEmitPong => true | _ => false end.

(** What the closing of channels adds to a trace. *)
Definition channel_effect (e : Effect) : Prop :=
  match e with
  | ChanEmitClose _ _ | ChannelsDelete _ | ConsoleError _ => True
  | _ => False
  end.

(** Effects that are neither a call of [socket.close] nor an event of
    the connection. *)
Definition plain_effect (e : Effect) : Prop :=
  is_socket_close e = false ∧ is_conn_emit_close e = false ∧
  is_ping e = false ∧ is_pong e = false.

(** From [s] to [s'], with [t] added to the trace, the socket was left
    alone; or it was closed, by one call of [socket.close] followed by one
    [close] event of the connection. *)
Definition keeps_socket (s s' : Conn) (t : list Effect) : Prop :=
  ready s' = ready s ∧
  count is_socket_close t = 0%nat ∧ count is_conn_emit_close t = 0%nat.

Definition closes_socket (s s' : Conn) (t : list Effect) : Prop :=
  ready s ≠ CLOSED ∧ ready s' = CLOSED ∧
  count is_socket_close t = 1%nat ∧ count is_conn_emit_close t = 1%nat.



(** The frame that an object is, by its [type]: a data frame when it has
    none, no frame when the type is not one of the three. *)
Definition typed (msg : RawMessage) : option WSMessage :=
  match raw_type msg with
  | None => Some (WSDataMessage (raw_uuid msg) (raw_data msg))
  | Some kind =>
      if decide (kind = "open")
      then Some (WSOpenMessage (raw_uuid msg) (raw_path msg) (raw_data msg))
      else if decide (kind = "close")
      then Some (WSCloseMessage (raw_uuid msg) (raw_data msg))
      else if decide (kind = "error")
      then Some (WSErrorMessage (raw_uuid msg) (raw_reason msg))
      else None
  end.

(** From [s] to [s'], with [t] added to the trace, the connection's
    [close] event was not emitted, the socket was at most told to start
    its closing handshake, and not even that when it was closed. *)
Definition at_most_closing (s s' : Conn) (t : list Effect) : Prop :=
  count is_conn_emit_close t = 0%nat ∧
  (ready s' = ready s ∨ ready s ≠ CLOSED ∧ ready s' = CLOSING) ∧
  (ready s = CLOSED → count is_socket_close t = 0%nat).

(** A stretch of code that emits no [ping] and no [pong] event. *)
Definition no_beat (t : list Effect) : Prop :=
  count is_ping t = 0%nat ∧ count is_pong t = 0%nat.

(** * Properties *)

Section Properties.

Variable L : Listeners.
Variable generate : nat → UUID.
Variable fuel : nat.
Variable socket_reclose : option Err.

Local Abbreviation impl_ f := (impl_of L socket_reclose f).

(** Unfolding of the dispatcher down to the state. *)
Ltac unfold_m :=
  unfold deliver, onwsmessage, onwsopen, catch, channel_catch, channel_close,
    channel_emit_close, channel_emit_message, paths_emit, channels_has,
    channels_get, channels_set, channels_delete, new_WSChannel,
    once_close_delete, try_catch, listeners, log, modify, gets, bind, ret,
    throw in *.

(** Projections of a state built from setters, and the trace
    reassociated. *)
Ltac trace_step :=
  cbn [trace add_trace set_channels set_hooks set_ready set_next_oid
       set_draws channels hooks ready next_oid draws fst snd];
  rewrite <- ?app_assoc; cbn [app].

(** ** The identifier allocator *)

(** What the loop of [genUUID] does: it touches nothing but the count of
    draws, and what it returns was drawn last, after draws that were all
    in the table. *)
Lemma genUUID_loop_spec n s :
  match genUUID_loop generate n s with
  | (s', r) =>
      channels s' = channels s ∧ hooks s' = hooks s ∧
      next_oid s' = next_oid s ∧ ready s' = ready s ∧ trace s' = trace s ∧
      match r with
      | Ok u =>
          channels s !! u = None ∧
          ∃ k, draws s' = (draws s + S k)%nat ∧ u = generate (draws s + k)%nat ∧
               ∀ i, (i < k)%nat → is_Some (channels s !! generate (draws s + i)%nat)
      | Throw _ => False
      | Diverge => (draws s' = draws s + n)%nat
      end
  end.
Proof.
  revert s. induction n as [|n IH]; intros s; cbn.
  - repeat split; lia.
  - unfold bind, UUIDs_generate, channels_has, gets; cbn.
    case_bool_decide as Hin.
    + specialize (IH (set_draws (S (draws s)) s)).
      destruct (genUUID_loop generate n _) as [s' r]. cbn in IH.
      destruct IH as (-> & -> & -> & -> & -> & Hr). repeat split.
      destruct r as [u| |]; [|done|lia].
      destruct Hr as (Hu & k & Hd & -> & Hk). split; [done|].
      exists (S k). split; [lia|]. split; [f_equal; lia|].
      intros [|i] Hi.
      * by rewrite Nat.add_0_r.
      * replace (draws s + S i)%nat with (S (draws s) + i)%nat by lia.
        apply Hk. lia.
    + cbn. repeat split.
      * by apply eq_None_not_Some.
      * exists 0%nat. rewrite Nat.add_0_r. split; [lia|]. split; [done|]. intros; lia.
Qed.
(** ** Well-formed connections *)

Lemma wf_new_conn r : wf (new_conn r).
Proof. split; cbn; intros *; by rewrite ?lookup_empty. Qed.

Lemma wf_same (s s' : Conn) :
  channels s' = channels s → hooks s' = hooks s → next_oid s' = next_oid s →
  wf s → wf s'.
Proof.
  intros Hc Hh Hn [H1 H2 H3 H4]. split; rewrite ?Hc, ?Hh, ?Hn; eauto.
Qed.

Lemma wf_add_trace x (s : Conn) : wf s → wf (add_trace x s).
Proof. apply wf_same; done. Qed.

Lemma wf_register (s : Conn) u :
  wf s → channels s !! u = None →
  wf (set_hooks (λ h, {[next_oid s]} ∪ h)
        (set_channels (insert u (mkChannel u (next_oid s)))
           (set_next_oid (S (next_oid s)) s))).
Proof.
  intros [H1 H2 H3 H4] Hu. split; cbn.
  - intros u' c. rewrite lookup_insert. case_decide; [naive_solver|eauto].
  - intros u' c. rewrite lookup_insert. case_decide.
    + intros [= <-]. cbn. set_solver.
    + intros Hc. apply H2 in Hc. set_solver.
  - intros u' c. rewrite lookup_insert. case_decide.
    + intros [= <-]. cbn. lia.
    + intros Hc. apply H3 in Hc. lia.
  - intros u1 u2 c1 c2. rewrite !lookup_insert.
    repeat case_decide; subst; try done.
    + intros [= <-] Hc Ho. apply H3 in Hc. cbn in Ho. lia.
    + intros Hc [= <-] Ho. apply H3 in Hc. cbn in Ho. lia.
    + eauto.
Qed.

Lemma wf_unregister (s : Conn) c :
  wf s → channels s !! uuid c = Some c →
  wf (set_channels (delete (uuid c)) (set_hooks (λ h, h ∖ {[oid c]}) s)).
Proof.
  intros [H1 H2 H3 H4] Hc. split; cbn.
  - intros u' c'. rewrite lookup_delete. case_decide; [done|eauto].
  - intros u' c'. rewrite lookup_delete. case_decide; [done|].
    intros Hc'. apply elem_of_difference. split; [eauto|].
    intros Ho%elem_of_singleton. apply H. symmetry. eauto.
  - intros u' c'. rewrite lookup_delete. case_decide; [done|eauto].
  - intros u1 u2 c1 c2. rewrite !lookup_delete. repeat case_decide; try done. eauto.
Qed.

(** ** The [close] event of a channel *)

(** On a registered channel the event removes the entry. *)
Lemma channel_emit_close_spec c a (s : Conn) :
  wf s → channels s !! uuid c = Some c →
  channel_emit_close L c a s =
    (set_channels (delete (uuid c))
       (add_trace (ChannelsDelete (uuid c))
          (set_hooks (λ h, h ∖ {[oid c]})
             (add_trace (ChanEmitClose c a) s))),
     match on_close L c a with None => Ok tt | Some e => Throw e end).
Proof.
  intros Hwf Hc. unfold_m. cbn.
  rewrite bool_decide_eq_true_2 by (eapply wf_hooked; eauto). cbn.
  by destruct (on_close L c a).
Qed.

(** On a channel whose removal listener is gone it removes nothing. *)
Lemma channel_emit_close_absent c a (s : Conn) :
  oid c ∉ hooks s →
  channel_emit_close L c a s =
    (add_trace (ChanEmitClose c a) s,
     match on_close L c a with None => Ok tt | Some e => Throw e end).
Proof.
  intros Hc. unfold_m. cbn.
  rewrite bool_decide_eq_false_2 by done. cbn.
  by destruct (on_close L c a).
Qed.
(** ** The [close] event of a connection *)

(** Closing channels that are all registered removes their entries and
    no other, and fires the [close] event of each. *)
Lemma close_each_spec e cs : ∀ s : Conn,
  wf s → NoDup cs → (∀ c, c ∈ cs → channels s !! uuid c = Some c) →
  ∃ s', close_each L cs e s = (s', Ok tt) ∧ wf s' ∧
    (∀ u, channels s' !! u =
            if decide (u ∈ uuid <$> cs) then None else channels s !! u) ∧
    ready s' = ready s ∧ next_oid s' = next_oid s ∧ draws s' = draws s ∧
    ∃ t, trace s' = trace s ++ t ∧
         (∀ c, c ∈ cs → ChanEmitClose c (CloseErr e) ∈ t) ∧
         Forall (closing_effect cs) t.
Proof.
  induction cs as [|c cs IH]; intros s Hwf Hnd Hcur.
  - exists s. cbn. split_and!; try done.
    exists []. rewrite app_nil_r. split_and!; [done| |done].
    intros c Hc. by apply elem_of_nil in Hc.
  - apply NoDup_cons in Hnd as [Hc Hnd].
    assert (Hcc : channels s !! uuid c = Some c) by (apply Hcur; left).
    cbn [close_each]. unfold bind at 1. unfold try_catch.
    rewrite channel_emit_close_spec by done.
    set (s1 := set_channels _ _).
    assert (Hwf1 : wf s1).
    { eapply (wf_same (set_channels (delete (uuid c)) (set_hooks (λ h, h ∖ {[oid c]}) s)));
        [done..|]. by apply wf_unregister. }
    assert (Hcur1 : ∀ c', c' ∈ cs → channels s1 !! uuid c' = Some c').
    { intros c' Hc'. cbn. rewrite lookup_delete_ne.
      - apply Hcur. by right.
      - intros Heq. assert (Some c = Some c') as [= ->]; [|done].
        rewrite <- Hcc, Heq. apply Hcur. by right. }
    set (s2 := match on_close L c (CloseErr e) with
               | None => s1 | Some e' => add_trace (ConsoleError e') s1 end).
    assert (Hwf2 : wf s2).
    { unfold s2. destruct (on_close L c (CloseErr e)); [|done].
      eapply wf_same; [..|exact Hwf1]; done. }
    assert (Hcur2 : ∀ c', c' ∈ cs → channels s2 !! uuid c' = Some c').
    { unfold s2. destruct (on_close L c (CloseErr e)); [|done]. exact Hcur1. }
    destruct (IH s2 Hwf2 Hnd Hcur2) as (s' & Hrun & Hwf' & Hch & Hr & Hn & Hd & t & Ht & Hin & Hall).
    exists s'. split.
    { unfold s2 in Hrun. destruct (on_close L c (CloseErr e)); cbn; exact Hrun. }
    split; [done|]. split.
    { intros u. rewrite Hch. rewrite fmap_cons.
      assert (channels s2 !! u = channels s1 !! u) as ->.
      { unfold s2. by destruct (on_close L c (CloseErr e)). }
      cbn [s1 set_channels channels]. cbn.
      destruct (decide (u = uuid c)) as [->|Hne].
      - rewrite lookup_delete_eq.
        destruct (decide (uuid c ∈ uuid <$> cs)),
                 (decide (uuid c ∈ uuid c :: (uuid <$> cs))) as [|Hnin];
          try done; exfalso; apply Hnin; left.
      - rewrite lookup_delete_ne by done.
        destruct (decide (u ∈ uuid <$> cs)) as [Hi|Hi],
                 (decide (u ∈ uuid c :: (uuid <$> cs))) as [Hj|Hj];
          try done.
        + exfalso. apply Hj. by right.
        + by apply elem_of_cons in Hj as [?|?]. }
    assert (Hs2 : ready s2 = ready s ∧ next_oid s2 = next_oid s ∧ draws s2 = draws s ∧
                  ∃ t2, trace s2 = trace s ++ ChanEmitClose c (CloseErr e) :: ChannelsDelete (uuid c) :: t2 ∧
                        Forall (closing_effect (c :: cs)) t2).
    { unfold s2. destruct (on_close L c (CloseErr e)); cbn; repeat split.
      - exists [ConsoleError e0]. rewrite <- !app_assoc. split; [done|]. by repeat constructor.
      - exists []. rewrite <- !app_assoc. split; [done|]. constructor. }
    destruct Hs2 as (Hr2 & Hn2 & Hd2 & t2 & Ht2 & Hall2).
    split; [congruence|]. split; [congruence|]. split; [congruence|].
    exists (ChanEmitClose c (CloseErr e) :: ChannelsDelete (uuid c) :: t2 ++ t).
    split. { rewrite Ht, Ht2. rewrite <- app_assoc. done. }
    split.
    { intros c' [->|Hc']%elem_of_cons; [left|].
      do 2 right. apply elem_of_app. right. by apply Hin. }
    constructor; [cbn; left|]. constructor; [cbn; left|].
    apply Forall_app. split; [done|].
    eapply Forall_impl; [exact Hall|].
    intros [] Hx; cbn in *; try done; by right.
Qed.
Lemma elem_of_registered (s : Conn) c :
  c ∈ registered s ↔ ∃ u, channels s !! u = Some c.
Proof.
  unfold registered. rewrite list_elem_of_fmap. split.
  - intros ([u c'] & -> & H%elem_of_map_to_list). by exists u.
  - intros [u H]. exists (u, c). split; [done|]. by apply elem_of_map_to_list.
Qed.

Lemma registered_current (s : Conn) c :
  wf s → c ∈ registered s → channels s !! uuid c = Some c.
Proof.
  intros Hwf [u Hu]%elem_of_registered.
  by rewrite (wf_keyed _ Hwf _ _ Hu).
Qed.

Lemma NoDup_registered (s : Conn) : wf s → NoDup (registered s).
Proof.
  intros Hwf. unfold registered. apply NoDup_fmap_2_strong.
  - intros [u1 c1] [u2 c2] H1%elem_of_map_to_list H2%elem_of_map_to_list.
    cbn. intros <-. f_equal.
    rewrite <- (wf_keyed _ Hwf _ _ H1). apply (wf_keyed _ Hwf _ _ H2).
  - apply NoDup_map_to_list.
Qed.

Lemma emit_close_spec e (s : Conn) :
  wf s →
  ∃ s' t,
    emit_close L e s =
      (s', match on_conn_close L e with None => Ok tt | Some e' => Throw e' end) ∧
    wf s' ∧ channels s' = ∅ ∧
    ready s' = ready s ∧ next_oid s' = next_oid s ∧ draws s' = draws s ∧
    trace s' = trace s ++ t ++ [ConnEmitClose e] ∧
    (∀ c, c ∈ registered s → ChanEmitClose c (CloseErr e) ∈ t) ∧
    Forall (closing_effect (registered s)) t.
Proof.
  intros Hwf.
  destruct (close_each_spec e (registered s) s Hwf (NoDup_registered s Hwf))
    as (s1 & Hrun & Hwf1 & Hch & Hr & Hn & Hd & t & Ht & Hin & Hall).
  { intros c. by apply registered_current. }
  exists (add_trace (ConnEmitClose e) s1), t. split.
  { unfold emit_close, force_close_channels, bind, gets. fold (registered s).
    rewrite Hrun. unfold log, modify, listeners.
    by destruct (on_conn_close L e). }
  split. { eapply wf_same; [..|exact Hwf1]; done. }
  split.
  { cbn. apply map_eq. intros u. rewrite Hch, lookup_empty.
    case_decide as Hu; [done|].
    destruct (channels s !! u) as [c|] eqn:Hc; [|done].
    exfalso. apply Hu. apply list_elem_of_fmap. exists c. split.
    - symmetry. apply (wf_keyed _ Hwf _ _ Hc).
    - apply elem_of_registered. by exists u. }
  cbn. split_and!; try done. by rewrite Ht, app_assoc.
Qed.

Lemma server_close_spec reason (s : Conn) :
  wf s → ready s ≠ CLOSED →
  ∃ s' t,
    WSServerConn_close L socket_reclose reason s =
      (s', match on_conn_close L (CloseError ConnectionClose reason) with
           | None => Ok tt | Some e' => Throw e' end) ∧
    wf s' ∧ channels s' = ∅ ∧ ready s' = CLOSED ∧
    next_oid s' = next_oid s ∧ draws s' = draws s ∧
    trace s' = trace s ++ SocketClose 1000 (Some (default "" reason)) :: t ++
                 [ConnEmitClose (CloseError ConnectionClose reason)] ∧
    (∀ c, c ∈ registered s →
          ChanEmitClose c (CloseErr (CloseError ConnectionClose reason)) ∈ t) ∧
    Forall (closing_effect (registered s)) t.
Proof.
  intros Hwf Hopen.
  set (s1 := set_ready CLOSED (add_trace (SocketClose 1000 (Some (default "" reason))) s)).
  assert (Hwf1 : wf s1) by (eapply wf_same; [..|exact Hwf]; done).
  destruct (emit_close_spec (CloseError ConnectionClose reason) s1 Hwf1)
    as (s' & t & Hrun & Hwf' & Hch & Hr & Hn & Hd & Ht & Hin & Hall).
  exists s', t. split.
  { unfold WSServerConn_close, server_socket_close, bind, log, modify, gets.
    cbn. rewrite decide_False by done. exact Hrun. }
  split_and!; try done.
  cbn in Ht. by rewrite Ht, <- app_assoc.
Qed.
(** ** Counting in traces *)

Lemma grows_closing_silent cs c u (t : list Effect) :
  c ∉ cs → u ∉ uuid <$> cs → Forall (closing_effect cs) t →
  count (is_close_of c) t = 0%nat ∧ count (is_delete_of u) t = 0%nat.
Proof.
  intros Hc Hu. induction 1 as [|x t Hx _ [IH1 IH2]]; [done|].
  destruct x; cbn in *; try done.
  - split; [done|]. case_bool_decide; [by subst|done].
  - split; [|done]. case_bool_decide; [by subst|done].
Qed.

Lemma count_app p (t1 t2 : list Effect) :
  count p (t1 ++ t2) = (count p t1 + count p t2)%nat.
Proof. induction t1 as [|x t1 IH]; cbn; [done|]. destruct (p x); lia. Qed.

Lemma added_app (s s' : Conn) t : trace s' = trace s ++ t → added s s' = t.
Proof. intros H. unfold added. rewrite H. apply drop_app_length. Qed.

(** What [catch] does to a well-formed connection, for both transports. *)
Lemma catch_spec f e (s : Conn) :
  wf s →
  ∃ s' r t,
    catch (impl := impl_of L socket_reclose f) e s = (s', r) ∧ wf s' ∧
    (∀ u, channels s !! u = None → channels s' !! u = None) ∧
    trace s' = trace s ++ t ∧
    Forall (closing_effect (registered s)) t ∧ r ≠ Diverge.
Proof.
  intros Hwf.
  set (s1 := add_trace (ConsoleError e) s).
  assert (Hwf1 : wf s1) by (eapply wf_same; [..|exact Hwf]; done).
  assert (Hstay : ∃ s' r t, (s1, @Ok unit tt) = (s', r) ∧ wf s' ∧
    (∀ u, channels s !! u = None → channels s' !! u = None) ∧
    trace s' = trace s ++ t ∧
    Forall (closing_effect (registered s)) t ∧ r ≠ Diverge).
  { exists s1, (Ok tt), [ConsoleError e]. split_and!; try done. by repeat constructor. }
  assert (Hclose : ∀ reason, ready s ≠ CLOSED → ∃ s' r t,
    close (WSConnImpl := impl_of L socket_reclose f) reason s1 = (s', r) ∧ wf s' ∧
    (∀ u, channels s !! u = None → channels s' !! u = None) ∧
    trace s' = trace s ++ t ∧
    Forall (closing_effect (registered s)) t ∧ r ≠ Diverge).
  { intros reason Hopen. destruct f; cbn.
    - destruct (server_close_spec reason s1 Hwf1 Hopen)
        as (s' & t & Hrun & Hwf' & Hch & Hr & Hn & Hd & Ht & Hin & Hall).
      eexists s', _, (ConsoleError e :: SocketClose 1000 (Some (default "" reason)) :: t ++ [_]).
      split; [exact Hrun|]. split_and!; try done.
      + intros u _. by rewrite Hch, lookup_empty.
      + rewrite Ht. cbn. by rewrite <- app_assoc.
      + constructor; [done|]. constructor; [done|].
        apply Forall_app. split; [done|]. by repeat constructor.
      + by destruct (on_conn_close L _).
    - unfold WSClientConn_close, client_socket_close, WSClientConn_closed, bind, gets, log, modify, ret.
      cbn. rewrite bool_decide_eq_false_2 by done. rewrite decide_False by done.
      eexists _, _, [ConsoleError e; SocketClose 1000 reason].
      split; [done|]. split_and!; try done.
      + eapply wf_same; [..|exact Hwf]; done.
      + cbn. by rewrite <- app_assoc.
      + by repeat constructor. }
  unfold catch, bind, log, modify, gets. cbn. fold s1.
  assert (Hcl : closed (WSConnImpl := impl_of L socket_reclose f) s1 = bool_decide (ready s = CLOSED)).
  { by destruct f. }
  rewrite Hcl. case_bool_decide as Hr; cbn.
  - destruct e; exact Hstay.
  - destruct e; [by apply Hclose|by apply Hclose|exact Hstay].
Qed.

(** Handlers of which only the report is left only write to the
    console. *)
Lemma progress_reports picks : ∀ (paused : list Paused) (s : Conn),
  Forall is_report paused →
  ∃ s' es paused',
    progress L socket_reclose picks paused s = (s', Ok paused') ∧
    Forall is_report paused' ∧
    channels s' = channels s ∧ hooks s' = hooks s ∧
    next_oid s' = next_oid s ∧ draws s' = draws s ∧ ready s' = ready s ∧
    trace s' = trace s ++ (ConsoleError <$> es).
Proof.
  induction picks as [|i picks IH]; intros paused s Hall.
  - exists s, [], paused. cbn. by rewrite app_nil_r.
  - cbn [progress]. destruct (paused !! i) as [p|] eqn:Hi; [|by apply IH].
    assert (Hp : is_report p).
    { rewrite Forall_forall in Hall. apply Hall. by eapply list_elem_of_lookup_2. }
    destruct p as [| | |e]; try done.
    unfold bind at 1. cbn [resume]. unfold bind at 1, log, modify, ret.
    rewrite app_nil_r.
    destruct (IH (delete i paused) (add_trace (ConsoleError e) s))
      as (s' & es & w' & -> & Hall' & Hc & Hh & Hn & Hd & Hr & Ht).
    { by apply Forall_delete. }
    exists s', (e :: es), w'. split_and!; try done.
    rewrite Ht. cbn. by rewrite <- app_assoc.
Qed.

Lemma resume_each_reports (paused : list Paused) : ∀ s : Conn,
  Forall is_report paused →
  ∃ s' es,
    resume_each L socket_reclose paused s = (s', Ok []) ∧
    channels s' = channels s ∧ hooks s' = hooks s ∧
    next_oid s' = next_oid s ∧ draws s' = draws s ∧ ready s' = ready s ∧
    trace s' = trace s ++ (ConsoleError <$> es).
Proof.
  induction paused as [|p paused IH]; intros s Hall.
  - exists s, []. cbn. by rewrite app_nil_r.
  - apply Forall_cons in Hall as [Hp Hall]. destruct p as [| | |e]; try done.
    cbn [resume_each resume]. unfold bind at 1 2, log, modify, ret.
    destruct (IH (add_trace (ConsoleError e) s) Hall)
      as (s' & es & Hrun & Hc & Hh & Hn & Hd & Hr & Ht).
    unfold bind. rewrite Hrun.
    exists s', (e :: es). split_and!; try done.
    rewrite Ht. cbn. by rewrite <- app_assoc.
Qed.

Lemma run_out_nil n (s : Conn) : run_out L socket_reclose n [] s = (s, Ok []).
Proof. induction n as [|n IH]; [done|]. cbn. apply IH. Qed.

Lemma run_out_reports n (paused : list Paused) (s : Conn) :
  Forall is_report paused →
  ∃ s' es,
    run_out L socket_reclose (S n) paused s = (s', Ok []) ∧
    channels s' = channels s ∧ hooks s' = hooks s ∧
    next_oid s' = next_oid s ∧ draws s' = draws s ∧ ready s' = ready s ∧
    trace s' = trace s ++ (ConsoleError <$> es).
Proof.
  intros Hall. cbn [run_out]. unfold bind.
  destruct (resume_each_reports paused s Hall)
    as (s' & es & -> & Hc & Hh & Hn & Hd & Hr & Ht).
  rewrite run_out_nil. by exists s', es.
Qed.

Lemma progress_nil picks (s : Conn) :
  progress L socket_reclose picks [] s = (s, Ok []).
Proof. induction picks as [|i picks IH]; [done|]. cbn. apply IH. Qed.

Lemma rejected_reports r : Forall is_report (rejected r).
Proof. destruct r; by repeat constructor. Qed.

(** What is left of [_listen] once its loop has ended, when only reports
    are left of the handlers. *)
Lemma listen_end_spec picks (paused : list Paused) (s : Conn) :
  wf s → Forall is_report paused →
  let e := CloseError ConnectionClose None in
  ∃ s' t es,
    (r <- settled (emit_close L e) ;;
     paused <- progress L socket_reclose picks paused ;;
     run_out L socket_reclose 3 paused ;;
     listeners r) s =
      (s', match on_conn_close L e with None => Ok tt | Some e' => Throw e' end) ∧
    wf s' ∧ channels s' = ∅ ∧ ready s' = ready s ∧
    trace s' = trace s ++ t ++ ConnEmitClose e :: (ConsoleError <$> es).
Proof.
  intros Hwf Hall e.
  destruct (emit_close_spec e s Hwf)
    as (s1 & t & Hrun & Hwf1 & Hch & Hr & Hn & Hd & Ht & Hin & Hall').
  destruct (progress_reports picks paused s1 Hall)
    as (s2 & es & w' & Hrep & Hw' & Hc2 & Hh2 & Hn2 & Hd2 & Hr2 & Ht2).
  destruct (run_out_reports 2 w' s2 Hw')
    as (s3 & es' & Hrest & Hc3 & Hh3 & Hn3 & Hd3 & Hr3 & Ht3).
  exists s3, t, (es ++ es'). split_and!.
  - unfold bind at 1. unfold settled. rewrite Hrun.
    assert (Hgo : ∀ r : option Err,
      (paused0 <- progress L socket_reclose picks paused ;;
       run_out L socket_reclose 3 paused0 ;; listeners r) s1 =
        (s3, match r with None => Ok tt | Some e' => Throw e' end)).
    { intros r. unfold bind. rewrite Hrep, Hrest. by destruct r. }
    destruct (on_conn_close L e); apply Hgo.
  - eapply wf_same; [..|exact Hwf1]; congruence.
  - congruence.
  - congruence.
  - rewrite Ht3, Ht2, Ht, fmap_app. by rewrite <- !app_assoc.
Qed.

(** With no handler suspended when the loop ends, [_listen] ends as the
    emission of its [close] event does. *)
Lemma listen_nothing_paused events late (s s1 : Conn) :
  listen_loop L socket_reclose events late [] s = (s1, Ok []) →
  _listen L socket_reclose events late s =
    emit_close L (CloseError ConnectionClose None) s1.
Proof.
  intros Hloop. unfold _listen. unfold bind at 1. rewrite Hloop.
  unfold bind at 1. unfold settled.
  destruct (emit_close L _ s1) as [s2 [[]|e|]]; [| |done].
  - unfold bind. by rewrite progress_nil, run_out_nil.
  - unfold bind. by rewrite progress_nil, run_out_nil.
Qed.

Lemma listen_loop_one e late (s s1 : Conn) :
  (socket_yield e ;; _handle_called L e) s = (s1, Ok []) →
  listen_loop L socket_reclose [e] late [] s = (s1, Ok []).
Proof.
  intros Hrun. cbn [listen_loop]. unfold bind in *.
  destruct (socket_yield e s) as [s0 [[]|?|]]; [|done..].
  destruct (_handle_called L e s0) as [s0' [new|?|]]; [|done..].
  injection Hrun as <- ->. cbn [app]. by rewrite progress_nil.
Qed.

(** ** What the closing of channels adds to a trace *)

Lemma count_none p (t : list Effect) :
  Forall (λ x, p x = false) t → count p t = 0%nat.
Proof. induction 1 as [|x t Hx _ IH]; [done|]. cbn. by rewrite Hx. Qed.

Lemma count_channel_effect p (t : list Effect) :
  (∀ x, channel_effect x → p x = false) →
  Forall channel_effect t → count p t = 0%nat.
Proof.
  intros Hp Hall. apply count_none. eapply Forall_impl; [exact Hall|done].
Qed.

Lemma count_le p q (t : list Effect) :
  (∀ x, p x = true → q x = true) → (count p t ≤ count q t)%nat.
Proof.
  intros Hpq. induction t as [|x t IH]; cbn; [lia|].
  destruct (p x) eqn:Hp; [rewrite (Hpq x Hp); lia|].
  destruct (q x); lia.
Qed.

Lemma channel_emit_close_effects c a (s : Conn) :
  ∃ s' t, channel_emit_close L c a s =
            (s', match on_close L c a with None => Ok tt | Some e => Throw e end) ∧
          trace s' = trace s ++ t ∧ Forall channel_effect t ∧
          ready s' = ready s.
Proof.
  unfold channel_emit_close, channels_delete, bind, log, modify, gets,
    listeners, ret, throw. cbn.
  case_bool_decide; cbn; destruct (on_close L c a); eexists _, _;
    (split; [done|]); cbn; rewrite <- ?app_assoc;
    (split; [done|]); split; try done; by repeat constructor.
Qed.

Lemma close_each_effects e cs : ∀ s : Conn,
  ∃ s' t, close_each L cs e s = (s', Ok tt) ∧ trace s' = trace s ++ t ∧
          Forall channel_effect t ∧ ready s' = ready s.
Proof.
  induction cs as [|c cs IH]; intros s.
  - exists s, []. by rewrite app_nil_r.
  - cbn [close_each]. unfold bind at 1. unfold try_catch.
    destruct (channel_emit_close_effects c (CloseErr e) s)
      as (s1 & t1 & -> & Ht1 & Hall1 & Hr1).
    destruct (on_close L c (CloseErr e)) as [e'|].
    + unfold log, modify.
      destruct (IH (add_trace (ConsoleError e') s1)) as (s' & t & -> & Ht & Hall & Hr).
      exists s', (t1 ++ ConsoleError e' :: t). split_and!; [done| | |by rewrite Hr].
      * rewrite Ht. cbn. by rewrite Ht1, <- !app_assoc.
      * apply Forall_app. split; [done|]. by constructor.
    + destruct (IH s1) as (s' & t & -> & Ht & Hall & Hr).
      exists s', (t1 ++ t). split_and!; [done| | |congruence].
      * by rewrite Ht, Ht1, <- app_assoc.
      * by apply Forall_app.
Qed.


(** ** Closing a channel *)


Lemma not_registered_after_delete (s : Conn) c :
  wf s → channels s !! uuid c = Some c →
  ∀ s1 : Conn, channels s1 = delete (uuid c) (channels s) →
  (c ∉ registered s1) ∧ (uuid c ∉ uuid <$> registered s1).
Proof.
  intros Hwf Hc s1 Hs1. split.
  - intros [u Hu]%elem_of_registered. rewrite Hs1 in Hu.
    apply lookup_delete_Some in Hu as [Hne Hu].
    by rewrite (wf_keyed _ Hwf _ _ Hu) in Hne.
  - intros (c' & Heq & [u Hu]%elem_of_registered)%list_elem_of_fmap.
    rewrite Hs1 in Hu. apply lookup_delete_Some in Hu as [Hne Hu].
    by rewrite Heq, (wf_keyed _ Hwf _ _ Hu) in Hne.
Qed.

(** The first close or error frame for a registered channel. *)
Lemma deliver_terminal_registered f (s : Conn) u c msg arg :
  wf s → channels s !! u = Some c →
  terminal_arg msg = Some arg → msg_uuid msg = u →
  ∃ s' t,
    deliver L (impl := impl_ f) msg s = (s', Ok tt) ∧ wf s' ∧
    channels s' !! u = None ∧
    trace s' = trace s ++ ChanEmitClose c arg :: ChannelsDelete u :: t ∧
    count (is_close_of c) t = 0%nat ∧ count (is_delete_of u) t = 0%nat.
Proof.
  intros Hwf Hc Harg Hu.
  assert (Hk : uuid c = u) by (by eapply wf_keyed).
  destruct Hk.
  set (s1 := set_channels (delete (uuid c))
       (add_trace (ChannelsDelete (uuid c))
          (set_hooks (λ h, h ∖ {[oid c]})
             (add_trace (ChanEmitClose c arg) s)))).
  assert (Hwf1 : wf s1).
  { eapply (wf_same (set_channels (delete (uuid c)) (set_hooks (λ h, h ∖ {[oid c]}) s)));
      [done..|]. by apply wf_unregister. }
  assert (Hrun : onwsmessage L (impl := impl_ f) msg s =
    match on_close L c arg with
    | None => (s1, Ok tt)
    | Some e => catch (impl := impl_ f) e s1
    end).
  { destruct msg; try discriminate; cbn in Harg, Hu; injection Harg as <-;
      unfold onwsmessage, channels_get, bind, gets, try_catch; cbn [msg_uuid];
      rewrite Hu, Hc, channel_emit_close_spec by done; fold s1;
      by destruct (on_close L c _). }
  destruct (not_registered_after_delete s c Hwf Hc s1 eq_refl) as [Hn1 Hn2].
  assert (Hs1 : channels s1 !! uuid c = None) by apply lookup_delete_eq.
  assert (Ht1 : trace s1 = trace s ++ [ChanEmitClose c arg; ChannelsDelete (uuid c)]).
  { cbn. by rewrite <- !app_assoc. }
  unfold deliver, try_catch. rewrite Hrun.
  destruct (on_close L c arg) as [e|].
  - destruct (catch_spec f e s1 Hwf1) as (s' & r & t & Hcatch & Hwf' & Hch & Ht & Hall & Hr).
    rewrite Hcatch.
    destruct (grows_closing_silent _ c (uuid c) t Hn1 Hn2 Hall) as [Hc1 Hc2].
    assert (Hnone : channels s' !! uuid c = None) by (by apply Hch).
    destruct r as [[]|e'|]; [| |done].
    + exists s', t. split_and!; try done.
      rewrite Ht, Ht1. by rewrite <- !app_assoc.
    + exists (add_trace (ConsoleError e') s'), (t ++ [ConsoleError e']).
      unfold log, modify. split_and!; try done.
      * eapply wf_same; [..|exact Hwf']; done.
      * cbn [add_trace trace]. rewrite Ht, Ht1. by rewrite <- !app_assoc.
      * rewrite count_app. cbn. lia.
      * rewrite count_app. cbn. lia.
  - exists s1, []. split_and!; done.
Qed.

(** A frame that is not an [open] for an identifier that is not
    registered: the error is logged, nothing else happens. *)
Lemma deliver_unregistered impl (s : Conn) msg :
  is_open_msg msg = false → channels s !! msg_uuid msg = None →
  deliver L (impl := impl) msg s =
    (add_trace (ConsoleError (JsError "Invalid UUID")) s, Ok tt).
Proof.
  intros Hopen Hnone.
  destruct msg; try discriminate; unfold_m; cbn in *; by rewrite Hnone.
Qed.

Lemma channel_close_closed impl (s : Conn) c d :
  channels s !! uuid c = None →
  channel_close L (impl := impl) c d s = (s, Ok tt).
Proof.
  intros Hnone. unfold channel_close, channel_is_open, bind, gets, ret. cbn.
  rewrite bool_decide_eq_false_2; [done|]. by rewrite Hnone.
Qed.

Lemma closings_after_close impl u c l : ∀ s : Conn,
  uuid c = u → channels s !! u = None → Forall (aims_at u c) l →
  ∃ t,
    channels (closings L (impl := impl) l s) !! u = None ∧
    trace (closings L (impl := impl) l s) = trace s ++ t ∧
    count (is_close_of c) t = 0%nat ∧ count (is_delete_of u) t = 0%nat.
Proof.
  intros s Hk. revert s.
  induction l as [|a l IH]; intros s Hnone Hall.
  - exists []. by rewrite app_nil_r.
  - apply Forall_cons in Hall as [Ha Hall]. cbn [closings].
    destruct a as [msg|c' d]; cbn [closing aims_at] in Ha |- *.
    + destruct Ha as [Hterm Hu].
      rewrite deliver_unregistered; [|by destruct msg|by rewrite Hu].
      cbn [fst].
      destruct (IH (add_trace (ConsoleError (JsError "Invalid UUID")) s) Hnone Hall)
        as (t & Hn' & Ht & Hc1 & Hc2).
      exists (ConsoleError (JsError "Invalid UUID") :: t).
      split_and!; try done. rewrite Ht. cbn. by rewrite <- app_assoc.
    + subst c'. rewrite channel_close_closed by (by rewrite Hk).
      cbn [fst]. by apply IH.
Qed.

(** The first call of [close] on a registered channel, the socket being
    open. *)
Lemma channel_close_registered f (s : Conn) c d :
  wf s → channels s !! uuid c = Some c → ready s = OPEN →
  ∃ s' r,
    channel_close L (impl := impl_ f) c d s = (s', r) ∧
    channels s' !! uuid c = None ∧
    trace s' = trace s ++ [SocketSend (WSCloseMessage (uuid c) d);
                           ChanEmitClose c (CloseData d);
                           ChannelsDelete (uuid c)].
Proof.
  intros Hwf Hc Hopen.
  assert (Hsend : send (WSConnImpl := impl_ f) = socket_send) by (by destruct f).
  unfold channel_close, channel_is_open, bind at 1, gets. cbn.
  rewrite bool_decide_eq_true_2 by done. rewrite Hsend.
  unfold socket_send, bind at 1 2, gets, log, modify. cbn -[channel_emit_close].
  rewrite decide_True by done.
  rewrite channel_emit_close_spec.
  - eexists _, _. split; [done|]. split.
    + cbn. apply lookup_delete_eq.
    + cbn. by rewrite <- !app_assoc.
  - by apply wf_add_trace.
  - done.
Qed.

(** C8: of the attempts to close a registered channel (close and error
    frames that name it, calls of [close] on it), the first fires the
    channel's [close] event and removes its identifier from the table,
    and the later ones do neither: over the whole sequence the event fires
    once and the identifier is removed once. *)
Theorem channel_closes_once f (s : Conn) u c a l :
  wf s → channels s !! u = Some c →
  Forall (aims_at u c) (a :: l) →
  (∀ channel data, a = CloseCalled channel data → ready s = OPEN) →
  let s' := closings L (impl := impl_ f) (a :: l) s in
  count (is_close_of c) (added s s') = 1%nat ∧
  count (is_delete_of u) (added s s') = 1%nat ∧
  channels s' !! u = None.
Proof.
  intros Hwf Hc [Ha Hall]%Forall_cons Hopen.
  assert (Hk : uuid c = u) by (by eapply wf_keyed).
  assert (Hfirst : ∃ t0 x t1,
    channels (fst (closing L (impl := impl_ f) a s)) !! u = None ∧
    trace (fst (closing L (impl := impl_ f) a s)) =
      trace s ++ t0 ++ ChanEmitClose c x :: ChannelsDelete u :: t1 ∧
    count (is_close_of c) t0 = 0%nat ∧ count (is_delete_of u) t0 = 0%nat ∧
    count (is_close_of c) t1 = 0%nat ∧ count (is_delete_of u) t1 = 0%nat).
  { destruct a as [msg|c' d]; cbn [closing aims_at] in Ha |- *.
    - destruct Ha as [Hterm Hu].
      assert (∃ arg, terminal_arg msg = Some arg) as [arg Harg].
      { destruct msg; try discriminate; eauto. }
      destruct (deliver_terminal_registered f s u c msg arg Hwf Hc Harg Hu)
        as (s1 & t1 & -> & _ & Hn1 & Ht1 & Hc1 & Hd1).
      by exists [], arg, t1.
    - subst c'. destruct (channel_close_registered f s c d Hwf) as (s1 & r & -> & Hn1 & Ht1).
      { by rewrite Hk. }
      { by eapply Hopen. }
      exists [SocketSend (WSCloseMessage (uuid c) d)], (CloseData d), [].
      rewrite <- Hk. by split_and!. }
  destruct Hfirst as (t0 & x & t1 & Hn1 & Ht1 & Hc0 & Hd0 & Hc1 & Hd1).
  destruct (closings_after_close (impl_ f) u c l _ Hk Hn1 Hall)
    as (t2 & Hn2 & Ht2 & Hc2 & Hd2).
  cbn [closings].
  rewrite (added_app s _ (t0 ++ ChanEmitClose c x :: ChannelsDelete u :: t1 ++ t2)).
  2:{ rewrite Ht2, Ht1. rewrite <- !app_assoc. done. }
  rewrite !count_app. cbn. rewrite !bool_decide_eq_true_2 by done.
  rewrite !count_app. split_and!; [lia|lia|done].
Qed.

(** ** Closing a connection *)

Lemma precedes_app_mid a b (t1 t2 : list Effect) :
  a ∈ t1 → precedes a b (t1 ++ b :: t2).
Proof.
  intros [i Hi]%list_elem_of_lookup. exists i, (length t1).
  split_and!.
  - by apply lookup_app_l_Some.
  - by rewrite list_lookup_middle.
  - by eapply lookup_lt_Some.
Qed.

Lemma precedes_cons a b x (t : list Effect) :
  precedes a b t → precedes a b (x :: t).
Proof.
  intros (i & j & Hi & Hj & Hij). exists (S i), (S j).
  split_and!; [done|done|lia].
Qed.

Lemma precedes_app_l a b (t t' : list Effect) :
  precedes a b t → precedes a b (t ++ t').
Proof.
  intros (i & j & Hi & Hj & Hij). exists i, j.
  split_and!; [by apply lookup_app_l_Some..|done].
Qed.

Lemma socket_send_closed (s : Conn) msg :
  ready s ≠ OPEN → socket_send msg s = (s, Throw (JsError "socket is not open")).
Proof.
  intros H. unfold socket_send, bind, gets, throw. cbn. by rewrite decide_False.
Qed.

(** What the delivery of the connection's [close] event comes to, from a
    well-formed state. *)
Lemma emit_close_closes e (s : Conn) :
  wf s →
  let s' := fst (emit_close L e s) in
  wf s' ∧ channels s' = ∅ ∧ ready s' = ready s ∧
  ∃ t, trace s' = trace s ++ t ∧
       ∀ c, c ∈ registered s →
            precedes (ChanEmitClose c (CloseErr e)) (ConnEmitClose e) t.
Proof.
  intros Hwf.
  destruct (emit_close_spec e s Hwf)
    as (s' & t & Hrun & Hwf' & Hch & Hr & Hn & Hd & Ht & Hin & Hall).
  rewrite Hrun. cbn. split_and!; try done.
  exists (t ++ [ConnEmitClose e]). split; [done|].
  intros c Hc. apply precedes_app_mid. by apply Hin.
Qed.
Lemma socket_onclose_spec reason (s : Conn) :
  wf s →
  let e := CloseError ConnectionClose (Some reason) in
  ∃ s' t,
    socket_onclose L reason s = (s', Ok tt) ∧
    channels s' = ∅ ∧ ready s' = CLOSED ∧ trace s' = trace s ++ t ∧
    ∀ c, c ∈ registered s →
         precedes (ChanEmitClose c (CloseErr e)) (ConnEmitClose e) t.
Proof.
  intros Hwf e.
  set (s0 := set_ready CLOSED s).
  assert (Hwf0 : wf s0) by (eapply wf_same; [..|exact Hwf]; done).
  destruct (emit_close_spec e s0 Hwf0)
    as (s1 & t & Hrun & Hwf1 & Hch & Hr & Hn & Hd & Ht & Hin & Hall).
  unfold socket_onclose, onclose, bind, try_catch, modify, log.
  fold s0. fold e. rewrite Hrun.
  destruct (on_conn_close L e) as [e'|].
  - exists (add_trace (ConsoleError e') s1), ((t ++ [ConnEmitClose e]) ++ [ConsoleError e']).
    split_and!; try done.
    + cbn. rewrite Ht. cbn. by rewrite <- !app_assoc.
    + intros c Hc. apply precedes_app_l, precedes_app_mid. by apply Hin.
  - exists s1, (t ++ [ConnEmitClose e]). split_and!; try done.
    intros c Hc. apply precedes_app_mid. by apply Hin.
Qed.

(** C9: however an open connection closes (the application calls
    [close], or the socket reports that it closed), every channel of the
    table gets its [close] event before the connection's own [close]
    event is delivered, the table ends empty, and every later [send]
    fails. *)
Theorem closing_connection_closes_channels k (s : Conn) :
  wf s → ready s = OPEN →
  let s' := fst (closure L socket_reclose k s) in
  channels s' = ∅ ∧
  (∀ c, c ∈ registered s →
        ∃ e, precedes (ChanEmitClose c (CloseErr e)) (ConnEmitClose e)
                      (added s s')) ∧
  (∀ msg, send (WSConnImpl := impl_ (closure_flavor k)) msg s' =
            (s', Throw (JsError "socket is not open"))).
Proof.
  intros Hwf Hopen.
  assert (Hsend : ∀ f (s' : Conn) msg, ready s' = CLOSED →
            send (WSConnImpl := impl_ f) msg s' =
              (s', Throw (JsError "socket is not open"))).
  { intros f s' msg Hr. destruct f; cbn; apply socket_send_closed; by rewrite Hr. }
  destruct k as [reason|code reason late|reason echoed|reason]; cbn [closure closure_flavor].
  - destruct (server_close_spec reason s Hwf)
      as (s' & t & Hrun & Hwf' & Hch & Hr & Hn & Hd & Ht & Hin & Hall).
    { by rewrite Hopen. }
    rewrite Hrun. cbn [fst]. split_and!; [done| |by intros; apply Hsend].
    intros c Hc. exists (CloseError ConnectionClose reason).
    rewrite (added_app _ _ _ Ht).
    apply precedes_cons, precedes_app_mid. by apply Hin.
  - set (e := CloseError ConnectionClose (Some reason)).
    set (s0 := set_ready CLOSED s).
    assert (Hwf0 : wf s0) by (eapply wf_same; [..|exact Hwf]; done).
    destruct (emit_close_spec e s0 Hwf0)
      as (s1 & t & Hrun & Hwf1 & Hch & Hr & Hn & Hd & Ht & Hin & Hall).
    destruct (progress_reports (hd [] late) (rejected (on_conn_close L e)) s1
                (rejected_reports _))
      as (s2 & es & w & Hrep & Hw & Hc2 & Hh2 & Hn2 & Hd2 & Hr2 & Ht2).
    assert (Hwf2 : wf s2) by (eapply wf_same; [..|exact Hwf1]; congruence).
    destruct (listen_end_spec (hd [] (drop 1 late)) w s2 Hwf2 Hw)
      as (s3 & t3 & es3 & Hend & Hwf3 & Hch3 & Hr3 & Ht3).
    assert (Hfst : fst (_listen L socket_reclose [WsClose code reason] late s) = s3).
    { unfold _listen. unfold bind at 1. cbn [listen_loop].
      unfold bind at 1. unfold socket_yield, modify. fold s0.
      unfold bind at 1. cbn [_handle_called]. fold e.
      unfold bind at 1. unfold settled. rewrite Hrun.
      assert (Hgo : ∀ r : option Err,
        on_conn_close L e = r →
        (let (s', r0) :=
           (paused <- progress L socket_reclose (hd [] late) ([] ++ rejected r) ;;
            listen_loop L socket_reclose [] (tl late) paused) s1 in
         match r0 with
         | Ok a =>
             (r1 <- settled (emit_close L (CloseError ConnectionClose None)) ;;
              paused <- progress L socket_reclose
                          (hd [] (drop (length [WsClose code reason]) late)) a ;;
              run_out L socket_reclose 3 paused ;; listeners r1) s'
         | Throw e0 => (s', Throw e0)
         | Diverge => (s', Diverge)
         end).1 = s3).
      { intros r Hr'. unfold bind at 1. cbn [app]. rewrite <- Hr', Hrep.
        cbn [listen_loop ret length]. by rewrite Hend. }
      destruct (on_conn_close L e) eqn:He; by apply Hgo. }
    rewrite Hfst. split_and!; [done| |intros; apply Hsend; by rewrite Hr3, Hr2, Hr].
    intros c Hc. exists e.
    rewrite (added_app s s3 ((t ++ [ConnEmitClose e]) ++ (ConsoleError <$> es) ++ t3 ++
               ConnEmitClose (CloseError ConnectionClose None) :: (ConsoleError <$> es3))).
    2:{ rewrite Ht3, Ht2, Ht. cbn. by rewrite <- !app_assoc. }
    apply precedes_app_l, precedes_app_mid. by apply Hin.
  - set (s0 := set_ready CLOSING (add_trace (SocketClose 1000 reason) s)).
    assert (Hwf0 : wf s0) by (eapply wf_same; [..|exact Hwf]; done).
    destruct (socket_onclose_spec echoed s0 Hwf0) as (s' & t & Hrun & Hch & Hr & Ht & Hin).
    assert (Hfst : (WSClientConn_close reason ;; socket_onclose L echoed) s = (s', Ok tt)).
    { unfold WSClientConn_close, client_socket_close, WSClientConn_closed, bind at 1 2 3 4.
      unfold gets, log, modify, ret. cbn.
      rewrite bool_decide_eq_false_2 by (by rewrite Hopen).
      rewrite decide_False by (by rewrite Hopen). exact Hrun. }
    rewrite Hfst. cbn [fst]. split_and!; [done| |by intros; apply Hsend].
    intros c Hc. eexists.
    rewrite (added_app s s' (SocketClose 1000 reason :: t)).
    2:{ rewrite Ht. cbn. by rewrite <- app_assoc. }
    apply precedes_cons. by apply Hin.
  - destruct (socket_onclose_spec reason s Hwf) as (s' & t & Hrun & Hch & Hr & Ht & Hin).
    rewrite Hrun. cbn [fst]. split_and!; [done| |by intros; apply Hsend].
    intros c Hc. eexists. rewrite (added_app _ _ _ Ht). by apply Hin.
Qed.

(** ** Opening a channel *)

(** What [open] does, on both transports. *)
Lemma open_spec f path data (s : Conn) :
  match open generate fuel (impl := impl_ f) path data s with
  | (s', Ok c) =>
      ready s = OPEN ∧ channels s !! uuid c = None ∧ oid c = next_oid s ∧
      channels s' = <[uuid c := c]> (channels s) ∧
      hooks s' = {[oid c]} ∪ hooks s ∧
      next_oid s' = S (next_oid s) ∧ ready s' = ready s ∧
      trace s' = trace s ++ [SocketSend (WSOpenMessage (uuid c) path data);
                             ChannelsSet (uuid c) c; OnceClose c]
  | (s', _) =>
      channels s' = channels s ∧ hooks s' = hooks s ∧
      ready s' = ready s ∧ trace s' = trace s
  end.
Proof.
  unfold open, genUUID. unfold bind at 1.
  pose proof (genUUID_loop_spec fuel s) as Hgen.
  destruct (genUUID_loop generate fuel s) as [s0 [u|e|]];
    destruct Hgen as (Hch & Hh & Hn & Hr & Ht & Hres); [|done|done].
  destruct Hres as [Hu _].
  assert (Hsend : send (WSConnImpl := impl_ f) = socket_send) by (by destruct f).
  unfold bind, new_WSChannel. rewrite Hsend. unfold socket_send, bind, gets.
  cbn. destruct (decide (ready s0 = OPEN)) as [Ho|Ho]; cbn.
  - rewrite Hch, Hh, Hn, Ht, <- Hr. split_and!; try done.
    by rewrite <- !app_assoc.
  - by rewrite Hch, Hh, Hr, Ht.
Qed.

Lemma open_wf f path data (s s' : Conn) c :
  open generate fuel (impl := impl_ f) path data s = (s', Ok c) →
  wf s → wf s'.
Proof.
  intros Hrun Hwf. pose proof (open_spec f path data s) as H.
  rewrite Hrun in H. destruct H as (Ho & Hu & Hoid & Hch & Hh & Hn & Hr & Ht).
  pose proof (wf_register s (uuid c) Hwf Hu) as Hreg.
  destruct c as [u o]. cbn in *. subst o.
  eapply wf_same; [..|exact Hreg]; done.
Qed.

(** C1, as amended: [open] hands the open frame to the socket first; when
    the socket takes it, the new channel is registered under its
    identifier and the listener that removes it on close is attached, in
    this order, before [open] returns the channel; when the socket refuses
    it, nothing is registered. *)
Theorem open_sends_then_registers f path data (s : Conn) :
  match open generate fuel (impl := impl_ f) path data s with
  | (s', Ok c) =>
      added s s' = [SocketSend (WSOpenMessage (uuid c) path data);
                    ChannelsSet (uuid c) c; OnceClose c] ∧
      channels s !! uuid c = None ∧
      channels s' !! uuid c = Some c ∧ oid c ∈ hooks s'
  | (s', _) =>
      channels s' = channels s ∧ hooks s' = hooks s ∧ added s s' = []
  end.
Proof.
  pose proof (open_spec f path data s) as H.
  destruct (open generate fuel path data s) as [s' [c|e|]].
  - destruct H as (Ho & Hu & Hoid & Hch & Hh & Hn & Hr & Ht).
    split_and!; [by apply added_app|done| |].
    + rewrite Hch. apply lookup_insert_eq.
    + rewrite Hh. apply elem_of_union_l. by apply elem_of_singleton.
  - destruct H as (Hch & Hh & Hr & Ht). split_and!; try done.
    apply added_app. by rewrite app_nil_r.
  - destruct H as (Hch & Hh & Hr & Ht). split_and!; try done.
    apply added_app. by rewrite app_nil_r.
Qed.

Lemma open_split impl path data (s : Conn) :
  open generate fuel (impl := impl) path data s =
    (c <- open_until_sent generate fuel (impl := impl) path data ;;
     open_resumed c) s.
Proof.
  unfold open, open_until_sent, open_resumed, bind, new_WSChannel, ret.
  destruct (genUUID generate fuel s) as [s0 [u|e|]]; [|done..].
  by destruct (send (WSOpenMessage u path data) _) as [s1 [[]|e|]].
Qed.

(** A frame for the new channel that is handled while [open] is still
    awaiting its [send] finds no channel: it is the "Invalid UUID" of a
    frame for an unknown identifier. *)
Lemma reply_while_sending f path data (s s1 : Conn) c msg :
  open_until_sent generate fuel (impl := impl_ f) path data s = (s1, Ok c) →
  is_open_msg msg = false → msg_uuid msg = uuid c →
  deliver L (impl := impl_ f) msg s1 =
    (add_trace (ConsoleError (JsError "Invalid UUID")) s1, Ok tt).
Proof.
  intros Hrun Hmsg Hu. apply deliver_unregistered; [done|]. rewrite Hu.
  unfold open_until_sent, genUUID in Hrun. unfold bind at 1 in Hrun.
  pose proof (genUUID_loop_spec fuel s) as Hgen.
  destruct (genUUID_loop generate fuel s) as [s0 [u|e|]];
    destruct Hgen as (Hch & Hh & Hn & Hr & Ht & Hres); [|done|done].
  destruct Hres as [Hfresh _].
  assert (Hsend : send (WSConnImpl := impl_ f) = socket_send) by (by destruct f).
  unfold bind, new_WSChannel in Hrun. rewrite Hsend in Hrun.
  unfold socket_send, bind, gets, log, modify, throw, ret in Hrun.
  cbn in Hrun. case_decide; [|done].
  injection Hrun as <- <-. cbn. by rewrite Hch.
Qed.

(** ** Reachable connections are well-formed *)

(** Well-formedness is kept by the delivery of any frame, whatever the
    listeners do. *)
Lemma deliver_wf f (s : Conn) msg :
  wf s → wf (fst (deliver L (impl := impl_ f) msg s)).
Proof.
  intros Hwf.
  assert (Hsend : send (WSConnImpl := impl_ f) = socket_send) by (by destruct f).
  destruct msg as [u path data|u data|u data|u reason].
  - unfold deliver, onwsmessage, onwsopen, try_catch at 1, channels_has,
      bind at 1, gets, throw, log, modify. cbn.
    case_bool_decide as Hin; cbn; [by apply wf_add_trace|].
    assert (Hnone : channels s !! u = None) by (by apply eq_None_not_Some).
    pose proof (wf_register s u Hwf Hnone) as Hreg.
    set (c := mkChannel u (next_oid s)) in *.
    pose proof (wf_unregister _ c Hreg) as Hunreg.
    cbn in Hunreg. rewrite lookup_insert_eq in Hunreg. specialize (Hunreg eq_refl).
    unfold new_WSChannel, channels_set, once_close_delete, paths_emit,
      try_catch, bind, log, modify, listeners. cbn. fold c.
    destruct (on_path L path c data) as [e|]; cbn.
    2:{ eapply wf_same; [..|exact Hreg]; done. }
    unfold channel_catch, channel_is_open, channel_emit_close, channels_delete,
      bind, log, modify, gets, listeners. rewrite Hsend.
    unfold socket_send, bind, gets, log, modify, throw. cbn.
    fold c. rewrite lookup_insert_eq, bool_decide_eq_true_2 by done.
    case_decide as Ho; cbn.
    + rewrite bool_decide_eq_true_2
        by (apply elem_of_union_l; by apply elem_of_singleton).
      cbn. destruct (on_close L _ _); cbn;
        (eapply wf_same; [..|exact Hunreg]; done).
    + eapply wf_same; [..|exact Hreg]; done.
  - unfold deliver, onwsmessage, try_catch at 1, channels_get, bind at 1, gets.
    cbn.
    destruct (channels s !! u) as [c|] eqn:Hc; cbn; [|by apply wf_add_trace].
    assert (Hk : uuid c = u) by (by eapply wf_keyed).
    pose proof (wf_unregister s c Hwf) as Hunreg.
    rewrite Hk in Hunreg. specialize (Hunreg Hc).
    unfold channel_emit_message, try_catch, bind, log, modify, listeners. cbn.
    destruct (on_message L c data) as [e|]; cbn; [|by apply wf_add_trace].
    unfold channel_catch, channel_is_open, channel_emit_close, channels_delete,
      bind, log, modify, gets, listeners. rewrite Hsend.
    unfold socket_send, bind, gets, log, modify, throw. cbn.
    rewrite Hk, Hc, bool_decide_eq_true_2 by done.
    case_decide as Ho; cbn.
    + rewrite bool_decide_eq_true_2 by (by eapply wf_hooked).
      cbn. destruct (on_close L _ _); cbn;
        (eapply wf_same; [..|exact Hunreg]; done).
    + eapply wf_same; [..|exact Hwf]; done.
  - destruct (channels s !! u) as [c|] eqn:Hc.
    + destruct (deliver_terminal_registered f s u c (WSCloseMessage u data) _ Hwf Hc eq_refl eq_refl)
        as (s' & t & -> & Hwf' & _). done.
    + rewrite deliver_unregistered by done. by apply wf_add_trace.
  - destruct (channels s !! u) as [c|] eqn:Hc.
    + destruct (deliver_terminal_registered f s u c (WSErrorMessage u reason) _ Hwf Hc eq_refl eq_refl)
        as (s' & t & -> & Hwf' & _). done.
    + rewrite deliver_unregistered by done. by apply wf_add_trace.
Qed.

Lemma open_many_wf f reqs : ∀ (s s' : Conn) cs,
  open_many generate fuel (impl := impl_ f) reqs s = (s', Ok cs) →
  wf s → wf s'.
Proof.
  induction reqs as [|[path data] reqs IH]; intros s s' cs Hrun Hwf.
  - by injection Hrun as <- <-.
  - cbn [open_many] in Hrun. unfold bind at 1 in Hrun.
    destruct (open generate fuel path data s) as [s1 [c| |]] eqn:Hopen; [|done..].
    unfold bind, ret in Hrun.
    destruct (open_many generate fuel reqs s1) as [s2 [cs'| |]] eqn:Hmany; [|done..].
    injection Hrun as <- <-.
    eapply IH; [exact Hmany|]. by eapply open_wf.
Qed.

(** After [open] has returned a channel, a send on it goes out. *)
Lemma open_then_send f path data (s s' : Conn) c d :
  open generate fuel (impl := impl_ f) path data s = (s', Ok c) →
  channel_send (impl := impl_ f) c d s' =
    (add_trace (SocketSend (WSDataMessage (uuid c) d)) s', Ok tt).
Proof.
  intros Hopen. pose proof (open_spec f path data s) as H.
  rewrite Hopen in H. destruct H as (Ho & _ & _ & _ & _ & _ & Hr & _).
  assert (Hsend : send (WSConnImpl := impl_ f) = socket_send) by (by destruct f).
  unfold channel_send. rewrite Hsend. unfold socket_send, bind, gets, log, modify.
  cbn. rewrite decide_True; [done|congruence].
Qed.

(** ** Allocating identifiers *)

Lemma genUUID_loop_returns n : ∀ (s : Conn) (D : gset UUID),
  Inj (=) (=) generate →
  (∀ i, (draws s ≤ i)%nat → is_Some (channels s !! generate i) →
        generate i ∈ D) →
  (size D < n)%nat →
  ∃ s' u, genUUID_loop generate n s = (s', Ok u).
Proof.
  induction n as [|n IH]; intros s D Hinj HD Hsize; [lia|].
  cbn. unfold bind, UUIDs_generate, channels_has, gets. cbn.
  case_bool_decide as Hin; [|by eexists _, _].
  apply (IH _ (D ∖ {[generate (draws s)]})); [done| |].
  - cbn. intros i Hi Hsome. apply elem_of_difference. split.
    + apply HD; [lia|done].
    + intros Heq%elem_of_singleton. apply Hinj in Heq. lia.
  - assert (Hd : generate (draws s) ∈ D) by (by apply HD).
    rewrite size_difference by (by apply singleton_subseteq_l).
    rewrite size_singleton.
    assert (size D ≠ 0)%nat; [|lia].
    intros Hz%size_empty_inv. rewrite Hz in Hd. by apply not_elem_of_empty in Hd.
Qed.

(** With a generator that never repeats itself, and a loop followed for
    more iterations than the table has entries, [genUUID] returns. *)
Lemma genUUID_returns (s : Conn) :
  Inj (=) (=) generate → (size (channels s) < fuel)%nat →
  ∃ s' u, genUUID generate fuel s = (s', Ok u).
Proof.
  intros Hinj Hsize. apply (genUUID_loop_returns fuel s (dom (channels s))).
  - done.
  - intros i _ Hsome. by apply elem_of_dom.
  - by rewrite size_dom.
Qed.



(** ** Dispatch of inbound frames *)

(** C6: a frame that is not an [open] and names an identifier that is not
    in the table makes [onwsmessage] throw "Invalid UUID" before anything
    else happens (the state, its trace included, is the one it started
    from), and the error reaches the console. *)
Theorem unknown_uuid_is_reported impl (s : Conn) msg :
  is_open_msg msg = false → channels s !! msg_uuid msg = None →
  onwsmessage L (impl := impl) msg s = (s, Throw (JsError "Invalid UUID")) ∧
  deliver L (impl := impl) msg s =
    (add_trace (ConsoleError (JsError "Invalid UUID")) s, Ok tt).
Proof.
  intros Hopen Hnone. split; [|by apply deliver_unregistered].
  destruct msg; try discriminate; unfold_m; cbn in *; by rewrite Hnone.
Qed.

(** C10: an [open] frame for an identifier that is in the table makes
    [onwsmessage] throw "UUID already exists" before anything else
    happens: the table is the one it started from and no listener ran. *)
Theorem open_frame_for_registered_uuid impl (s : Conn) u path data :
  is_Some (channels s !! u) →
  onwsmessage L (impl := impl) (WSOpenMessage u path data) s =
    (s, Throw (JsError "UUID already exists")).
Proof.
  intros Hsome. unfold_m. cbn. by rewrite bool_decide_eq_true_2.
Qed.

Lemma waitpath_timer path delay :
  timer (waitpath path delay) =
    if decide (default 0 delay > 0) then Some 1000 else None.
Proof. unfold waitpath. by case_decide. Qed.








(** ** Closing twice *)

Lemma close_each_runs e cs : ∀ s : Conn,
  ∃ s' t, close_each L cs e s = (s', Ok tt) ∧ trace s' = trace s ++ t ∧
          ready s' = ready s.
Proof.
  induction cs as [|c cs IH]; intros s.
  - exists s, []. by rewrite app_nil_r.
  - cbn [close_each]. unfold bind at 1. unfold try_catch.
    destruct (channel_emit_close L c (CloseErr e) s) as [s1 r] eqn:Hrun.
    assert (H1 : ∃ t1, trace s1 = trace s ++ t1 ∧ ready s1 = ready s ∧ r ≠ Diverge).
    { unfold channel_emit_close, channels_delete, bind, log, modify, gets,
        listeners, ret, throw in Hrun. cbn in Hrun.
      case_bool_decide; cbn in Hrun; destruct (on_close L c _);
        injection Hrun as <- <-; cbn; rewrite <- ?app_assoc; by eexists. }
    destruct H1 as (t1 & Ht1 & Hr1 & Hnd).
    destruct r as [[]|e'|]; [| |done].
    + destruct (IH s1) as (s' & t & -> & Ht & Hr).
      exists s', (t1 ++ t). split_and!; [done| |congruence].
      by rewrite Ht, Ht1, <- app_assoc.
    + unfold log, modify.
      destruct (IH (add_trace (ConsoleError e') s1)) as (s' & t & -> & Ht & Hr).
      exists s', (t1 ++ ConsoleError e' :: t). split_and!; [done| |by rewrite Hr].
      rewrite Ht. cbn. rewrite Ht1, <- !app_assoc. done.
Qed.

Lemma emit_close_runs e (s : Conn) :
  ∃ t, trace (fst (emit_close L e s)) = trace s ++ t ++ [ConnEmitClose e] ∧
       ready (fst (emit_close L e s)) = ready s.
Proof.
  destruct (close_each_runs e (registered s) s)
    as (s' & t & Hrun & Ht & Hr).
  assert (Hfst : fst (emit_close L e s) = add_trace (ConnEmitClose e) s').
  { unfold emit_close, force_close_channels, bind, gets. rewrite Hrun.
    unfold log, modify, listeners. by destruct (on_conn_close L e). }
  rewrite Hfst. exists t. cbn. by rewrite Ht, Hr, <- app_assoc.
Qed.

(** [close] on a server connection that is closed already calls
    [socket.close] again and, when that returns, emits the connection's
    [close] event again. *)
Lemma server_close_again reason (s : Conn) :
  ready s = CLOSED →
  match socket_reclose with
  | None =>
      ∃ t, trace (fst (WSServerConn_close L socket_reclose reason s)) =
             trace s ++ SocketClose 1000 (Some (default "" reason)) :: t ++
               [ConnEmitClose (CloseError ConnectionClose reason)]
  | Some e =>
      WSServerConn_close L socket_reclose reason s =
        (add_trace (SocketClose 1000 (Some (default "" reason))) s, Throw e)
  end.
Proof.
  intros Hclosed.
  assert (Hrun : WSServerConn_close L socket_reclose reason s =
    match socket_reclose with
    | None => emit_close L (CloseError ConnectionClose reason)
                (add_trace (SocketClose 1000 (Some (default "" reason))) s)
    | Some e =>
        (add_trace (SocketClose 1000 (Some (default "" reason))) s, Throw e)
    end).
  { unfold WSServerConn_close, server_socket_close, bind, log, modify, gets,
      listeners.
    cbn -[emit_close]. rewrite decide_True by done. by destruct socket_reclose. }
  rewrite Hrun. destruct socket_reclose as [e|]; [done|].
  destruct (emit_close_runs (CloseError ConnectionClose reason)
              (add_trace (SocketClose 1000 (Some (default "" reason))) s))
    as (t & Ht & _).
  exists t. rewrite Ht. cbn. by rewrite <- app_assoc.
Qed.

(** [close] on a client connection that is closed already does nothing. *)
Lemma client_close_closed reason (s : Conn) :
  ready s = CLOSED → WSClientConn_close reason s = (s, Ok tt).
Proof.
  intros Hclosed. unfold WSClientConn_close, WSClientConn_closed, bind, gets.
  cbn. by rewrite bool_decide_eq_true_2.
Qed.

(** ** From one end to the other *)

Lemma sent_app (t1 t2 : list Effect) : sent (t1 ++ t2) = sent t1 ++ sent t2.
Proof. induction t1 as [|[] t1 IH]; cbn; by rewrite ?IH. Qed.

(** X3: the frame that [open] hands to its socket, dispatched by a
    connection that does not know the identifier, makes a channel of the
    same identifier there, registers it, and calls the listeners of the
    path once, with that channel and the data given to [open]. *)
Theorem open_reaches_peer_handler f path data (a a' : Conn) c
    (LB : Listeners) (implB : WSConnImpl) (b : Conn) :
  open generate fuel (impl := impl_ f) path data a = (a', Ok c) →
  channels b !! uuid c = None →
  let c' := mkChannel (uuid c) (next_oid b) in
  on_path LB path c' data = None →
  ∃ frame b',
    sent (added a a') = [frame] ∧
    onwsmessage LB (impl := implB) frame b = (b', Ok tt) ∧
    added b b' = [ChannelsSet (uuid c) c'; OnceClose c'; PathEmit path c' data] ∧
    channels b' = <[uuid c := c']> (channels b) ∧
    hooks b' = {[oid c']} ∪ hooks b.
Proof.
  intros Hopen Hnone c' Hpath.
  pose proof (open_spec f path data a) as H. rewrite Hopen in H.
  destruct H as (_ & _ & _ & _ & _ & _ & _ & Ht).
  exists (WSOpenMessage (uuid c) path data). eexists. split.
  { by rewrite (added_app _ _ _ Ht). }
  unfold onwsmessage, onwsopen, channels_has, bind at 1, gets. cbn.
  rewrite bool_decide_eq_false_2 by (rewrite Hnone; by intros [? ?]).
  unfold new_WSChannel, channels_set, once_close_delete, paths_emit,
    try_catch, bind, log, modify, listeners. cbn. fold c'. rewrite Hpath.
  split; [done|]. split_and!; try done.
  apply added_app. cbn. by rewrite <- !app_assoc.
Qed.

(** ** Data frames *)

(** X4: data frames for a registered channel reach the message listeners
    of that channel, one call for each frame, in the order of arrival, and
    change nothing else: the table, the removal listeners and the socket
    are as they were. *)
Theorem data_frames_in_order impl (s : Conn) u c datas :
  channels s !! u = Some c →
  Forall (λ d, on_message L c d = None) datas →
  let s' := deliveries L (impl := impl) (WSDataMessage u <$> datas) s in
  added s s' = ChanEmitMessage c <$> datas ∧
  channels s' = channels s ∧ hooks s' = hooks s ∧ ready s' = ready s ∧
  sent (added s s') = [].
Proof.
  intros Hc Hall. cbn zeta.
  assert (Hgen : ∀ s0 : Conn, channels s0 = channels s →
    let s' := deliveries L (impl := impl) (WSDataMessage u <$> datas) s0 in
    trace s' = trace s0 ++ (ChanEmitMessage c <$> datas) ∧
    channels s' = channels s0 ∧ hooks s' = hooks s0 ∧ ready s' = ready s0).
  { induction datas as [|d datas IH]; intros s0 Hs0.
    - cbn. by rewrite app_nil_r.
    - apply Forall_cons in Hall as [Hd Hall]. cbn [fmap list_fmap deliveries].
      assert (Hstep : deliver L (impl := impl) (WSDataMessage u d) s0 =
                (add_trace (ChanEmitMessage c d) s0, Ok tt)).
      { unfold deliver, onwsmessage, channels_get, channel_emit_message,
          try_catch, bind, gets, log, modify, listeners. cbn.
        rewrite Hs0, Hc. cbn. by rewrite Hd. }
      rewrite Hstep. cbn [fst].
      destruct (IH Hall (add_trace (ChanEmitMessage c d) s0) Hs0)
        as (Ht & Hch & Hh & Hr).
      split_and!; try done. rewrite Ht. cbn. by rewrite <- app_assoc. }
  destruct (Hgen s eq_refl) as (Ht & Hch & Hh & Hr).
  rewrite (added_app _ _ _ Ht). split_and!; try done.
  clear. induction datas as [|d datas IH]; [done|]. by cbn.
Qed.

(** ** Opening on an open, and on a closed, socket *)

Lemma open_returns f path data (s : Conn) :
  Inj (=) (=) generate → (size (channels s) < fuel)%nat → ready s = OPEN →
  ∃ s' c, open generate fuel (impl := impl_ f) path data s = (s', Ok c).
Proof.
  intros Hinj Hsize Hopen.
  destruct (genUUID_returns s Hinj Hsize) as (s0 & u & Hgen).
  pose proof (genUUID_loop_spec fuel s) as Hspec.
  unfold genUUID in Hgen. rewrite Hgen in Hspec.
  destruct Hspec as (_ & _ & _ & Hr & _).
  assert (Hsend : send (WSConnImpl := impl_ f) = socket_send) by (by destruct f).
  unfold open, genUUID, bind at 1. rewrite Hgen.
  unfold bind, new_WSChannel. rewrite Hsend.
  unfold socket_send, bind, gets, log, modify. cbn.
  rewrite decide_True by congruence. cbn. by eexists _, _.
Qed.

(** X5: on an open socket, with a generator that does not repeat itself
    and a loop followed for as many iterations as there will be channels,
    every one of a series of calls of [open] returns a channel, and the
    table grows by one entry for each. *)
Theorem open_many_returns f reqs : ∀ s : Conn,
  Inj (=) (=) generate → ready s = OPEN →
  (size (channels s) + length reqs ≤ fuel)%nat →
  ∃ s' cs,
    open_many generate fuel (impl := impl_ f) reqs s = (s', Ok cs) ∧
    length cs = length reqs ∧
    size (channels s') = (size (channels s) + length reqs)%nat ∧
    sent (added s s') =
      zip_with (λ c req, WSOpenMessage (uuid c) req.1 req.2) cs reqs.
Proof.
  induction reqs as [|[path data] reqs IH]; intros s Hinj Hopen Hsize.
  - exists s, []. cbn. split_and!; [done|done|lia|].
    unfold added. by rewrite drop_all.
  - cbn [length] in Hsize.
    destruct (open_returns f path data s Hinj) as (s1 & c & Hrun); [lia|done|].
    pose proof (open_spec f path data s) as Hspec. rewrite Hrun in Hspec.
    destruct Hspec as (_ & Hu & _ & Hch & _ & _ & Hr & Ht).
    assert (Hsize1 : size (channels s1) = S (size (channels s))).
    { rewrite Hch. by apply map_size_insert_None. }
    destruct (IH s1 Hinj) as (s' & cs & Hmany & Hlen & Hsz & Hsent);
      [congruence|lia|].
    exists s', (c :: cs). cbn [open_many]. unfold bind at 1. rewrite Hrun.
    unfold bind, ret. rewrite Hmany. split_and!; [done|cbn; lia|cbn; lia|].
    assert (Hadd : added s s' = added s s1 ++ added s1 s').
    { unfold added. rewrite Ht at 2. rewrite Ht.
      assert (∃ t, trace s' = trace s1 ++ t) as [t Ht'].
      { clear -Hmany. revert s1 s' cs Hmany.
        induction reqs as [|[p d] reqs IH]; intros s1 s' cs Hmany.
        - injection Hmany as <- _. exists []. by rewrite app_nil_r.
        - cbn [open_many] in Hmany. unfold bind at 1 in Hmany.
          pose proof (open_spec f p d s1) as Hspec.
          destruct (open generate fuel p d s1) as [s2 [c| |]]; [|done..].
          destruct Hspec as (_ & _ & _ & _ & _ & _ & _ & Ht).
          unfold bind, ret in Hmany.
          destruct (open_many generate fuel reqs s2) as [s3 [cs'| |]] eqn:Hm; [|done..].
          injection Hmany as <- _.
          destruct (IH _ _ _ Hm) as [t Ht'].
          eexists. rewrite Ht', Ht, <- app_assoc. done. }
      rewrite Ht', Ht. rewrite <- !app_assoc.
      rewrite !drop_app_length.
      rewrite (app_assoc (trace s)), drop_app_length'; [done|].
      rewrite length_app. done. }
    rewrite Hadd, sent_app, Hsent, (added_app _ _ _ Ht). done.
Qed.

(** X6: on a socket that is not open [open] registers nothing and
    returns no channel, and [request] fails with the error of the socket
    before it waits for anything: no frame is sent, none of the frames
    that arrive meanwhile is dispatched. *)
Theorem request_on_closed_socket f path data delay inbound (s : Conn) :
  Inj (=) (=) generate → (size (channels s) < fuel)%nat → ready s ≠ OPEN →
  ∃ s',
    request L generate fuel (impl := impl_ f) path data delay inbound s =
      (s', Throw (JsError "socket is not open")) ∧
    open generate fuel (impl := impl_ f) path data s =
      (s', Throw (JsError "socket is not open")) ∧
    channels s' = channels s ∧ hooks s' = hooks s ∧ trace s' = trace s.
Proof.
  intros Hinj Hsize Hclosed.
  destruct (genUUID_returns s Hinj Hsize) as (s0 & u & Hgen).
  pose proof (genUUID_loop_spec fuel s) as Hspec.
  unfold genUUID in Hgen. rewrite Hgen in Hspec.
  destruct Hspec as (Hch & Hh & _ & Hr & Ht & _).
  assert (Hsend : send (WSConnImpl := impl_ f) = socket_send) by (by destruct f).
  assert (Hopen : open generate fuel (impl := impl_ f) path data s =
    (set_next_oid (S (next_oid s0)) s0, Throw (JsError "socket is not open"))).
  { unfold open, genUUID, bind at 1. rewrite Hgen.
    unfold bind, new_WSChannel. rewrite Hsend.
    unfold socket_send, bind, gets, throw. cbn.
    rewrite decide_False by congruence. done. }
  eexists. split; [|split; [exact Hopen|done]].
  unfold request, bind. by rewrite Hopen.
Qed.

(** ** An identifier used again *)

(** X7: once a close or error frame has closed a channel, an [open] frame
    with the same identifier is taken: it registers a new channel object
    under the identifier and calls the listeners of its path; and the
    [close] event of the old object no longer removes the identifier. *)
Theorem reopen_after_close impl (s : Conn) u c msg arg path data old_arg :
  wf s → channels s !! u = Some c →
  terminal_arg msg = Some arg → msg_uuid msg = u →
  on_close L c arg = None →
  let c' := mkChannel u (next_oid s) in
  on_path L path c' data = None →
  let s' := deliveries L (impl := impl) [msg; WSOpenMessage u path data] s in
  added s s' = [ChanEmitClose c arg; ChannelsDelete u;
                ChannelsSet u c'; OnceClose c'; PathEmit path c' data] ∧
  channels s' !! u = Some c' ∧ c' ≠ c ∧ wf s' ∧
  channels (fst (channel_emit_close L c old_arg s')) = channels s'.
Proof.
  intros Hwf Hc Harg Hu Hclose c' Hpath.
  assert (Hk : uuid c = u) by (by eapply wf_keyed).
  assert (Hfresh : (oid c < next_oid s)%nat) by (by eapply wf_fresh).
  set (s1 := set_channels (delete (uuid c))
       (add_trace (ChannelsDelete (uuid c))
          (set_hooks (λ h, h ∖ {[oid c]})
             (add_trace (ChanEmitClose c arg) s)))).
  assert (Hwf1 : wf s1).
  { eapply (wf_same (set_channels (delete (uuid c)) (set_hooks (λ h, h ∖ {[oid c]}) s)));
      [done..|]. apply wf_unregister; [done|by rewrite Hk]. }
  assert (Hstep1 : deliver L (impl := impl) msg s = (s1, Ok tt)).
  { destruct msg; try discriminate; cbn in Harg, Hu; injection Harg as <-;
      unfold deliver, onwsmessage, channels_get, bind, gets, try_catch;
      cbn [msg_uuid];
      rewrite Hu, Hc, channel_emit_close_spec by (by rewrite ?Hk); fold s1;
      by rewrite Hclose. }
  assert (Hnone1 : channels s1 !! u = None).
  { cbn. rewrite Hk. apply lookup_delete_eq. }
  set (s2 := set_hooks (λ h, {[next_oid s1]} ∪ h)
        (set_channels (insert u (mkChannel u (next_oid s1)))
           (set_next_oid (S (next_oid s1)) s1))).
  pose proof (wf_register s1 u Hwf1 Hnone1) as Hwf2. fold s2 in Hwf2.
  assert (Hstep2 : ∃ s', deliver L (impl := impl) (WSOpenMessage u path data) s1 = (s', Ok tt) ∧
            trace s' = trace s1 ++ [ChannelsSet u c'; OnceClose c'; PathEmit path c' data] ∧
            channels s' = channels s2 ∧ hooks s' = hooks s2 ∧ next_oid s' = next_oid s2).
  { unfold deliver, onwsmessage, onwsopen, channels_has, try_catch at 1,
      bind at 1, gets. cbn -[s1].
    rewrite bool_decide_eq_false_2 by (rewrite Hnone1; by intros [? ?]).
    unfold new_WSChannel, channels_set, once_close_delete, paths_emit,
      try_catch, bind, log, modify, listeners. cbn. fold c'. rewrite Hpath.
    eexists. split; [done|]. cbn. split_and!; [by rewrite <- !app_assoc|done..]. }
  destruct Hstep2 as (s' & Hstep2 & Ht' & Hch' & Hh' & Hn').
  cbn [deliveries]. rewrite Hstep1. cbn [fst]. rewrite Hstep2. cbn [fst].
  assert (Hne : c' ≠ c).
  { intros Heq. rewrite <- Heq in Hfresh. cbn in Hfresh. lia. }
  split_and!.
  - apply added_app. rewrite Ht'. cbn. rewrite <- !app_assoc. cbn. by rewrite Hk.
  - rewrite Hch'. cbn. apply lookup_insert_eq.
  - done.
  - eapply wf_same; [..|exact Hwf2]; done.
  - rewrite channel_emit_close_absent; [done|].
    rewrite Hh'. cbn. intros [Hin|Hin]%elem_of_union.
    + apply elem_of_singleton in Hin. lia.
    + apply elem_of_difference in Hin as [_ Hin]. apply Hin. by apply elem_of_singleton.
Qed.

(** ** Reachable connections *)

Lemma open_next_oid f path data (s : Conn) :
  (next_oid s ≤ next_oid (fst (open generate fuel (impl := impl_ f) path data s)))%nat.
Proof.
  unfold open, genUUID, bind at 1.
  pose proof (genUUID_loop_spec fuel s) as Hgen.
  destruct (genUUID_loop generate fuel s) as [s0 [u|e0|]];
    destruct Hgen as (_ & _ & Hn & _ & _ & Hres); [|done|cbn; lia].
  assert (Hsend : send (WSConnImpl := impl_ f) = socket_send) by (by destruct f).
  unfold bind, new_WSChannel. rewrite Hsend.
  unfold socket_send, bind, gets, log, modify, throw. cbn.
  case_decide; cbn; lia.
Qed.

Lemma open_wf_any f path data (s : Conn) :
  wf s → wf (fst (open generate fuel (impl := impl_ f) path data s)).
Proof.
  intros Hwf. pose proof (open_next_oid f path data s) as Hn.
  pose proof (open_spec f path data s) as H.
  destruct (open generate fuel path data s) as [s' [c|e|]] eqn:Hrun; cbn in *.
  - by eapply open_wf.
  - destruct H as (Hch & Hh & _ & _).
    destruct Hwf as [H1 H2 H3 H4]. split; rewrite ?Hch, ?Hh; eauto.
    intros u c Hc. specialize (H3 u c Hc). lia.
  - destruct H as (Hch & Hh & _ & _).
    destruct Hwf as [H1 H2 H3 H4]. split; rewrite ?Hch, ?Hh; eauto.
    intros u c Hc. specialize (H3 u c Hc). lia.
Qed.

(** X8: whatever channels the application opens and whatever frames
    arrive, in whatever order and whatever the listeners do, every channel
    of the table is registered under its own identifier, has its removal
    listener attached, and is an object of its own. *)
Theorem reachable_wf f r acts :
  wf (run L generate fuel (impl := impl_ f) acts (new_conn r)).
Proof.
  assert (H : ∀ s : Conn, wf s → wf (run L generate fuel (impl := impl_ f) acts s)).
  { induction acts as [|a acts IH]; intros s Hwf; [done|].
    cbn [run]. apply IH. destruct a as [path data|msg]; cbn [act].
    - by apply open_wf_any.
    - by apply deliver_wf. }
  apply H, wf_new_conn.
Qed.
(** ** The dispatcher and the socket of a server *)

(** [close] on a server connection that is not closed: one call of
    [socket.close], one [close] event, the channels closed in between. *)
Lemma server_close_effects reason (s : Conn) :
  ready s ≠ CLOSED →
  ∃ s' t,
    WSServerConn_close L socket_reclose reason s =
      (s', match on_conn_close L (CloseError ConnectionClose reason) with
           | None => Ok tt | Some e' => Throw e' end) ∧
    ready s' = CLOSED ∧
    trace s' = trace s ++ SocketClose 1000 (Some (default "" reason)) :: t ++
                 [ConnEmitClose (CloseError ConnectionClose reason)] ∧
    Forall channel_effect t.
Proof.
  intros Hopen.
  set (s1 := set_ready CLOSED (add_trace (SocketClose 1000 (Some (default "" reason))) s)).
  destruct (close_each_effects (CloseError ConnectionClose reason) (registered s1) s1)
    as (s2 & t & Hrun & Ht & Hall & Hr).
  exists (add_trace (ConnEmitClose (CloseError ConnectionClose reason)) s2), t.
  split.
  { unfold WSServerConn_close, server_socket_close, emit_close,
      force_close_channels, bind, log, modify, gets, listeners.
    cbn -[close_each registered]. rewrite decide_False by done.
    cbn -[close_each registered]. fold s1. rewrite Hrun.
    by destruct (on_conn_close L _). }
  cbn. rewrite Hr, Ht. cbn. by rewrite <- !app_assoc.
Qed.

Lemma channel_effect_plain x : channel_effect x → plain_effect x.
Proof. by destruct x. Qed.

Lemma plain_counts (t : list Effect) :
  Forall plain_effect t →
  count is_socket_close t = 0%nat ∧ count is_conn_emit_close t = 0%nat ∧
  count is_ping t = 0%nat ∧ count is_pong t = 0%nat.
Proof.
  intros Hall. split_and!; apply count_none;
    (eapply Forall_impl; [exact Hall|]); by intros x (? & ? & ? & ?).
Qed.

Lemma keeps_socket_plain (s s' : Conn) t :
  ready s' = ready s → Forall plain_effect t → keeps_socket s s' t.
Proof.
  intros Hr Hall. destruct (plain_counts t Hall) as (? & ? & _). by split_and!.
Qed.

(** A step that leaves the socket alone, followed by one that leaves it
    alone or closes it. *)
Lemma socket_step_after (s s1 s' : Conn) t1 t :
  ready s1 = ready s → Forall plain_effect t1 →
  keeps_socket s1 s' t ∨ closes_socket s1 s' t →
  keeps_socket s s' (t1 ++ t) ∨ closes_socket s s' (t1 ++ t).
Proof.
  intros Hr Hall Hstep. destruct (plain_counts t1 Hall) as (H1 & H2 & _).
  destruct Hstep as [(Hr' & Hc1 & Hc2)|(Hn & Hr' & Hc1 & Hc2)]; [left|right];
    unfold keeps_socket, closes_socket; rewrite !count_app, H1, H2, Hc1, Hc2;
    split_and!; solve [congruence|lia].
Qed.

Local Abbreviation server := (WSServerConn L socket_reclose).

Lemma channel_catch_effects c e (s : Conn) :
  ∃ s' r t, channel_catch L (impl := server) c e s = (s', r) ∧ r ≠ Diverge ∧
            ready s' = ready s ∧ trace s' = trace s ++ t ∧
            Forall plain_effect t.
Proof.
  unfold channel_catch, channel_is_open, bind at 1 2, log, modify, gets. cbn -[channel_emit_close].
  case_bool_decide.
  - unfold WSServerConn_send, socket_send, bind at 1 2, gets, log, modify, throw.
    cbn -[channel_emit_close]. case_decide.
    + destruct (channel_emit_close_effects c
                  (CloseErr (CloseError ChannelClose (Some (describe e))))
                  (add_trace (SocketSend (WSErrorMessage (uuid c) (describe e)))
                     (add_trace (ConsoleError e) s)))
        as (s' & t & -> & Ht & Hall & Hr).
      eexists s', _, (ConsoleError e :: SocketSend _ :: t).
      split; [done|]. split_and!.
      * by destruct (on_close L c _).
      * by rewrite Hr.
      * rewrite Ht. cbn. by rewrite <- !app_assoc.
      * constructor; [done|]. constructor; [done|].
        eapply Forall_impl; [exact Hall|]. apply channel_effect_plain.
    + eexists _, _, [ConsoleError e]. split; [done|].
      split_and!; try done. by repeat constructor.
  - eexists _, _, [ConsoleError e]. split; [done|].
    split_and!; try done. by repeat constructor.
Qed.

Lemma catch_server_effects e (s : Conn) :
  ∃ s' r t, catch (impl := server) e s = (s', r) ∧ r ≠ Diverge ∧
            trace s' = trace s ++ t ∧
            count is_ping t = 0%nat ∧ count is_pong t = 0%nat ∧
            (keeps_socket s s' t ∨ closes_socket s s' t).
Proof.
  set (s1 := add_trace (ConsoleError e) s).
  assert (Hstay : ∃ s' r t, (s1, @Ok unit tt) = (s', r) ∧ r ≠ Diverge ∧
            trace s' = trace s ++ t ∧
            count is_ping t = 0%nat ∧ count is_pong t = 0%nat ∧
            (keeps_socket s s' t ∨ closes_socket s s' t)).
  { eexists s1, _, [ConsoleError e]. split; [done|]. split_and!; try done.
    left. by split_and!. }
  assert (Hclose : ∀ reason, ready s ≠ CLOSED →
    ∃ s' r t, WSServerConn_close L socket_reclose reason s1 = (s', r) ∧
              r ≠ Diverge ∧ trace s' = trace s ++ t ∧
              count is_ping t = 0%nat ∧ count is_pong t = 0%nat ∧
              (keeps_socket s s' t ∨ closes_socket s s' t)).
  { intros reason Hopen.
    destruct (server_close_effects reason s1 Hopen) as (s' & t & -> & Hr & Ht & Hall).
    destruct (plain_counts t) as (H1 & H2 & H3 & H4).
    { eapply Forall_impl; [exact Hall|]. apply channel_effect_plain. }
    eexists s', _, (ConsoleError e :: SocketClose 1000 _ :: t ++ [ConnEmitClose _]).
    split; [done|]. split_and!.
    - by destruct (on_conn_close L _).
    - rewrite Ht. cbn. by rewrite <- !app_assoc.
    - cbn. rewrite count_app, H3. done.
    - cbn. rewrite count_app, H4. done.
    - right. unfold closes_socket. cbn. rewrite !count_app, H1, H2. cbn.
      by split_and!. }
  unfold catch, bind, log, modify, gets. cbn -[WSServerConn_close]. fold s1.
  unfold WSServerConn_closed. cbn -[WSServerConn_close].
  case_bool_decide as Hr; cbn -[WSServerConn_close].
  - destruct e; exact Hstay.
  - destruct e; [by apply Hclose|by apply Hclose|exact Hstay].
Qed.

(** What the dispatch of one frame does to the socket of a server. *)
Lemma onwsmessage_server_effects msg (s : Conn) :
  ∃ s' r t, onwsmessage L (impl := server) msg s = (s', r) ∧ r ≠ Diverge ∧
            trace s' = trace s ++ t ∧
            count is_ping t = 0%nat ∧ count is_pong t = 0%nat ∧
            (keeps_socket s s' t ∨ closes_socket s s' t).
Proof.
  assert (Hplain : ∀ s' (r : Result unit) t,
    r ≠ Diverge → ready s' = ready s → trace s' = trace s ++ t →
    Forall plain_effect t →
    ∃ s'' r' t', (s', r) = (s'', r') ∧ r' ≠ Diverge ∧
                 trace s'' = trace s ++ t' ∧
                 count is_ping t' = 0%nat ∧ count is_pong t' = 0%nat ∧
                 (keeps_socket s s'' t' ∨ closes_socket s s'' t')).
  { intros s' r t Hr Hready Ht Hall.
    destruct (plain_counts t Hall) as (_ & _ & H3 & H4).
    exists s', r, t. split_and!; try done. left. by apply keeps_socket_plain. }
  assert (Hcatch : ∀ (s1 : Conn) c e t1,
    ready s1 = ready s → trace s1 = trace s ++ t1 → Forall plain_effect t1 →
    ∃ s'' r' t', channel_catch L (impl := server) c e s1 = (s'', r') ∧
                 r' ≠ Diverge ∧ trace s'' = trace s ++ t' ∧
                 count is_ping t' = 0%nat ∧ count is_pong t' = 0%nat ∧
                 (keeps_socket s s'' t' ∨ closes_socket s s'' t')).
  { intros s1 c e t1 Hr1 Ht1 Hall1.
    destruct (channel_catch_effects c e s1) as (s' & r & t & -> & Hr & Hready & Ht & Hall).
    apply (Hplain s' r (t1 ++ t)); [done|congruence| |by apply Forall_app].
    by rewrite Ht, Ht1, <- app_assoc. }
  assert (Hterm : ∀ c arg,
    ∃ s'' r' t',
      try_catch (channel_emit_close L c arg) (λ e, catch (impl := server) e) s =
        (s'', r') ∧
      r' ≠ Diverge ∧ trace s'' = trace s ++ t' ∧
      count is_ping t' = 0%nat ∧ count is_pong t' = 0%nat ∧
      (keeps_socket s s'' t' ∨ closes_socket s s'' t')).
  { intros c arg. unfold try_catch.
    destruct (channel_emit_close_effects c arg s) as (s1 & t1 & -> & Ht1 & Hall1 & Hr1).
    assert (Hp1 : Forall plain_effect t1).
    { eapply Forall_impl; [exact Hall1|]. apply channel_effect_plain. }
    destruct (on_close L c arg) as [e|].
    - destruct (catch_server_effects e s1) as (s' & r & t & -> & Hr & Ht & H3 & H4 & Hstep).
      destruct (plain_counts t1 Hp1) as (_ & _ & H3' & H4').
      exists s', r, (t1 ++ t). split; [done|]. split_and!; try done.
      + by rewrite Ht, Ht1, <- app_assoc.
      + rewrite count_app. lia.
      + rewrite count_app. lia.
      + by apply (socket_step_after s s1).
    - by apply (Hplain s1 (Ok tt) t1). }
  destruct msg as [u path data|u data|u data|u reason].
  - unfold onwsmessage, onwsopen, channels_has, bind at 1, gets. cbn.
    case_bool_decide.
    { apply (Hplain s _ []); try done. by rewrite app_nil_r. }
    unfold new_WSChannel, channels_set, once_close_delete, paths_emit,
      try_catch, bind at 1 2 3 4, log, modify, listeners.
    cbn -[channel_catch].
    destruct (on_path L path _ data) as [e|]; cbn -[channel_catch].
    + eapply Hcatch; [done| |].
      * cbn. rewrite <- !app_assoc. done.
      * by repeat constructor.
    + eapply Hplain; [done|done| |].
      * cbn. rewrite <- !app_assoc. done.
      * by repeat constructor.
  - unfold onwsmessage, channels_get, bind at 1, gets. cbn -[channel_catch].
    destruct (channels s !! u) as [c|].
    2:{ apply (Hplain s _ []); try done. by rewrite app_nil_r. }
    unfold channel_emit_message, try_catch, bind, log, modify, listeners.
    cbn -[channel_catch].
    destruct (on_message L c data) as [e|]; cbn -[channel_catch].
    + eapply Hcatch; [done|done|]. by repeat constructor.
    + eapply Hplain; [done|done|done|]. by repeat constructor.
  - unfold onwsmessage, channels_get, bind at 1, gets. cbn [msg_uuid].
    destruct (channels s !! u) as [c|]; [apply Hterm|].
    apply (Hplain s _ []); try done. by rewrite app_nil_r.
  - unfold onwsmessage, channels_get, bind at 1, gets. cbn [msg_uuid].
    destruct (channels s !! u) as [c|]; [apply Hterm|].
    apply (Hplain s _ []); try done. by rewrite app_nil_r.
Qed.

Lemma deliver_server_effects msg (s : Conn) :
  ∃ s' t, deliver L (impl := server) msg s = (s', Ok tt) ∧
          trace s' = trace s ++ t ∧
          count is_ping t = 0%nat ∧ count is_pong t = 0%nat ∧
          (keeps_socket s s' t ∨ closes_socket s s' t).
Proof.
  destruct (onwsmessage_server_effects msg s)
    as (s1 & r & t & Hrun & Hr & Ht & H3 & H4 & Hstep).
  unfold deliver, try_catch. rewrite Hrun.
  destruct r as [[]|e|]; [by exists s1, t| |done].
  unfold log, modify. exists (add_trace (ConsoleError e) s1), (t ++ [ConsoleError e]).
  split; [done|]. split_and!.
  - cbn. by rewrite Ht, <- app_assoc.
  - rewrite count_app. cbn. lia.
  - rewrite count_app. cbn. lia.
  - unfold keeps_socket, closes_socket in *. rewrite !count_app. cbn.
    destruct Hstep as [(? & ? & ?)|(? & ? & ? & ?)]; [left|right];
      split_and!; solve [done|lia].
Qed.

(** X9: over any series of inbound frames, and whatever the listeners do,
    the dispatcher of a server connection calls [socket.close] at most
    once and emits the connection's [close] event at most once; it does
    neither when the connection is closed at the start; and it leaves the
    connection closed if it does. *)
Theorem server_dispatch_closes_once msgs (s : Conn) :
  let s' := deliveries L (impl := server) msgs s in
  (count is_socket_close (added s s') ≤ 1)%nat ∧
  (count is_conn_emit_close (added s s') ≤ 1)%nat ∧
  (ready s = CLOSED → keeps_socket s s' (added s s')) ∧
  (count is_socket_close (added s s') = 1%nat → ready s' = CLOSED).
Proof.
  cbn zeta.
  assert (H : ∀ s : Conn,
    ∃ t, trace (deliveries L (impl := server) msgs s) = trace s ++ t ∧
         (keeps_socket s (deliveries L (impl := server) msgs s) t ∨
          closes_socket s (deliveries L (impl := server) msgs s) t)).
  { clear s. induction msgs as [|msg msgs IH]; intros s.
    - exists []. cbn. rewrite app_nil_r. split; [done|]. left. by split_and!.
    - cbn [deliveries].
      destruct (deliver_server_effects msg s) as (s1 & t1 & -> & Ht1 & _ & _ & Hstep1).
      cbn [fst]. destruct (IH s1) as (t & Ht & Hstep).
      exists (t1 ++ t). split; [by rewrite Ht, Ht1, <- app_assoc|].
      unfold keeps_socket, closes_socket in *. rewrite !count_app.
      destruct Hstep1 as [(Hr1 & Ha1 & Hb1)|(Hn1 & Hr1 & Ha1 & Hb1)],
               Hstep as [(Hr & Ha & Hb)|(Hn & Hr & Ha & Hb)].
      + left. split_and!; [congruence|lia|lia].
      + right. split_and!; [congruence|done|lia|lia].
      + right. split_and!; [done|congruence|lia|lia].
      + done. }
  destruct (H s) as (t & Ht & Hstep). rewrite (added_app _ _ _ Ht).
  unfold keeps_socket, closes_socket in *.
  destruct Hstep as [(Hr & Ha & Hb)|(Hn & Hr & Ha & Hb)].
  - split_and!; [lia|lia|done|lia].
  - split_and!; [lia|lia|done|done].
Qed.

(** ** The listener of a server connection *)

Lemma emit_close_effects e (s : Conn) :
  ∃ s' t, emit_close L e s =
            (s', match on_conn_close L e with None => Ok tt | Some e' => Throw e' end) ∧
          trace s' = trace s ++ t ++ [ConnEmitClose e] ∧
          Forall channel_effect t ∧ ready s' = ready s.
Proof.
  destruct (close_each_effects e (registered s) s) as (s1 & t & Hrun & Ht & Hall & Hr).
  exists (add_trace (ConnEmitClose e) s1), t. split.
  { unfold emit_close, force_close_channels, bind, log, modify, gets, listeners.
    cbn -[close_each registered]. rewrite Hrun. by destruct (on_conn_close L e). }
  cbn. rewrite Ht, <- app_assoc. done.
Qed.

Lemma no_beat_app (t1 t2 : list Effect) :
  no_beat t1 → no_beat t2 → no_beat (t1 ++ t2).
Proof. intros [H1 H2] [H3 H4]. unfold no_beat. rewrite !count_app. lia. Qed.

Lemma no_beat_plain (t : list Effect) : Forall plain_effect t → no_beat t.
Proof. intros Hall. by destruct (plain_counts t Hall) as (_ & _ & ? & ?). Qed.

Lemma no_beat_nil : no_beat [].
Proof. done. Qed.

Lemma no_beat_one x : is_ping x = false → is_pong x = false → no_beat [x].
Proof. intros H1 H2. unfold no_beat. cbn. by rewrite H1, H2. Qed.

Lemma no_beat_channel (t : list Effect) : Forall channel_effect t → no_beat t.
Proof.
  intros Hall. apply no_beat_plain. eapply Forall_impl; [exact Hall|].
  apply channel_effect_plain.
Qed.

Lemma settled_emit_close e (s : Conn) :
  ∃ s' t, settled (emit_close L e) s = (s', Ok (on_conn_close L e)) ∧
          trace s' = trace s ++ t ∧ no_beat t ∧ ConnEmitClose e ∈ t.
Proof.
  destruct (emit_close_effects e s) as (s' & t & Hrun & Ht & Hall & _).
  exists s', (t ++ [ConnEmitClose e]). unfold settled. rewrite Hrun.
  split_and!; [by destruct (on_conn_close L e)|done| |].
  - apply no_beat_app; [by apply no_beat_channel|by apply no_beat_one].
  - apply elem_of_app. right. by apply list_elem_of_here.
Qed.

(** A suspended handler that goes on. *)
Lemma resume_effects p (s : Conn) :
  ∃ s' new t, resume L socket_reclose p s = (s', Ok new) ∧
              trace s' = trace s ++ t ∧ no_beat t.
Proof.
  destruct p as [c e|e|reason|e]; cbn [resume].
  - destruct (channel_catch_effects c e s) as (s' & r & t & Hrun & Hr & _ & Ht & Hall).
    unfold bind, settled. rewrite Hrun.
    destruct r as [[]|e'|]; [| |done]; eexists s', _, t;
      (split_and!; [done|done|by apply no_beat_plain]).
  - assert (Hclose : ∀ reason (s0 : Conn) t0,
      trace s0 = trace s ++ t0 → no_beat t0 →
      ∃ s' new t, WSServerConn_close_called socket_reclose reason s0 = (s', Ok new) ∧
                  trace s' = trace s ++ t ∧ no_beat t).
    { intros reason s0 t0 Ht0 Hb0.
      unfold WSServerConn_close_called, server_socket_close, settled, bind,
        log, modify, gets, listeners, ret, throw. cbn.
      case_decide; [destruct socket_reclose|];
        eexists _, _, (t0 ++ [SocketClose 1000 (Some (default "" reason))]);
        (split_and!; [done|by cbn; rewrite Ht0, <- app_assoc|
                      by apply no_beat_app; [|apply no_beat_one]]). }
    set (s0 := add_trace (ConsoleError e) s).
    assert (Hone : no_beat [ConsoleError e]) by (by apply no_beat_one).
    assert (Hstay : ∃ s' new t,
      (s0, @Ok (list Paused) []) = (s', Ok new) ∧
      trace s' = trace s ++ t ∧ no_beat t).
    { by exists s0, [], [ConsoleError e]. }
    assert (Hgo : ∀ reason, ∃ s' new t,
      WSServerConn_close_called socket_reclose reason s0 = (s', Ok new) ∧
      trace s' = trace s ++ t ∧ no_beat t).
    { intros reason. by apply (Hclose reason s0 [ConsoleError e]). }
    unfold catch_called, bind, log, modify, gets.
    cbn -[WSServerConn_close_called]. fold s0.
    destruct e as [message|kind reason|value];
      try destruct (WSServerConn_closed s0); cbn [negb];
      solve [apply Hgo|exact Hstay].
  - unfold WSServerConn_close_resumed.
    destruct (settled_emit_close (CloseError ConnectionClose reason) s)
      as (s' & t & Hrun & Ht & Hb & _).
    unfold bind. rewrite Hrun. by eexists s', _, t.
  - exists (add_trace (ConsoleError e) s), [], [ConsoleError e].
    split_and!; [done|done|by apply no_beat_one].
Qed.


Lemma resume_each_effects paused : ∀ s : Conn,
  ∃ s' paused' t, resume_each L socket_reclose paused s = (s', Ok paused') ∧
                  trace s' = trace s ++ t ∧ no_beat t.
Proof.
  induction paused as [|p paused IH]; intros s.
  - exists s, [], []. rewrite app_nil_r. by split_and!.
  - cbn [resume_each].
    destruct (resume_effects p s) as (s1 & new & t1 & Hrun & Ht1 & Hb1).
    unfold bind at 1. rewrite Hrun.
    destruct (IH s1) as (s' & more & t & Hrest & Ht & Hb).
    unfold bind. rewrite Hrest.
    exists s', (new ++ more), (t1 ++ t). split_and!; [done| |by apply no_beat_app].
    by rewrite Ht, Ht1, <- app_assoc.
Qed.





(** ** Every handler comes to its end *)

Lemma rejected_is_report r : Forall is_report (rejected r).
Proof. destruct r; by repeat constructor. Qed.

Lemma is_report_leaving paused : Forall is_report paused → Forall is_leaving paused.
Proof. intros H. eapply Forall_impl; [exact H|]. by intros []. Qed.

(** What a handler that goes on is suspended on next. *)
Lemma resume_next p (s s' : Conn) new :
  resume L socket_reclose p s = (s', Ok new) →
  Forall is_leaving new ∧ (is_leaving p → Forall is_report new).
Proof.
  destruct p as [c e|e|reason|e]; cbn [resume]; intros Hrun.
  - unfold bind, settled in Hrun.
    destruct (channel_catch L c e s) as [s1 [[]|e'|]]; [| |done];
      injection Hrun as <- <-; (split; [|done]); by repeat constructor.
  - split; [|done].
    unfold catch_called, WSServerConn_close_called, bind, settled, log, modify,
      gets, ret in Hrun.
    cbn -[server_socket_close] in Hrun.
    destruct e as [message|kind reason|value];
      try destruct (WSServerConn_closed _); cbn [negb] in Hrun;
      try (injection Hrun as <- <-; by constructor);
      (destruct (server_socket_close _ _ _ _) as [s1 [[]|e'|]]; [| |done]);
      injection Hrun as <- <-; by repeat constructor.
  - unfold bind, settled in Hrun.
    destruct (WSServerConn_close_resumed L reason s) as [s1 [[]|e'|]]; [| |done];
      injection Hrun as <- <-; split; intros; by repeat constructor.
  - unfold bind, log, modify, ret in Hrun. injection Hrun as <- <-.
    split; intros; constructor.
Qed.

Lemma resume_each_next paused : ∀ (s s' : Conn) paused',
  resume_each L socket_reclose paused s = (s', Ok paused') →
  Forall is_leaving paused' ∧ (Forall is_leaving paused → Forall is_report paused').
Proof.
  induction paused as [|p paused IH]; intros s s' paused' Hrun.
  - injection Hrun as <- <-. by split.
  - cbn [resume_each] in Hrun. unfold bind at 1 in Hrun.
    destruct (resume L socket_reclose p s) as [s1 [new|e|]] eqn:Hp; [|done..].
    unfold bind, ret in Hrun.
    destruct (resume_each L socket_reclose paused s1) as [s2 [more|e|]] eqn:Hrest;
      [|done..].
    injection Hrun as <- <-.
    destruct (resume_next p s s1 new Hp) as [H1 H2].
    destruct (IH s1 s2 more Hrest) as [G1 G2].
    split; [by apply Forall_app|].
    intros [Hp' Hall]%Forall_cons. apply Forall_app. split; [by apply H2|by apply G2].
Qed.

(** Three rounds are enough: when the listener is through, no handler is
    left suspended. *)
Lemma run_out_empties paused (s : Conn) :
  ∃ s', run_out L socket_reclose 3 paused s = (s', Ok []).
Proof.
  cbn [run_out]. unfold bind at 1.
  destruct (resume_each_effects paused s) as (s1 & w1 & t1 & Hrun1 & _).
  rewrite Hrun1. destruct (resume_each_next paused s s1 w1 Hrun1) as [Hl1 _].
  unfold bind at 1.
  destruct (resume_each_effects w1 s1) as (s2 & w2 & t2 & Hrun2 & _).
  rewrite Hrun2. destruct (resume_each_next w1 s1 s2 w2 Hrun2) as [_ Hr2].
  specialize (Hr2 Hl1).
  destruct (resume_each_reports w2 s2 Hr2) as (s3 & es & Hrun3 & _).
  unfold bind. rewrite Hrun3. by exists s3.
Qed.

(** ** The handlers, run at once *)

Ltac run_unfold :=
  unfold _handle, onwsmessage, onwsopen, catch, WSServerConn_close,
    _handle_called, onwsmessage_called, onwsopen_called, catch_called,
    WSServerConn_close_called, WSServerConn_close_resumed, rejected,
    try_catch, settled, bind, ret, throw, log, modify, gets, listeners,
    channels_has, channels_get, channels_set, once_close_delete,
    new_WSChannel, paths_emit, channel_emit_message;
  cbn -[emit_close channel_catch channel_emit_close server_socket_close].

Ltac run_call x :=
  lazymatch x with
  | emit_close _ _ _ => destruct x as [? [[]|?|]] eqn:?
  | channel_catch _ _ _ _ => destruct x as [? [[]|?|]] eqn:?
  | channel_emit_close _ _ _ _ => destruct x as [? [[]|?|]] eqn:?
  | server_socket_close _ _ _ _ => destruct x as [? [[]|?|]] eqn:?
  end.

Ltac run_step :=
  match goal with
  | E : ?x = _ |- context [?x] => rewrite E
  | |- context [match ?e with JsError _ => _ | CloseError _ _ => _ | Thrown _ => _ end] =>
      is_var e; destruct e
  | |- context [negb (WSServerConn_closed ?s)] =>
      destruct (WSServerConn_closed s) eqn:?
  | |- context [match ?x with (_, _) => _ end] => run_call x
  | |- context [let (_, _) := ?x in _] => run_call x
  end.

Ltac run_all :=
  repeat (repeat (progress run_unfold); run_step);
  repeat (progress run_unfold); try done.

(** When each handler runs out as soon as it is started, the listener
    does with an event what [_handle(e).catch(console.error)] does when it
    is awaited. *)
Lemma handle_at_once e (s : Conn) :
  fst ((new <- _handle_called L e ;; run_out L socket_reclose 3 new) s) =
  fst (try_catch (_handle L socket_reclose e) (λ err, log (ConsoleError err)) s).
Proof.
  destruct e as [| |code reason|msg].
  - run_all.
  - run_all.
  - run_all.
  - destruct msg as [u path data|u data|u data|u reason].
    + run_all. case_bool_decide; run_all.
      destruct (on_path L path _ data); run_all.
    + run_all. destruct (channels s !! u) as [c|]; run_all.
      destruct (on_message L c data); run_all.
    + run_all. destruct (channels s !! u) as [c|]; run_all.
    + run_all. destruct (channels s !! u) as [c|]; run_all.
Qed.

(** ** Frames as the socket delivers them *)

(** The three conditionals that follow the lookup of the channel, for an
    object that is a frame: the one of its kind runs, alone. *)
Lemma onwsmessage_raw_typed `{impl : WSConnImpl} msg (s : Conn) :
  onwsmessage_raw L (to_raw msg) s = onwsmessage L msg s.
Proof.
  destruct msg as [u path data|u data|u data|u reason];
    unfold onwsmessage_raw, onwsmessage; cbn [to_raw raw_type raw_uuid raw_path raw_data raw_reason msg_uuid].
  - by rewrite decide_True.
  - rewrite decide_False by done. unfold bind at 1. unfold bind at 3.
    destruct (channels_get u s) as [s1 [[c|]| |]]; try done.
    repeat (case_decide; try done). unfold bind, ret.
    by destruct (try_catch _ _ s1) as [s2 [[]| |]].
  - rewrite decide_False by done. unfold bind at 1. unfold bind at 3.
    destruct (channels_get u s) as [s1 [[c|]| |]]; try done.
    repeat (case_decide; try done). unfold bind, ret.
    by destruct (try_catch _ _ s1) as [s2 [[]| |]].
  - rewrite decide_False by done. unfold bind at 1. unfold bind at 3.
    by destruct (channels_get u s) as [s1 [[c|]| |]].
Qed.

(** X11: what the dispatcher does with the object that [JSON.parse] hands
    over is decided by its [type] alone: an object with one of the types
    [open], [close], [error], or with none, is handled as the frame of that
    kind, and by the branch of that kind only; an object with any other
    type runs no listener and changes nothing: it is dropped without a word
    when its identifier is registered, and rejected with "Invalid UUID"
    when it is not. *)
Theorem dispatch_by_type `{impl : WSConnImpl} (msg : RawMessage) (s : Conn) :
  onwsmessage_raw L msg s =
    match typed msg with
    | Some frame => onwsmessage L frame s
    | None =>
        (s, match channels s !! raw_uuid msg with
            | Some _ => Ok tt
            | None => Throw (JsError "Invalid UUID")
            end)
    end.
Proof.
  destruct msg as [u ty path data reason].
  unfold typed, onwsmessage_raw.
  cbn [raw_type raw_uuid raw_path raw_data raw_reason].
  assert (Hone : ∀ (m : M unit) (s1 : Conn),
            (let (s', r) := m s1 in
             match r with
             | Ok _ => (s', Ok tt)
             | Throw e => (s', Throw e)
             | Diverge => (s', Diverge)
             end) = m s1).
  { intros m s1. by destruct (m s1) as [s2 [[]| |]]. }
  destruct ty as [kind|].
  - destruct (decide (kind = "open")) as [->|Hopen].
    { by rewrite decide_True. }
    rewrite decide_False by congruence.
    destruct (decide (kind = "close")) as [->|Hclose];
      [|destruct (decide (kind = "error")) as [->|Herr]];
      unfold onwsmessage, channels_get, gets, bind, ret; cbn [msg_uuid];
      (destruct (channels s !! u) as [c|]; [|done]);
      repeat (case_decide; try congruence); by rewrite ?Hone.
  - rewrite decide_False by done.
    unfold onwsmessage, channels_get, gets, bind, ret; cbn [msg_uuid].
    destruct (channels s !! u) as [c|]; [|done].
    repeat (case_decide; try congruence). by rewrite ?Hone.
Qed.

(** ** The dispatcher and the socket of a client *)

Lemma at_most_closing_plain (s s' : Conn) t :
  ready s' = ready s → Forall plain_effect t → at_most_closing s s' t.
Proof.
  intros Hr Hall. destruct (plain_counts t Hall) as (? & ? & _).
  split_and!; [done|by left|done].
Qed.

Lemma at_most_closing_trans (s s1 s' : Conn) t1 t :
  at_most_closing s s1 t1 → at_most_closing s1 s' t →
  at_most_closing s s' (t1 ++ t).
Proof.
  intros (Ha1 & Hr1 & Hc1) (Ha & Hr & Hc). unfold at_most_closing.
  rewrite !count_app. split_and!.
  - lia.
  - destruct Hr1 as [Hr1|[Hn1 Hr1]], Hr as [Hr|[Hn Hr]].
    + left. congruence.
    + right. split; congruence.
    + right. split; congruence.
    + by right.
  - intros Hclosed. rewrite Hc1 by done. rewrite Hc; [done|].
    destruct Hr1 as [Hr1|[Hn1 _]]; [congruence|done].
Qed.

Lemma channel_catch_client_effects c e (s : Conn) :
  ∃ s' r t, channel_catch L (impl := WSClientConn) c e s = (s', r) ∧
            r ≠ Diverge ∧ ready s' = ready s ∧ trace s' = trace s ++ t ∧
            Forall plain_effect t.
Proof.
  unfold channel_catch, channel_is_open, bind at 1 2, log, modify, gets. cbn -[channel_emit_close].
  case_bool_decide.
  - unfold WSClientConn_send, socket_send, bind at 1 2, gets, log, modify, throw.
    cbn -[channel_emit_close]. case_decide.
    + destruct (channel_emit_close_effects c
                  (CloseErr (CloseError ChannelClose (Some (describe e))))
                  (add_trace (SocketSend (WSErrorMessage (uuid c) (describe e)))
                     (add_trace (ConsoleError e) s)))
        as (s' & t & -> & Ht & Hall & Hr).
      eexists s', _, (ConsoleError e :: SocketSend _ :: t).
      split; [done|]. split_and!.
      * by destruct (on_close L c _).
      * by rewrite Hr.
      * rewrite Ht. cbn. by rewrite <- !app_assoc.
      * constructor; [done|]. constructor; [done|].
        eapply Forall_impl; [exact Hall|]. apply channel_effect_plain.
    + eexists _, _, [ConsoleError e]. split; [done|].
      split_and!; try done. by repeat constructor.
  - eexists _, _, [ConsoleError e]. split; [done|].
    split_and!; try done. by repeat constructor.
Qed.

Lemma catch_client_effects e (s : Conn) :
  ∃ s' t, catch (impl := WSClientConn) e s = (s', Ok tt) ∧
          trace s' = trace s ++ t ∧ at_most_closing s s' t.
Proof.
  assert (Hclose : ∀ reason,
    ∃ s' t, ((if negb (WSClientConn_closed (add_trace (ConsoleError e) s))
              then WSClientConn_close reason else ret tt)
               (add_trace (ConsoleError e) s)) = (s', Ok tt) ∧
            trace s' = trace s ++ t ∧ at_most_closing s s' t).
  { intros reason. unfold WSClientConn_closed, WSClientConn_close,
      client_socket_close, bind, gets, log, modify, ret. cbn.
    case_bool_decide as Hc; cbn.
    - exists (add_trace (ConsoleError e) s), [ConsoleError e].
      split_and!; [done|done|]. apply at_most_closing_plain; [done|].
      by repeat constructor.
    - unfold WSClientConn_closed. cbn [ready add_trace].
      rewrite bool_decide_false by done. cbn. rewrite decide_False by done.
      eexists _, [ConsoleError e; SocketClose 1000 reason].
      split_and!; [done|by cbn; rewrite <- app_assoc|].
      split_and!; [done|by right|done]. }
  unfold catch, bind at 1 2, log, modify, gets. cbn [closed WSClientConn].
  destruct e as [message|kind reason|value].
  - apply Hclose.
  - apply Hclose.
  - exists (add_trace (ConsoleError (Thrown value)) s), [ConsoleError (Thrown value)].
    split_and!; [done|done|]. apply at_most_closing_plain; [done|].
    by repeat constructor.
Qed.

Lemma onwsmessage_client_effects msg (s : Conn) :
  ∃ s' r t, onwsmessage L (impl := WSClientConn) msg s = (s', r) ∧
            r ≠ Diverge ∧ trace s' = trace s ++ t ∧ at_most_closing s s' t.
Proof.
  assert (Hplain : ∀ s' (r : Result unit) t,
    r ≠ Diverge → ready s' = ready s → trace s' = trace s ++ t →
    Forall plain_effect t →
    ∃ s'' r' t', (s', r) = (s'', r') ∧ r' ≠ Diverge ∧
                 trace s'' = trace s ++ t' ∧ at_most_closing s s'' t').
  { intros s' r t Hr Hready Ht Hall. exists s', r, t.
    split_and!; try done. by apply at_most_closing_plain. }
  assert (Hcatch : ∀ (s1 : Conn) c e t1,
    ready s1 = ready s → trace s1 = trace s ++ t1 → Forall plain_effect t1 →
    ∃ s'' r' t', channel_catch L (impl := WSClientConn) c e s1 = (s'', r') ∧
                 r' ≠ Diverge ∧ trace s'' = trace s ++ t' ∧
                 at_most_closing s s'' t').
  { intros s1 c e t1 Hr1 Ht1 Hall1.
    destruct (channel_catch_client_effects c e s1)
      as (s' & r & t & -> & Hr & Hready & Ht & Hall).
    apply (Hplain s' r (t1 ++ t)); [done|congruence| |by apply Forall_app].
    by rewrite Ht, Ht1, <- app_assoc. }
  assert (Hterm : ∀ c arg,
    ∃ s'' r' t',
      try_catch (channel_emit_close L c arg)
        (λ e, catch (impl := WSClientConn) e) s = (s'', r') ∧
      r' ≠ Diverge ∧ trace s'' = trace s ++ t' ∧ at_most_closing s s'' t').
  { intros c arg. unfold try_catch.
    destruct (channel_emit_close_effects c arg s) as (s1 & t1 & -> & Ht1 & Hall1 & Hr1).
    assert (Hp1 : Forall plain_effect t1).
    { eapply Forall_impl; [exact Hall1|]. apply channel_effect_plain. }
    destruct (on_close L c arg) as [e|].
    - destruct (catch_client_effects e s1) as (s' & t & -> & Ht & Hstep).
      exists s', (Ok tt), (t1 ++ t). split_and!; try done.
      + by rewrite Ht, Ht1, <- app_assoc.
      + apply (at_most_closing_trans s s1 s'); [|done].
        by apply at_most_closing_plain.
    - by apply (Hplain s1 (Ok tt) t1). }
  destruct msg as [u path data|u data|u data|u reason].
  - unfold onwsmessage, onwsopen, channels_has, bind at 1, gets. cbn.
    case_bool_decide.
    { apply (Hplain s _ []); try done. by rewrite app_nil_r. }
    unfold new_WSChannel, channels_set, once_close_delete, paths_emit,
      try_catch, bind at 1 2 3 4, log, modify, listeners.
    cbn -[channel_catch].
    destruct (on_path L path _ data) as [e|]; cbn -[channel_catch].
    + eapply Hcatch; [done| |].
      * cbn. rewrite <- !app_assoc. done.
      * by repeat constructor.
    + eapply Hplain; [done|done| |].
      * cbn. rewrite <- !app_assoc. done.
      * by repeat constructor.
  - unfold onwsmessage, channels_get, bind at 1, gets. cbn -[channel_catch].
    destruct (channels s !! u) as [c|].
    2:{ apply (Hplain s _ []); try done. by rewrite app_nil_r. }
    unfold channel_emit_message, try_catch, bind, log, modify, listeners.
    cbn -[channel_catch].
    destruct (on_message L c data) as [e|]; cbn -[channel_catch].
    + eapply Hcatch; [done|done|]. by repeat constructor.
    + eapply Hplain; [done|done|done|]. by repeat constructor.
  - unfold onwsmessage, channels_get, bind at 1, gets. cbn [msg_uuid].
    destruct (channels s !! u) as [c|]; [apply Hterm|].
    apply (Hplain s _ []); try done. by rewrite app_nil_r.
  - unfold onwsmessage, channels_get, bind at 1, gets. cbn [msg_uuid].
    destruct (channels s !! u) as [c|]; [apply Hterm|].
    apply (Hplain s _ []); try done. by rewrite app_nil_r.
Qed.

(** X12: on a client connection the dispatcher never emits the
    connection's [close] event and never leaves the socket closed when it
    was not: over any series of inbound frames, a failure of a [close]
    listener at most tells the socket to start its closing handshake, so
    that [closed] stays false until the platform fires [onclose]; and on a
    closed connection [socket.close] is not called at all. *)
Theorem client_dispatch_leaves_close_to_socket msgs (s : Conn) :
  let s' := deliveries L (impl := WSClientConn) msgs s in
  count is_conn_emit_close (added s s') = 0%nat ∧
  (WSClientConn_closed s' = WSClientConn_closed s) ∧
  (ready s' = ready s ∨ ready s' = CLOSING) ∧
  (ready s = CLOSED → count is_socket_close (added s s') = 0%nat).
Proof.
  cbn zeta.
  assert (H : ∀ s : Conn,
    ∃ t, trace (deliveries L (impl := WSClientConn) msgs s) = trace s ++ t ∧
         at_most_closing s (deliveries L (impl := WSClientConn) msgs s) t).
  { clear s. induction msgs as [|msg msgs IH]; intros s.
    - exists []. cbn. rewrite app_nil_r. split; [done|].
      by apply at_most_closing_plain.
    - cbn [deliveries]. unfold deliver, try_catch.
      destruct (onwsmessage_client_effects msg s)
        as (s1 & r & t1 & -> & Hr & Ht1 & Hstep1).
      assert (Hdel : ∃ s2 t2,
        fst (match r with
             | Ok a => (s1, Ok a)
             | Throw e => log (ConsoleError e) s1
             | Diverge => (s1, Diverge)
             end) = s2 ∧ trace s2 = trace s ++ t2 ∧ at_most_closing s s2 t2).
      { destruct r as [[]|e|]; [by exists s1, t1| |done].
        exists (add_trace (ConsoleError e) s1), (t1 ++ [ConsoleError e]).
        split_and!; [done|by cbn; rewrite Ht1, <- app_assoc|].
        apply (at_most_closing_trans s s1); [done|].
        apply at_most_closing_plain; [done|]. by repeat constructor. }
      destruct Hdel as (s2 & t2 & -> & Ht2 & Hstep2).
      destruct (IH s2) as (t & Ht & Hstep).
      exists (t2 ++ t). split; [by rewrite Ht, Ht2, <- app_assoc|].
      by apply (at_most_closing_trans s s2). }
  destruct (H s) as (t & Ht & Ha & Hr & Hc). rewrite (added_app _ _ _ Ht).
  split_and!; [done| | |done].
  - unfold WSClientConn_closed.
    destruct Hr as [->|[Hn Hr]]; [done|]. rewrite Hr.
    by rewrite !bool_decide_false.
  - destruct Hr as [Hr|[_ Hr]]; [by left|by right].
Qed.

(** ** Requests *)

Lemma first_close_app c (t1 t2 : list Effect) :
  first_close c (t1 ++ t2) =
    match first_close c t1 with
    | Some arg => Some arg
    | None => first_close c t2
    end.
Proof.
  induction t1 as [|x t1 IH]; [done|].
  destruct x; cbn; try done. by case_decide.
Qed.

(** The delivery of a frame only adds to the trace. *)
Lemma deliver_extends f msg (s : Conn) :
  ∃ s' t, deliver L (impl := impl_ f) msg s = (s', Ok tt) ∧
          trace s' = trace s ++ t.
Proof.
  destruct f; cbn [impl_of].
  - destruct (deliver_server_effects msg s) as (s' & t & Hrun & Ht & _).
    by exists s', t.
  - unfold deliver, try_catch.
    destruct (onwsmessage_client_effects msg s) as (s1 & r & t & -> & Hr & Ht & _).
    destruct r as [[]|e|]; [by exists s1, t| |done].
    exists (add_trace (ConsoleError e) s1), (t ++ [ConsoleError e]).
    split; [done|]. cbn. by rewrite Ht, <- app_assoc.
Qed.

(** A frame that is not a close or error frame for [u] leaves the channel
    registered under [u] alone, when the listeners do. *)
Lemma onwsmessage_other f (s : Conn) u c msg :
  undisturbed L c → wf s → channels s !! u = Some c →
  is_terminal_msg msg = false ∨ msg_uuid msg ≠ u →
  ∃ s' r t,
    onwsmessage L (impl := impl_ f) msg s = (s', r) ∧ r ≠ Diverge ∧
    channels s' !! u = Some c ∧ trace s' = trace s ++ t ∧
    first_close c t = None.
Proof.
  intros [Hmsg Hclose] Hwf Hc Hkind.
  assert (Hsend : send (WSConnImpl := impl_ f) = socket_send) by (by destruct f).
  assert (Hk : uuid c = u) by (by eapply wf_keyed).
  assert (Hgoal : ∀ s' (r : Result unit) t,
    r ≠ Diverge → channels s' !! u = Some c → trace s' = trace s ++ t →
    first_close c t = None →
    ∃ s'' r' t', (s', r) = (s'', r') ∧ r' ≠ Diverge ∧
      channels s'' !! u = Some c ∧ trace s'' = trace s ++ t' ∧
      first_close c t' = None).
  { intros s' r t ? ? ? ?. by exists s', r, t. }
  assert (Hthrow : ∀ e, ∃ s'' r' t', (s, @Throw unit e) = (s'', r') ∧ r' ≠ Diverge ∧
      channels s'' !! u = Some c ∧ trace s'' = trace s ++ t' ∧
      first_close c t' = None).
  { intros e. apply (Hgoal s _ []); try done. by rewrite app_nil_r. }
  destruct msg as [u' path data|u' data|u' data|u' reason].
  - unfold onwsmessage, onwsopen, channels_has, bind at 1, gets. cbn.
    case_bool_decide as Hin; [apply Hthrow|].
    assert (Hnone : channels s !! u' = None) by (by apply eq_None_not_Some).
    assert (Hne : u ≠ u') by (intros ->; by rewrite Hc in Hnone).
    assert (Hcne : mkChannel u' (next_oid s) ≠ c).
    { intros <-. by cbn in Hk. }
    unfold new_WSChannel, channels_set, once_close_delete, paths_emit,
      try_catch, bind, log, modify, listeners. cbn.
    destruct (on_path L path _ data) as [e|]; cbn.
    2:{ eapply Hgoal; trace_step; [done| |done|done].
        by rewrite lookup_insert_ne. }
    unfold channel_catch, channel_is_open, channel_emit_close, channels_delete,
      bind, log, modify, gets, listeners. rewrite Hsend.
    unfold socket_send, bind, gets, log, modify, throw. cbn.
    rewrite lookup_insert_eq, bool_decide_eq_true_2 by done.
    case_decide as Ho; cbn.
    + rewrite bool_decide_eq_true_2
        by (apply elem_of_union_l; by apply elem_of_singleton).
      cbn. destruct (on_close L _ _); cbn;
        (eapply Hgoal; trace_step;
         [done|by rewrite lookup_delete_ne, lookup_insert_ne|done|];
         cbn; by rewrite decide_False).
    + eapply Hgoal; trace_step; [done| |done|done].
      by rewrite lookup_insert_ne.
  - unfold onwsmessage, channels_get, bind at 1, gets. cbn.
    destruct (channels s !! u') as [c0|] eqn:Hc0; cbn; [|apply Hthrow].
    assert (Hk0 : uuid c0 = u') by (by eapply wf_keyed).
    unfold channel_emit_message, try_catch, bind, log, modify, listeners. cbn.
    destruct (on_message L c0 data) as [e|] eqn:He; cbn.
    2:{ eapply Hgoal; trace_step; done. }
    assert (Hcne : c0 ≠ c) by (intros ->; by rewrite Hmsg in He).
    assert (Hne : u ≠ u').
    { intros ->. rewrite Hc in Hc0. by injection Hc0 as ->. }
    unfold channel_catch, channel_is_open, channel_emit_close, channels_delete,
      bind, log, modify, gets, listeners. rewrite Hsend.
    unfold socket_send, bind, gets, log, modify, throw. cbn.
    rewrite Hk0, Hc0, bool_decide_eq_true_2 by done.
    case_decide as Ho; cbn.
    + rewrite bool_decide_eq_true_2 by (by eapply wf_hooked).
      cbn. destruct (on_close L _ _); cbn;
        (eapply Hgoal; trace_step;
         [done|by rewrite lookup_delete_ne|done|];
         cbn; by rewrite decide_False).
    + eapply Hgoal; trace_step; done.
  - destruct Hkind as [?|Hne]; [done|]. cbn in Hne.
    unfold onwsmessage, channels_get, bind at 1, gets. cbn [msg_uuid].
    destruct (channels s !! u') as [c0|] eqn:Hc0; [|apply Hthrow].
    assert (Hk0 : uuid c0 = u') by (by eapply wf_keyed).
    assert (Hcne : c0 ≠ c) by (intros ->; congruence).
    unfold try_catch.
    rewrite channel_emit_close_spec by (by rewrite ?Hk0).
    rewrite Hclose by done.
    eapply Hgoal; trace_step; [done| |done|].
    + cbn. rewrite lookup_delete_ne; [done|congruence].
    + cbn. by rewrite decide_False.
  - destruct Hkind as [?|Hne]; [done|]. cbn in Hne.
    unfold onwsmessage, channels_get, bind at 1, gets. cbn [msg_uuid].
    destruct (channels s !! u') as [c0|] eqn:Hc0; [|apply Hthrow].
    assert (Hk0 : uuid c0 = u') by (by eapply wf_keyed).
    assert (Hcne : c0 ≠ c) by (intros ->; congruence).
    unfold try_catch.
    rewrite channel_emit_close_spec by (by rewrite ?Hk0).
    rewrite Hclose by done.
    eapply Hgoal; trace_step; [done| |done|].
    + cbn. rewrite lookup_delete_ne; [done|congruence].
    + cbn. by rewrite decide_False.
Qed.

Lemma deliver_other f (s : Conn) u c msg :
  undisturbed L c → wf s → channels s !! u = Some c →
  is_terminal_msg msg = false ∨ msg_uuid msg ≠ u →
  ∃ s' t,
    deliver L (impl := impl_ f) msg s = (s', Ok tt) ∧ wf s' ∧
    channels s' !! u = Some c ∧ trace s' = trace s ++ t ∧
    first_close c t = None.
Proof.
  intros Hund Hwf Hc Hkind.
  pose proof (deliver_wf f s msg Hwf) as Hwf'.
  destruct (onwsmessage_other f s u c msg Hund Hwf Hc Hkind)
    as (s1 & r & t & Hrun & Hr & Hc1 & Ht & Hfc).
  unfold deliver, try_catch in *. rewrite Hrun in *.
  destruct r as [[]|e|]; [by exists s1, t| |done].
  exists (add_trace (ConsoleError e) s1), (t ++ [ConsoleError e]).
  split_and!; try done.
  - cbn. by rewrite Ht, <- app_assoc.
  - by rewrite first_close_app, Hfc.
Qed.

Lemma final_loop_unfold impl since c d inbound (s : Conn) :
  final_loop L (impl := impl) since c d inbound s =
    match first_close c (drop since (trace s)) with
    | Some arg => (s, Ok (Settled arg))
    | None =>
        match inbound with
        | [] => (s, Ok (if decide (d > 0) then TimeoutError else Waiting))
        | (at_, msg) :: inbound =>
            if decide (d > 0 ∧ d ≤ at_) then (s, Ok TimeoutError)
            else (deliver L msg ;; final_loop L since c d inbound) s
        end
    end.
Proof.
  destruct inbound as [|[at_ msg] inbound]; cbn; unfold bind, gets, ret; cbn;
    destruct (first_close c (drop since (trace s))); try done.
  by case_decide.
Qed.

(** Waiting for the end of a channel only adds to the trace, and comes to
    something. *)
Lemma final_loop_extends f since c d inbound : ∀ s : Conn,
  ∃ s' r t, final_loop L (impl := impl_ f) since c d inbound s = (s', Ok r) ∧
            trace s' = trace s ++ t.
Proof.
  induction inbound as [|[at_ msg] inbound IH]; intros s;
    rewrite final_loop_unfold.
  - destruct (first_close _ _); eexists s, _, []; by rewrite app_nil_r.
  - destruct (first_close _ _); [eexists s, _, []; by rewrite app_nil_r|].
    case_decide; [eexists s, _, []; by rewrite app_nil_r|].
    unfold bind. destruct (deliver_extends f msg s) as (s1 & t1 & -> & Ht1).
    destruct (IH s1) as (s' & r & t & -> & Ht).
    exists s', r, (t1 ++ t). split; [done|]. by rewrite Ht, Ht1, <- app_assoc.
Qed.

Lemma final_settles f since c d at_ msg arg post pre : ∀ s : Conn,
  undisturbed L c → wf s → channels s !! uuid c = Some c →
  (since ≤ length (trace s))%nat →
  first_close c (drop since (trace s)) = None →
  Forall (λ p, (d ≤ 0 ∨ p.1 < d) ∧
               (is_terminal_msg p.2 = false ∨ msg_uuid p.2 ≠ uuid c)) pre →
  d ≤ 0 ∨ at_ < d →
  terminal_arg msg = Some arg → msg_uuid msg = uuid c →
  ∃ s', final_loop L (impl := impl_ f) since c d (pre ++ (at_, msg) :: post) s =
          (s', Ok (Settled arg)).
Proof.
  intros s Hund Hwf Hc Hlen Hnone Hpre Htime Harg Hu. revert s Hwf Hc Hlen Hnone.
  induction pre as [|[at' msg'] pre IH]; intros s Hwf Hc Hlen Hnone.
  - cbn [app]. rewrite final_loop_unfold, Hnone.
    rewrite decide_False by lia. unfold bind.
    destruct (deliver_terminal_registered f s (uuid c) c msg arg Hwf Hc Harg Hu)
      as (s' & t & -> & _ & _ & Ht & _).
    rewrite final_loop_unfold, Ht, drop_app_le, first_close_app, Hnone by done.
    cbn. rewrite decide_True by done. by eexists.
  - apply Forall_cons in Hpre as [[Ht' Hm'] Hpre]. cbn in Ht', Hm'.
    cbn [app]. rewrite final_loop_unfold, Hnone.
    rewrite decide_False by lia. unfold bind.
    destruct (deliver_other f s (uuid c) c msg' Hund Hwf Hc Hm')
      as (s' & t & -> & Hwf' & Hc' & Ht & Hfc).
    apply IH; try done.
    + rewrite Ht, length_app. lia.
    + rewrite Ht, drop_app_le, first_close_app, Hnone by done. done.
Qed.

Lemma final_times_out f since c d inbound : ∀ s : Conn,
  undisturbed L c → wf s → channels s !! uuid c = Some c →
  (since ≤ length (trace s))%nat →
  first_close c (drop since (trace s)) = None →
  d > 0 →
  Forall (λ p, p.1 < d →
               is_terminal_msg p.2 = false ∨ msg_uuid p.2 ≠ uuid c) inbound →
  ∃ s', final_loop L (impl := impl_ f) since c d inbound s = (s', Ok TimeoutError) ∧
        channels s' !! uuid c = Some c.
Proof.
  intros s Hund Hwf Hc Hlen Hnone Hd Hall. revert s Hwf Hc Hlen Hnone.
  induction inbound as [|[at' msg'] inbound IH]; intros s Hwf Hc Hlen Hnone.
  - rewrite final_loop_unfold, Hnone. rewrite decide_True by done. by eexists.
  - apply Forall_cons in Hall as [Hm' Hall]. cbn in Hm'.
    rewrite final_loop_unfold, Hnone.
    case_decide as Hlate; [by eexists|].
    unfold bind.
    destruct (deliver_other f s (uuid c) c msg' Hund Hwf Hc)
      as (s' & t & -> & Hwf' & Hc' & Ht & Hfc).
    { apply Hm'. lia. }
    apply IH; try done.
    + rewrite Ht, length_app. lia.
    + rewrite Ht, drop_app_le, first_close_app, Hnone by done. done.
Qed.

(** C5: on an open socket [request] opens a channel: it hands the open
    frame to the socket and registers the channel before it waits,
    whatever comes in afterwards; it comes to the argument of the first
    close or error frame that reaches the channel; without a [delay] it
    waits for 1000; when no such frame comes in time it comes to the
    timeout, which is not a [Settled] outcome, and the channel is still
    registered. *)
Theorem request_settles_or_times_out f path data delay (s : Conn) :
  wf s → Inj (=) (=) generate → (size (channels s) < fuel)%nat →
  ready s = OPEN →
  let d := default 1000 delay in
  let run := request L generate fuel (impl := impl_ f) path data in
  ∃ s1 c,
    open generate fuel (impl := impl_ f) path data s = (s1, Ok c) ∧
    (∀ inbound, ∃ s' r t,
       run delay inbound s = (s', Ok r) ∧
       added s s' = SocketSend (WSOpenMessage (uuid c) path data) ::
                      ChannelsSet (uuid c) c :: OnceClose c :: t) ∧
    (undisturbed L c →
     (∀ pre at_ msg arg post,
        Forall (λ p, (d ≤ 0 ∨ p.1 < d) ∧
                     (is_terminal_msg p.2 = false ∨ msg_uuid p.2 ≠ uuid c)) pre →
        d ≤ 0 ∨ at_ < d →
        terminal_arg msg = Some arg → msg_uuid msg = uuid c →
        snd (run delay (pre ++ (at_, msg) :: post) s) = Ok (Settled arg)) ∧
     (∀ inbound,
        d > 0 →
        Forall (λ p, p.1 < d →
                     is_terminal_msg p.2 = false ∨ msg_uuid p.2 ≠ uuid c) inbound →
        ∃ s', run delay inbound s = (s', Ok TimeoutError) ∧
              channels s' !! uuid c = Some c)) ∧
    run None = run (Some 1000).
Proof.
  intros Hwf Hinj Hsize Hready d run.
  destruct (open_returns f path data s Hinj Hsize Hready) as (s1 & c & Hopen).
  exists s1, c. split; [done|].
  pose proof (open_wf f path data s s1 c Hopen Hwf) as Hwf1.
  pose proof (open_spec f path data s) as Hspec. rewrite Hopen in Hspec.
  destruct Hspec as (Ho & Hu & Hoid & Hch & Hh & Hn & Hr & Ht).
  assert (Hc1 : channels s1 !! uuid c = Some c).
  { rewrite Hch. apply lookup_insert_eq. }
  assert (Hreq : ∀ inbound,
    run delay inbound s =
      final_loop L (impl := impl_ f) (length (trace s1)) c d inbound s1).
  { intros inbound. unfold run, request, final. unfold bind at 1.
    by rewrite Hopen. }
  assert (Hdrop : first_close c (drop (length (trace s1)) (trace s1)) = None).
  { by rewrite drop_all. }
  split_and!; [| |done].
  - intros inbound. rewrite Hreq.
    destruct (final_loop_extends f (length (trace s1)) c d inbound s1)
      as (s' & r & t & -> & Ht').
    exists s', r, t. split; [done|].
    apply added_app. rewrite Ht', Ht. by rewrite <- app_assoc.
  - intros Hund. split.
    + intros pre at_ msg arg post Hpre Htime Harg Hmsg. rewrite Hreq.
      by destruct (final_settles f (length (trace s1)) c d at_ msg arg post pre s1)
        as [s' ->].
    + intros inbound Hd Hall. rewrite Hreq. by apply final_times_out.
Qed.

End Properties.

(** * The listener of the server *)

Section ServerProperties.

Variable on_accept : nat → option Err.

Local Abbreviation grows_ := (grows on_accept).

(** Permutations of lists, by counting the occurrences of each element. *)
Ltac perm_with dec :=
  unfold upgradable, refused, upgrading, unreported, accepted, responded,
    server_errors in *;
  apply (Permutation_count_occ dec); intros ?x;
  repeat match goal with
         | H : ?l ≡ₚ ?k |- context [count_occ dec _ ?x] =>
             let H' := fresh in
             pose proof (proj1 (Permutation_count_occ dec l k) H x) as H';
             clear H
         end;
  rewrite ?count_occ_app in *; lia.

Ltac perm :=
  first [ perm_with Nat.eq_dec
        | perm_with (λ x y : nat * Z, decide (x = y))
        | perm_with (λ x y : Err, decide (x = y)) ].

Lemma grows_refl l : grows_ l l [] [] [].
Proof.
  unfold grows. cbn. rewrite !app_nil_r. by split_and!.
Qed.

Lemma grows_trans l1 l2 l3 reqs reqs' serves serves' errs errs' :
  grows_ l1 l2 reqs serves errs → grows_ l2 l3 reqs' serves' errs' →
  grows_ l1 l3 (reqs ++ reqs') (serves ++ serves') (errs ++ errs').
Proof.
  intros (H1 & H2 & H3 & H4 & H5 & H6) (G1 & G2 & G3 & G4 & G5 & G6).
  unfold grows. split_and!.
  - by rewrite G1, H1, fmap_app, <- app_assoc.
  - by rewrite G2, H2, <- app_assoc.
  - unfold upgradable in *. rewrite omap_app. perm.
  - unfold refused in *. rewrite omap_app. perm.
  - rewrite omap_app. perm.
  - intros e He. apply G6. rewrite app_assoc in He.
    apply elem_of_app in He as [He|He]; apply elem_of_app; [left|by right].
    by apply H6.
Qed.

Lemma grows_say_serve tls options l :
  grows_ l (say [Serve tls options] l) [] [(tls, options)] [].
Proof.
  unfold grows, say, upgrades, served, accepted, responded, server_errors.
  cbn. rewrite !omap_app. cbn. rewrite !app_nil_r. by split_and!.
Qed.

Lemma grows_say_error e l :
  grows_ l (say [ServerConsoleError e] l) [] [] [e].
Proof.
  unfold grows, say, upgrades, served, accepted, responded, server_errors.
  cbn. rewrite !omap_app. cbn. rewrite !app_nil_r. split_and!; try done.
  perm.
Qed.

Lemma grows_start req l :
  grows_ l (wait (Upgrading req) (say [AcceptWebSocket (req_id req)] l))
    [req] [] [].
Proof.
  unfold grows, say, wait, upgrades, served, accepted, responded,
    server_errors, upgradable, refused, upgrading, unreported.
  cbn. rewrite !omap_app. cbn. rewrite !app_nil_r. split_and!; try done.
  - by rewrite <- !app_assoc.
  - by rewrite <- !app_assoc.
  - by rewrite <- !app_assoc.
Qed.

(** A suspended handler that goes on. *)
Lemma go_on_spec w :
  let (t, new) := go_on on_accept w in
  upgrades t = [] ∧ served t = [] ∧ upgrading new = [] ∧
  accepted t = upgradable (upgrading [w]) ∧
  responded t = refused (upgrading [w]) ∧
  server_errors t ++ unreported new =
    unreported [w] ++ omap (rejection on_accept) (upgrading [w]).
Proof.
  destruct w as [req|e]; [|done].
  unfold go_on, rejection, handle_resumed, upgradable, refused, upgrading.
  cbn. destruct (upgrade req); cbn.
  - by destruct (respond req).
  - by destruct (on_accept (req_id req)).
Qed.

Lemma grows_resumed l w ws t new :
  suspended l ≡ₚ w :: ws → go_on on_accept w = (t, new) →
  grows_ l (mkListening (out l ++ t) (ws ++ new) (late l)) [] [] [].
Proof.
  intros Hp Hrun. pose proof (go_on_spec w) as H. rewrite Hrun in H.
  destruct H as (H1 & H2 & H3 & H4 & H5 & H6).
  assert (Hup : upgrading (suspended l) ≡ₚ upgrading [w] ++ upgrading ws).
  { unfold upgrading. rewrite Hp. change (w :: ws) with ([w] ++ ws).
    by rewrite omap_app. }
  assert (Hun : unreported (suspended l) ≡ₚ unreported [w] ++ unreported ws).
  { unfold unreported. rewrite Hp. change (w :: ws) with ([w] ++ ws).
    by rewrite omap_app. }
  assert (Hnew : upgrading (ws ++ new) = upgrading ws).
  { unfold upgrading in *. by rewrite omap_app, H3, app_nil_r. }
  assert (Hunnew : unreported (ws ++ new) = unreported ws ++ unreported new).
  { unfold unreported. by rewrite omap_app. }
  unfold grows. cbn [out suspended fmap list_fmap omap list_omap].
  rewrite !app_nil_r, Hnew, Hunnew.
  assert (Ha : accepted (out l ++ t) = accepted (out l) ++ accepted t)
    by (unfold accepted; by rewrite omap_app).
  assert (Hr : responded (out l ++ t) = responded (out l) ++ responded t)
    by (unfold responded; by rewrite omap_app).
  assert (He : server_errors (out l ++ t) = server_errors (out l) ++ server_errors t)
    by (unfold server_errors; by rewrite omap_app).
  assert (Hu : upgrades (out l ++ t) = upgrades (out l))
    by (unfold upgrades in *; by rewrite omap_app, H1, app_nil_r).
  assert (Hs : served (out l ++ t) = served (out l))
    by (unfold served in *; by rewrite omap_app, H2, app_nil_r).
  rewrite Ha, Hr, He, Hu, Hs, H4, H5.
  assert (Hup1 : upgradable (upgrading (suspended l)) ≡ₚ
                 upgradable (upgrading [w]) ++ upgradable (upgrading ws)).
  { unfold upgradable. by rewrite Hup, omap_app. }
  assert (Hup2 : refused (upgrading (suspended l)) ≡ₚ
                 refused (upgrading [w]) ++ refused (upgrading ws)).
  { unfold refused. by rewrite Hup, omap_app. }
  assert (Hup3 : omap (rejection on_accept) (upgrading (suspended l)) ≡ₚ
                 omap (rejection on_accept) (upgrading [w]) ++
                 omap (rejection on_accept) (upgrading ws)).
  { by rewrite Hup, omap_app. }
  clear Hup Hp.
  split_and!; [done|done|perm|perm| |].
  - assert (H6' : server_errors t ++ unreported new ≡ₚ
                  unreported [w] ++ omap (rejection on_accept) (upgrading [w]))
      by (by rewrite H6).
    clear H6. perm.
  - intros e He'. apply elem_of_app. by left.
Qed.

Ltac by_growth H :=
  let G := fresh in
  pose proof H as G; cbn [app] in G; rewrite ?app_nil_r in G;
  cbn [app]; rewrite ?app_nil_r; exact G.

Lemma grows_progress picks : ∀ l ws t,
  go_on_picked on_accept picks (suspended l) = (t, ws) →
  grows_ l (mkListening (out l ++ t) ws (late l)) [] [] [].
Proof.
  induction picks as [|i picks IH]; intros l ws t Hrun.
  - injection Hrun as <- <-. rewrite app_nil_r. destruct l. apply grows_refl.
  - cbn [go_on_picked] in Hrun.
    destruct (suspended l !! i) as [w|] eqn:Hi; [|by apply IH].
    destruct (go_on on_accept w) as [t1 new] eqn:Hres.
    destruct (go_on_picked on_accept picks (delete i (suspended l) ++ new))
      as [t2 ws2] eqn:Hrest.
    injection Hrun as <- <-.
    pose proof (grows_resumed l w (delete i (suspended l)) t1 new
                  (delete_Permutation _ _ _ Hi) Hres) as H1.
    pose proof (IH (mkListening (out l ++ t1) (delete i (suspended l) ++ new) (late l))
                  ws2 t2 Hrest) as H2.
    cbn [out suspended late] in H2. rewrite <- app_assoc in H2.
    by_growth (grows_trans _ _ _ _ _ _ _ _ _ H1 H2).
Qed.

Lemma grows_idle l : grows_ l (idle on_accept l) [] [] [].
Proof.
  unfold idle.
  destruct (go_on_picked on_accept (hd [] (late l)) (suspended l)) as [t ws] eqn:Hrun.
  pose proof (grows_progress _ l ws t Hrun) as H.
  destruct H as (H1 & H2 & H3 & H4 & H5 & H6). by split_and!.
Qed.

Lemma grows_for_await reqs : ∀ l,
  grows_ l (for_await on_accept reqs l) reqs [] [].
Proof.
  induction reqs as [|req reqs IH]; intros l; [apply grows_refl|].
  cbn [for_await handle_called].
  by_growth (grows_trans _ _ _ _ _ _ _ _ _
               (grows_trans _ _ _ _ _ _ _ _ _ (grows_start req l) (grows_idle _))
               (IH _)).
Qed.

(** One iteration of the loop, up to the end of [serve]. *)
Lemma grows_serving tls options serving l :
  grows_ l (for_await on_accept (requests serving)
              (idle on_accept (say [Serve tls options] l)))
    (requests serving) [(tls, options)] [].
Proof.
  by_growth (grows_trans _ _ _ _ _ _ _ _ _
               (grows_trans _ _ _ _ _ _ _ _ _
                  (grows_say_serve tls options l) (grows_idle _))
               (grows_for_await (requests serving) _)).
Qed.

(** The loop, as long as [serve] throws, and when it ends by itself. *)
Lemma grows_accept_loop tls options failed : ∀ l,
  Forall (λ serving, ends serving ≠ None) failed →
  (∃ l', accept_loop on_accept tls options failed l = (l', Diverge) ∧
         grows_ l l' (failed ≫= requests)
           (replicate (length failed) (tls, options)) (omap ends failed)) ∧
  (∀ last rest, ends last = None →
     ∃ l', accept_loop on_accept tls options (failed ++ last :: rest) l = (l', Ok tt) ∧
           grows_ l l' ((failed ++ [last]) ≫= requests)
             (replicate (S (length failed)) (tls, options))
             (omap ends failed)).
Proof.
  induction failed as [|serving failed IH]; intros l Hall.
  - split; [exists l; split; [done|apply grows_refl]|].
    intros last rest Hlast. cbn [app accept_loop]. rewrite Hlast.
    eexists. split; [done|]. cbn [mbind list_bind app length replicate omap list_omap].
    by_growth (grows_serving tls options last l).
  - apply Forall_cons in Hall as [Hends Hall].
    destruct (ends serving) as [e|] eqn:He; [|done].
    set (l1 := say [ServerConsoleError e]
                 (for_await on_accept (requests serving)
                    (idle on_accept (say [Serve tls options] l)))).
    assert (H1 : grows_ l l1 (requests serving) [(tls, options)] [e]).
    { by_growth (grows_trans _ _ _ _ _ _ _ _ _
                   (grows_serving tls options serving l) (grows_say_error e _)). }
    destruct (IH l1 Hall) as [(l' & Hrun & Hg) Hok]. split.
    + exists l'. split.
      { cbn [accept_loop]. by rewrite He. }
      cbn [mbind list_bind length replicate omap list_omap]. rewrite He.
      by_growth (grows_trans _ _ _ _ _ _ _ _ _ H1 Hg).
    + intros last rest Hlast. destruct (Hok last rest Hlast) as (l'' & Hrun' & Hg').
      exists l''. split.
      { cbn [app accept_loop]. by rewrite He. }
      cbn [app mbind list_bind length replicate omap list_omap]. rewrite He.
      by_growth (grows_trans _ _ _ _ _ _ _ _ _ H1 Hg').
Qed.

Lemma go_on_all_spec ws :
  let (t, new) := go_on_all on_accept ws in
  upgrades t = [] ∧ served t = [] ∧ upgrading new = [] ∧
  accepted t = upgradable (upgrading ws) ∧
  responded t = refused (upgrading ws) ∧
  server_errors t ++ unreported new ≡ₚ
    unreported ws ++ omap (rejection on_accept) (upgrading ws).
Proof.
  induction ws as [|w ws IH]; [done|].
  cbn [go_on_all]. pose proof (go_on_spec w) as Hw.
  destruct (go_on on_accept w) as [t new].
  destruct (go_on_all on_accept ws) as [t' new'].
  destruct Hw as (H1 & H2 & H3 & H4 & H5 & H6).
  destruct IH as (G1 & G2 & G3 & G4 & G5 & G6).
  assert (Hcons : ∀ {A B} (f : Suspended → option A) (g : A → option B),
            omap g (omap f (w :: ws)) = omap g (omap f [w]) ++ omap g (omap f ws)).
  { intros A B f g. change (w :: ws) with ([w] ++ ws). by rewrite !omap_app. }
  assert (Hcons' : ∀ {A} (f : Suspended → option A),
            omap f (w :: ws) = omap f [w] ++ omap f ws).
  { intros A f. change (w :: ws) with ([w] ++ ws). by rewrite !omap_app. }
  unfold upgrades, served, upgrading, accepted, responded, upgradable, refused,
    unreported, server_errors in *.
  rewrite !omap_app, !Hcons, !Hcons', H1, H2, H3, H4, H5, G1, G2, G3, G4, G5.
  split_and!; try done.
  assert (H6' : omap (λ x, match x with ServerConsoleError e => Some e | _ => None end) t ++
                omap (λ w, match w with Rejected e => Some e | _ => None end) new ≡ₚ
                omap (λ w, match w with Rejected e => Some e | _ => None end) [w] ++
                omap (rejection on_accept)
                  (omap (λ w, match w with Upgrading req => Some req | _ => None end) [w]))
    by (by rewrite H6).
  clear H6. perm.
Qed.

Lemma go_on_all_rejected ws :
  upgrading ws = [] → snd (go_on_all on_accept ws) = [].
Proof.
  induction ws as [|[req|e] ws IH]; [done|done|]. intros Hup.
  cbn [go_on_all go_on]. specialize (IH Hup).
  by destruct (go_on_all on_accept ws).
Qed.

(** Once the listener has returned, every handler comes to its end and
    every rejection to the console. *)
Lemma finish_spec l :
  let t := finish on_accept l in
  upgrades t = upgrades (out l) ∧ served t = served (out l) ∧
  accepted t = accepted (out l) ++ upgradable (upgrading (suspended l)) ∧
  responded t = responded (out l) ++ refused (upgrading (suspended l)) ∧
  server_errors t ≡ₚ
    server_errors (out l) ++ unreported (suspended l) ++
    omap (rejection on_accept) (upgrading (suspended l)).
Proof.
  unfold finish.
  pose proof (go_on_all_spec (suspended l)) as H1.
  destruct (go_on_all on_accept (suspended l)) as [t1 ws1].
  pose proof (go_on_all_spec ws1) as H2.
  pose proof (go_on_all_rejected ws1) as H3.
  destruct (go_on_all on_accept ws1) as [t2 ws2].
  destruct H1 as (A1 & A2 & A3 & A4 & A5 & A6).
  destruct H2 as (B1 & B2 & B3 & B4 & B5 & B6).
  cbn [snd] in H3. rewrite (H3 A3) in B6. rewrite A3 in B4, B5, B6.
  unfold upgrades, served, upgrading, accepted, responded, upgradable, refused,
    unreported, server_errors in *.
  cbn [omap list_omap] in B4, B5, B6. rewrite !app_nil_r in B6.
  rewrite !omap_app, A1, A2, B1, B2, A4, A5, B4, B5, !app_nil_r.
  split_and!; try done. perm.
Qed.

(** X1: the listener calls [serve] again, with the same options, each
    time it has thrown, and returns when it ends by itself. It calls
    [acceptWebSocket] on every request in the order in which [serve]
    yields them, and does not wait for a handler before it takes the next
    request: whenever the handlers go on, each request that
    [acceptWebSocket] takes is surfaced by one [accept] event and each one
    that it refuses is answered 400, once; and what reaches the console
    is what [serve] threw and what the handlers rejected with, each
    once. *)
Theorem listen_surfaces_every_request options failed last rest late :
  Forall (λ serving, ends serving ≠ None) failed →
  ends last = None →
  let reqs := (failed ++ [last]) ≫= requests in
  ∃ t, WSServer on_accept options (failed ++ last :: rest) late = (t, Ok tt) ∧
       upgrades t = req_id <$> reqs ∧
       accepted t ≡ₚ upgradable reqs ∧
       responded t ≡ₚ refused reqs ∧
       served t = replicate (S (length failed)) (isHTTPS options, options) ∧
       server_errors t ≡ₚ
         omap ends failed ++ omap (rejection on_accept) reqs.
Proof.
  intros Hfailed Hlast reqs.
  set (l0 := mkListening [] [] late).
  destruct (grows_accept_loop (isHTTPS options) options failed l0 Hfailed)
    as [_ Hok].
  destruct (Hok last rest Hlast) as (l' & Hrun & Hg). fold reqs in Hg.
  pose proof (grows_trans _ _ _ _ _ _ _ _ _ Hg (grows_idle l')) as Hg'.
  rewrite !app_nil_r in Hg'.
  destruct Hg' as (H1 & H2 & H3 & H4 & H5 & _).
  destruct (finish_spec (idle on_accept l')) as (F1 & F2 & F3 & F4 & F5).
  exists (finish on_accept (idle on_accept l')). split.
  { unfold WSServer, listen, listenTLS. fold l0.
    destruct (isHTTPS options); by rewrite Hrun. }
  cbn [l0 out suspended upgrades served accepted responded server_errors
       upgrading unreported upgradable refused omap list_omap app] in H1, H2, H3, H4, H5.
  split_and!.
  - by rewrite F1, H1.
  - rewrite F3. perm.
  - rewrite F4. perm.
  - by rewrite F2, H2.
  - rewrite F5. perm.
Qed.

(** X2: as long as [serve] throws, the listener does not return: each
    iteration that throws is followed by another call of [serve], with
    the same options, once what it threw has been logged; meanwhile
    [acceptWebSocket] is called on every request, in the order in which
    they are yielded, and an [accept] event is only emitted for a request
    that [acceptWebSocket] took, once at most. *)
Theorem listen_never_gives_up options servings late :
  Forall (λ serving, ends serving ≠ None) servings →
  let run := WSServer on_accept options servings late in
  snd run = Diverge ∧
  served (fst run) = replicate (length servings) (isHTTPS options, options) ∧
  upgrades (fst run) = req_id <$> (servings ≫= requests) ∧
  accepted (fst run) ⊆+ upgradable (servings ≫= requests) ∧
  (∀ e, e ∈ omap ends servings → e ∈ server_errors (fst run)).
Proof.
  intros Hall run.
  set (l0 := mkListening [] [] late).
  destruct (grows_accept_loop (isHTTPS options) options servings l0 Hall)
    as [(l' & Hrun & Hg) _].
  assert (Hout : run = (out l', Diverge)).
  { unfold run, WSServer, listen, listenTLS. fold l0.
    destruct (isHTTPS options); by rewrite Hrun. }
  rewrite Hout. cbn [fst snd].
  destruct Hg as (H1 & H2 & H3 & H4 & H5 & H6).
  cbn [l0 out suspended upgrades served accepted responded server_errors
       upgrading unreported upgradable refused omap list_omap app] in H1, H2, H3, H6.
  split_and!; try done.
  rewrite <- H3. by apply submseteq_inserts_r.
Qed.

Lemma isHTTPS_true options :
  isHTTPS options = true ↔
  ∃ cert key, certFile options = Some cert ∧ keyFile options = Some key ∧
              cert ≠ "" ∧ key ≠ "".
Proof.
  unfold isHTTPS, Boolean. split.
  - intros [H1 H2]%andb_true_iff.
    destruct (certFile options) as [cert|], (keyFile options) as [key|];
      try done.
    exists cert, key. split_and!; try done.
    + intros ->. by rewrite bool_decide_eq_true_2 in H1.
    + intros ->. by rewrite bool_decide_eq_true_2 in H2.
  - intros (cert & key & -> & -> & Hc & Hk).
    by rewrite !bool_decide_eq_false_2.
Qed.

End ServerProperties.

(** ** The properties on the sample environments *)

Lemma sample_uuid_inj : Inj (=) (=) sample_uuid.
Proof.
  intros n. induction n as [|n IH]; intros [|m] Heq; cbn in Heq;
    try done. f_equal. apply IH. by injection Heq.
Qed.

Lemma wf_echo_opened : wf echo_opened.
Proof.
  apply (open_wf silent sample_uuid 4 None Client "echo" "1"
           (new_conn OPEN) echo_opened (mkChannel "u" 0)).
  - vm_compute. reflexivity.
  - apply wf_new_conn.
Qed.

Lemma wf_two_channels L : wf (two_channels L).
Proof.
  apply (open_many_wf L sample_uuid 4 None Server
           [("echo", "1"); ("echo", "2")] (new_conn OPEN) (two_channels L)
           [mkChannel "u" 0; mkChannel "xu" 1]).
  - vm_compute. reflexivity.
  - apply wf_new_conn.
Qed.

(** C1, as the claim states it, fails: on a fresh client connection
    [open("echo", "1")] hands the open frame to the socket and only then
    puts the channel in the table. *)
Lemma open_registers_before_send_cex :
  let r := open sample_uuid 4 (impl := WSClientConn) "echo" "1"
             (new_conn OPEN) in
  let c := mkChannel "u" 0 in
  let sent := SocketSend (WSOpenMessage "u" "echo" "1") in
  snd r = Ok c ∧
  trace (fst r) = [sent; ChannelsSet "u" c; OnceClose c] ∧
  ¬ precedes (ChannelsSet "u" c) sent (trace (fst r)) ∧
  ¬ precedes (OnceClose c) sent (trace (fst r)).
Proof.
  vm_compute. split_and!; try reflexivity.
  - intros (i & j & Hi & Hj & Hij).
    destruct i as [|[|[|i]]], j as [|[|[|j]]]; cbn in *; try discriminate; lia.
  - intros (i & j & Hi & Hj & Hij).
    destruct i as [|[|[|i]]], j as [|[|[|j]]]; cbn in *; try discriminate; lia.
Qed.



(** C3, at the failing input: on a server connection [close("bye")]
    called twice emits the connection's [close] event twice (the socket
    letting itself be closed again), and called once it is followed by a
    second [close] event when the loop of [_listen] ends, whatever the
    schedule of [_listen]; on a closed client connection [close] does
    nothing. *)
Theorem server_close_emits_close_again late :
  let s := new_conn OPEN in
  let close := WSServerConn_close silent None in
  let bye := CloseError ConnectionClose (Some "bye") in
  trace (fst ((close (Some "bye") ;; close (Some "bye")) s)) =
    [SocketClose 1000 (Some "bye"); ConnEmitClose bye;
     SocketClose 1000 (Some "bye"); ConnEmitClose bye] ∧
  trace (fst ((close (Some "bye") ;; _listen silent None [] late) s)) =
    [SocketClose 1000 (Some "bye"); ConnEmitClose bye;
     ConnEmitClose (CloseError ConnectionClose None)] ∧
  trace (fst (_listen silent None [WsClose 1000 "gone"] late s)) =
    [ConnEmitClose (CloseError ConnectionClose (Some "gone"));
     ConnEmitClose (CloseError ConnectionClose None)] ∧
  WSClientConn_close (Some "bye") (new_conn CLOSED) = (new_conn CLOSED, Ok tt).
Proof.
  intros s close bye. split_and!.
  - vm_compute. reflexivity.
  - unfold bind at 1.
    assert (Hclose : close (Some "bye") s =
              (fst (close (Some "bye") s), Ok tt)) by (vm_compute; reflexivity).
    rewrite Hclose.
    rewrite (listen_nothing_paused silent None [] late _ _ eq_refl).
    vm_compute. reflexivity.
  - rewrite (listen_nothing_paused silent None [WsClose 1000 "gone"] late s
               (set_ready CLOSED
                  (add_trace (ConnEmitClose (CloseError ConnectionClose (Some "gone"))) s))).
    + vm_compute. reflexivity.
    + apply listen_loop_one. vm_compute. reflexivity.
  - vm_compute. reflexivity.
Qed.

(** C4, at the failing input: [waitpath("rpc", 50)] races against a timer
    of 1000, so that an open frame that comes at 500 wins the race, and
    with nothing coming the race times out at 1000; without a delay, or
    with 0, there is no timer. *)
Theorem waitpath_ignores_delay :
  waitpath "rpc" (Some 50) =
    Timeout_race [PathsWait "rpc"; ErrorOnClose] 1000 ∧
  settle (waitpath "rpc" (Some 50))
         (λ a, match a with PathsWait _ => Some 500 | _ => None end) =
    Won (PathsWait "rpc") 500 ∧
  settle (waitpath "rpc" (Some 50)) (λ _, None) = TimedOut 1000 ∧
  waitpath "rpc" None = Abort_race [PathsWait "rpc"; ErrorOnClose] ∧
  waitpath "rpc" (Some 0) = Abort_race [PathsWait "rpc"; ErrorOnClose].
Proof. vm_compute. split_and!; reflexivity. Qed.

(** C5 on a fresh client connection, with listeners of paths that throw:
    the request hands its open frame to the socket; the close frame that
    comes at 20 settles a request without delay, and a request with a delay
    of 15 times out with its channel still in the table. *)
Lemma request_settles_or_times_out_witness :
  let run := request failing_path sample_uuid 4 (impl := WSClientConn)
               "echo" "1" in
  let inbound := [(5, WSOpenMessage "v" "echo" "0");
                  (10, WSDataMessage "u" "hello");
                  (20, WSCloseMessage "u" "bye")] in
  sent (added (new_conn OPEN) (fst (run None inbound (new_conn OPEN)))) !! 0%nat =
    Some (WSOpenMessage "u" "echo" "1") ∧
  snd (run None (inbound ++ [(30, WSErrorMessage "u" "late")])
         (new_conn OPEN)) = Ok (Settled (CloseData "bye")) ∧
  ∃ s', run (Some 15) inbound (new_conn OPEN) = (s', Ok TimeoutError) ∧
        channels s' !! "u" = Some (mkChannel "u" 0).
Proof.
  intros run inbound.
  assert (Hopen : open sample_uuid 4 (impl := WSClientConn) "echo" "1"
                    (new_conn OPEN) = (echo_opened, Ok (mkChannel "u" 0)))
    by (vm_compute; reflexivity).
  assert (Hund : undisturbed failing_path (mkChannel "u" 0)) by (by split).
  assert (Hsize : (size (channels (new_conn OPEN)) < 4)%nat)
    by (vm_compute; lia).
  split_and!.
  - destruct (request_settles_or_times_out failing_path sample_uuid 4 None
                Client "echo" "1" None (new_conn OPEN) (wf_new_conn OPEN)
                sample_uuid_inj Hsize eq_refl) as (s1 & c & Hc & Hsent & _).
    cbn [impl_of] in Hc, Hsent. rewrite Hopen in Hc. injection Hc as <- <-.
    destruct (Hsent inbound) as (s' & r & t & Hrun & Hadd).
    unfold run. rewrite Hrun. cbn [fst]. rewrite Hadd. reflexivity.
  - destruct (request_settles_or_times_out failing_path sample_uuid 4 None
                Client "echo" "1" None (new_conn OPEN) (wf_new_conn OPEN)
                sample_uuid_inj Hsize eq_refl) as (s1 & c & Hc & _ & H & _).
    cbn [impl_of] in Hc, H. rewrite Hopen in Hc. injection Hc as <- <-.
    destruct (H Hund) as [Hsettles _].
    apply (Hsettles [(5, WSOpenMessage "v" "echo" "0");
                     (10, WSDataMessage "u" "hello")]
             20 (WSCloseMessage "u" "bye") (CloseData "bye")
             [(30, WSErrorMessage "u" "late")]).
    + repeat constructor; cbn; lia.
    + right. cbn. lia.
    + reflexivity.
    + reflexivity.
  - destruct (request_settles_or_times_out failing_path sample_uuid 4 None
                Client "echo" "1" (Some 15) (new_conn OPEN) (wf_new_conn OPEN)
                sample_uuid_inj Hsize eq_refl) as (s1 & c & Hc & _ & H & _).
    cbn [impl_of] in Hc, H. rewrite Hopen in Hc. injection Hc as <- <-.
    destruct (H Hund) as [_ Htimes].
    apply Htimes.
    + cbn. lia.
    + apply Forall_cons. split; [intros _; by left|].
      apply Forall_cons. split; [intros _; by left|].
      apply Forall_cons. split; [cbn; intros; lia|]. constructor.
Defined.

(** C6 on a client connection whose only channel is ["u"]. *)
Lemma unknown_uuid_is_reported_witness :
  onwsmessage silent (impl := WSClientConn) (WSCloseMessage "ghost" "x")
    echo_opened = (echo_opened, Throw (JsError "Invalid UUID")) ∧
  deliver silent (impl := WSClientConn) (WSCloseMessage "ghost" "x")
    echo_opened =
    (add_trace (ConsoleError (JsError "Invalid UUID")) echo_opened, Ok tt).
Proof.
  apply (unknown_uuid_is_reported silent WSClientConn echo_opened
           (WSCloseMessage "ghost" "x")).
  - reflexivity.
  - vm_compute. reflexivity.
Defined.

(** C10 on a client connection whose only channel is ["u"]. *)
Lemma open_frame_for_registered_uuid_witness :
  onwsmessage silent (impl := WSClientConn) (WSOpenMessage "u" "echo" "2")
    echo_opened = (echo_opened, Throw (JsError "UUID already exists")).
Proof.
  apply (open_frame_for_registered_uuid silent WSClientConn echo_opened
           "u" "echo" "2").
  exists (mkChannel "u" 0). vm_compute. reflexivity.
Defined.



(** C8 on a server connection with two channels and a close listener
    that throws: a close frame, an error frame and a call of [close], all
    for channel ["u"]. *)
Lemma channel_closes_once_witness :
  let L := failing_close in
  let s := two_channels L in
  let c := mkChannel "u" 0 in
  let s' := closings L (impl := WSServerConn L None)
              [FrameArrives (WSCloseMessage "u" "bye");
               FrameArrives (WSErrorMessage "u" "late");
               CloseCalled c "again"] s in
  count (is_close_of c) (added s s') = 1%nat ∧
  count (is_delete_of "u") (added s s') = 1%nat ∧
  channels s' !! "u" = None.
Proof.
  apply (channel_closes_once failing_close None Server
           (two_channels failing_close) "u" (mkChannel "u" 0)
           (FrameArrives (WSCloseMessage "u" "bye"))
           [FrameArrives (WSErrorMessage "u" "late");
            CloseCalled (mkChannel "u" 0) "again"]).
  - apply wf_two_channels.
  - vm_compute. reflexivity.
  - repeat constructor.
  - discriminate.
Defined.

(** C9 on a server connection with two channels, closed by a call of
    [close]. *)
Lemma closing_connection_closes_channels_witness :
  let s := two_channels silent in
  let s' := fst (closure silent None (ServerCloseCalled (Some "bye")) s) in
  channels s' = ∅ ∧
  (∀ c, c ∈ registered s →
        ∃ e, precedes (ChanEmitClose c (CloseErr e)) (ConnEmitClose e)
                      (added s s')) ∧
  (∀ msg, send (WSConnImpl := WSServerConn silent None) msg s' =
            (s', Throw (JsError "socket is not open"))).
Proof.
  apply (closing_connection_closes_channels silent None
           (ServerCloseCalled (Some "bye")) (two_channels silent)).
  - apply wf_two_channels.
  - vm_compute. reflexivity.
Defined.

(** ** The further properties on the sample environments *)

(** X1 on a TLS listener: the first serving yields two requests and then
    throws, the second yields a request that is refused and ends; the
    handler of the second request goes on before the one of the first, and
    the one of the third after the listener has returned. *)
Lemma listen_surfaces_every_request_witness :
  let options := mkOptions 443 None (Some "cert.pem") (Some "key.pem") in
  let failed := [mkServing [mkRequest 0 None None; mkRequest 1 None None]
                   (Some (JsError "reset"))] in
  let last := mkServing [mkRequest 2 (Some (JsError "no upgrade")) None] None in
  let late := [[]; []; [1; 0]%nat] in
  WSServer (λ _, None) options (failed ++ [last]) late =
    ([Serve true options; AcceptWebSocket 0; AcceptWebSocket 1;
      NewWSServerConn 1; EmitAccept 1; NewWSServerConn 0; EmitAccept 0;
      ServerConsoleError (JsError "reset"); Serve true options;
      AcceptWebSocket 2; Respond 2 400], Ok tt) ∧
  ∃ t, WSServer (λ _, None) options (failed ++ [last]) late = (t, Ok tt) ∧
       upgrades t = [0; 1; 2]%nat ∧ accepted t ≡ₚ [0; 1]%nat ∧
       responded t ≡ₚ [(2%nat, 400)] ∧
       served t = [(true, options); (true, options)] ∧
       server_errors t ≡ₚ [JsError "reset"].
Proof.
  intros options failed last late. split; [vm_compute; reflexivity|].
  apply (listen_surfaces_every_request (λ _, None) options failed last [] late).
  - repeat constructor. discriminate.
  - reflexivity.
Defined.

(** X2 on a plain listener whose two servings throw. *)
Lemma listen_never_gives_up_witness :
  let options := mkOptions 80 None None None in
  let servings := [mkServing [mkRequest 0 None None] (Some (JsError "reset"));
                   mkServing [] (Some (JsError "again"))] in
  let run := WSServer (λ _, None) options servings [] in
  snd run = Diverge ∧
  served (fst run) = [(false, options); (false, options)] ∧
  upgrades (fst run) = [0%nat] ∧
  JsError "again" ∈ server_errors (fst run).
Proof.
  intros options servings run.
  destruct (listen_never_gives_up (λ _, None) options servings [])
    as (Hdiv & Hserved & Hup & _ & Herr).
  - repeat constructor; discriminate.
  - split_and!; [exact Hdiv|exact Hserved|exact Hup|].
    apply Herr. vm_compute. apply list_elem_of_further, list_elem_of_here.
Defined.

(** X3 from a client to a fresh server connection. *)
Lemma open_reaches_peer_handler_witness :
  let b := new_conn OPEN in
  let c' := mkChannel "u" 0 in
  ∃ frame b',
    sent (added (new_conn OPEN) echo_opened) = [frame] ∧
    onwsmessage silent (impl := WSServerConn silent None) frame b = (b', Ok tt) ∧
    added b b' = [ChannelsSet "u" c'; OnceClose c'; PathEmit "echo" c' "1"] ∧
    channels b' = <["u" := c']> (channels b) ∧
    hooks b' = {[0%nat]} ∪ hooks b.
Proof.
  intros b c'.
  apply (open_reaches_peer_handler silent sample_uuid 4 None Client "echo" "1"
           (new_conn OPEN) echo_opened (mkChannel "u" 0) silent
           (WSServerConn silent None) (new_conn OPEN)).
  - vm_compute. reflexivity.
  - reflexivity.
  - reflexivity.
Defined.

(** X4 on a client connection whose only channel is ["u"]. *)
Lemma data_frames_in_order_witness :
  let c := mkChannel "u" 0 in
  let s' := deliveries silent (impl := WSClientConn)
              [WSDataMessage "u" "a"; WSDataMessage "u" "b"] echo_opened in
  added echo_opened s' = [ChanEmitMessage c "a"; ChanEmitMessage c "b"] ∧
  channels s' = channels echo_opened ∧ hooks s' = hooks echo_opened ∧
  ready s' = ready echo_opened ∧ sent (added echo_opened s') = [].
Proof.
  apply (data_frames_in_order silent WSClientConn echo_opened "u"
           (mkChannel "u" 0) ["a"; "b"]).
  - vm_compute. reflexivity.
  - repeat constructor.
Defined.

(** X5 with two calls of [open] on a fresh server connection. *)
Lemma open_many_returns_witness :
  let reqs := [("echo", "1"); ("echo", "2")] in
  ∃ s' cs,
    open_many sample_uuid 4 (impl := WSServerConn silent None) reqs
      (new_conn OPEN) = (s', Ok cs) ∧
    length cs = 2%nat ∧
    size (channels s') = (size (channels (new_conn OPEN)) + 2)%nat ∧
    sent (added (new_conn OPEN) s') =
      zip_with (λ c req, WSOpenMessage (uuid c) req.1 req.2) cs reqs.
Proof.
  intros reqs.
  apply (open_many_returns silent sample_uuid 4 None Server reqs (new_conn OPEN)).
  - apply sample_uuid_inj.
  - reflexivity.
  - vm_compute. lia.
Defined.

(** X6 on a client connection whose socket is still connecting. *)
Lemma request_on_closed_socket_witness :
  let s := new_conn CONNECTING in
  ∃ s',
    request silent sample_uuid 4 (impl := WSClientConn) "echo" "1" None
      [(5, WSCloseMessage "u" "late")] s =
      (s', Throw (JsError "socket is not open")) ∧
    open sample_uuid 4 (impl := WSClientConn) "echo" "1" s =
      (s', Throw (JsError "socket is not open")) ∧
    channels s' = channels s ∧ hooks s' = hooks s ∧ trace s' = trace s.
Proof.
  intros s.
  apply (request_on_closed_socket silent sample_uuid 4 None Client "echo" "1"
           None [(5, WSCloseMessage "u" "late")] (new_conn CONNECTING)).
  - apply sample_uuid_inj.
  - vm_compute. lia.
  - discriminate.
Defined.

(** X7 on a client connection whose only channel is ["u"]. *)
Lemma reopen_after_close_witness :
  let s := echo_opened in
  let c := mkChannel "u" 0 in
  let c' := mkChannel "u" 1 in
  let s' := deliveries silent (impl := WSClientConn)
              [WSCloseMessage "u" "bye"; WSOpenMessage "u" "echo" "2"] s in
  added s s' = [ChanEmitClose c (CloseData "bye"); ChannelsDelete "u";
                ChannelsSet "u" c'; OnceClose c'; PathEmit "echo" c' "2"] ∧
  channels s' !! "u" = Some c' ∧ c' ≠ c ∧ wf s' ∧
  channels (fst (channel_emit_close silent c (CloseData "again") s')) =
    channels s'.
Proof.
  apply (reopen_after_close silent sample_uuid 4 WSClientConn echo_opened "u"
           (mkChannel "u" 0) (WSCloseMessage "u" "bye") (CloseData "bye")
           "echo" "2" (CloseData "again")).
  - apply wf_echo_opened.
  - vm_compute. reflexivity.
  - reflexivity.
  - reflexivity.
  - reflexivity.
  - reflexivity.
Defined.

(** X9 on a server connection with two channels and a close listener
    that throws: two close frames, each of which fails. *)
Lemma server_dispatch_closes_once_witness :
  let s := two_channels failing_close in
  let s' := deliveries failing_close (impl := WSServerConn failing_close None)
              [WSCloseMessage "u" "bye"; WSCloseMessage "xu" "bye"] s in
  (count is_socket_close (added s s') ≤ 1)%nat ∧
  (count is_conn_emit_close (added s s') ≤ 1)%nat ∧
  ready s' = CLOSED.
Proof.
  intros s s'.
  destruct (server_dispatch_closes_once failing_close None
              [WSCloseMessage "u" "bye"; WSCloseMessage "xu" "bye"]
              (two_channels failing_close)) as (H1 & H2 & _ & H4).
  split_and!; [exact H1|exact H2|]. apply H4. vm_compute. reflexivity.
Defined.

(** X12 on a client connection whose only channel is ["u"], with a close
    listener that throws. *)
Lemma client_dispatch_leaves_close_to_socket_witness :
  let s := echo_opened in
  let s' := deliveries failing_close (impl := WSClientConn)
              [WSCloseMessage "u" "bye"] s in
  count is_conn_emit_close (added s s') = 0%nat ∧
  WSClientConn_closed s' = false ∧ ready s' = CLOSING.
Proof.
  intros s s'.
  destruct (client_dispatch_leaves_close_to_socket failing_close
              [WSCloseMessage "u" "bye"] echo_opened) as (H1 & H2 & H3 & _).
  split_and!; [exact H1|exact H2|].
  destruct H3 as [H3|H3]; [|exact H3]. vm_compute in H3. discriminate H3.
Defined.

(** The listener of a server connection on a socket that yields one frame
    for an unknown identifier and ends: the rejection of the handler is
    reported before the [close] event, or after it, as the schedule has
    it. *)
Lemma listen_reports_whenever :
  let events := [WsText (WSDataMessage "ghost" "x")] in
  let invalid := ConsoleError (JsError "Invalid UUID") in
  let closing := ConnEmitClose (CloseError ConnectionClose None) in
  trace (fst (_listen silent None events [] (new_conn OPEN))) =
    [closing; invalid] ∧
  trace (fst (_listen silent None events [[0%nat]] (new_conn OPEN))) =
    [invalid; closing].
Proof. vm_compute. split; reflexivity. Qed.
